(** * HelenOS user-space asynchronous IPC framework and UDP associations

    A shallow embedding of [libc/generic/async.c] (the async manager's
    connection router and request/reply correlator) and of
    [uspace/srv/net/udp/assoc.c] (the UDP association layer), with the
    properties of the written specification stated and proved over it.

    Both files are C code that mutates heap objects through pointers and
    calls into other libraries.  A function of the source becomes a
    computation in the monad [M]: it reads and writes a store, can stop with
    a [fault] (a load or store through a pointer that designates no object),
    and appends to a trace the calls it makes into other modules, in the
    order in which it makes them. *)

From stdpp Require Import gmap list.
From Stdlib Require Import ZArith Lia Sorted.

Local Open Scope Z_scope.

(** ** The monad of the embedding *)

Inductive fault :=
  | NullDeref      (* load or store through NULL *)
  | WildPointer    (* load or store through a pointer to no object of that type *)
  | UseAfterFree   (* load or store through a pointer to storage that was freed *)
  | EmptyList      (* the head sentinel of an empty list read as an element *)
  | OutOfFuel      (* a loop ran past the bound given for it *)
  | AssertFailed.  (* an [assert] of the source does not hold *)

Inductive result (S A : Type) :=
  | Ok (a : A) (s : S)
  | Fault (f : fault).
Arguments Ok {S A} a s.
Arguments Fault {S A} f.

(** A computation maps the store to the calls it has made and to its
    result.  The trace is only ever appended to. *)
Definition M (S E A : Type) : Type := S → list E * result S A.

Section monad.
Context {S E : Type}.

#[export] Instance M_ret : MRet (M S E) := λ A a s, ([], Ok a s).

#[export] Instance M_bind : MBind (M S E) := λ A B k m s,
  match m s with
  | (t, Ok a s') => let '(t', r) := k a s' in (t ++ t', r)
  | (t, Fault f) => (t, Fault f)
  end.

Definition get : M S E S := λ s, ([], Ok s s).
Definition modify (f : S → S) : M S E unit := λ s, ([], Ok tt (f s)).
Definition emit (e : E) : M S E unit := λ s, ([e], Ok tt s).
Definition fail {A} (f : fault) : M S E A := λ s, ([], Fault f).

(** The statements of a function body, run one after the other. *)
Fixpoint run_stmts (l : list (M S E unit)) : M S E unit :=
  match l with
  | [] => mret tt
  | c :: l' => c ;; run_stmts l'
  end.

Definition trace_of {A} (r : list E * result S A) : list E := fst r.
Definition result_of {A} (r : list E * result S A) : result S A := snd r.

End monad.

(** ** Error codes

    [errno.h] is not among the sources; the codes the two files return are
    taken as given.  [EOK] is zero, as the specification states. *)

Class Errno := {
  ENOENT : Z; ENOMEM : Z; EHANGUP : Z; ETIMEOUT : Z;
  EINVAL : Z; EIO : Z; ENXIO : Z
}.
Definition EOK : Z := 0.

(** An assignment of codes for the concrete runs below. *)
Definition sample_errno : Errno :=
  {| ENOENT := -1; ENOMEM := -2; EHANGUP := -7; ETIMEOUT := -12;
     EINVAL := -13; EIO := -9; ENXIO := -20 |}.

(** * The asynchronous library, [libc/generic/async.c] *)

Module Async.

(** ** Time values *)

(** Modelled from the spec: [sys/time.h], with [struct timeval], [time_t]
    and [suseconds_t], is not among the sources.  "Timeval (monotonic).
    Seconds + microseconds, 64-bit seconds."  Both fields are of the C
    type [long], a signed integer of 64 bits. *)
Record timeval := { tv_sec : Z; tv_usec : Z }.

(** The values of a [long]. *)
Definition in_long (z : Z) : Prop := - 2 ^ 63 ≤ z < 2 ^ 63.

(** What the machine leaves in a [long] for the mathematical result [z]
    of an addition, a subtraction or a multiplication: the result wraps
    around. *)
Definition long (z : Z) : Z := (z + 2 ^ 63) `mod` 2 ^ 64 - 2 ^ 63.

(** The invariant the specification gives for time values. *)
Definition normalized (tv : timeval) : Prop := 0 ≤ tv_usec tv < 1000000.

(** [tv_add] updates [*tv] in place; the embedding returns the updated
    value.  [/] and [%] of C truncate towards zero. *)
Definition tv_add (tv : timeval) (usecs : Z) : timeval :=
  let tv := {| tv_sec := long (tv_sec tv + usecs ÷ 1000000);
               tv_usec := tv_usec tv |} in
  let tv := {| tv_sec := tv_sec tv;
               tv_usec := long (tv_usec tv + Z.rem usecs 1000000) |} in
  if 1000000 <? tv_usec tv
  then {| tv_sec := long (tv_sec tv + 1); tv_usec := long (tv_usec tv - 1000000) |}
  else tv.

Definition tv_sub (tv1 tv2 : timeval) : Z :=
  let result := long (tv_usec tv1 - tv_usec tv2) in
  long (result + long (long (tv_sec tv1 - tv_sec tv2) * 1000000)).

Definition tv_gt (tv1 tv2 : timeval) : bool :=
  if tv_sec tv2 <? tv_sec tv1 then true
  else if (tv_sec tv1 =? tv_sec tv2) && (tv_usec tv2 <? tv_usec tv1) then true
  else false.

(** ** Data

    Pointers, call identifiers, fibril identifiers and IPC arguments are
    integers; [NULL] is [0]. *)

Definition NULL : Z := 0.

(** Modelled from the spec: [ipc/ipc.h], with [ipc_call_t] and the
    [IPC_GET_ARG3] macro, is not among the sources.  "Call shape:
    {in_phone_hash, method, arg1..arg5}.  The router uses in_phone_hash as
    the connection key; new_connection reads the peer's phone hash from
    arg3." *)
Record ipc_call_t := {
  in_phone_hash : Z;
  method : Z;
  arg1 : Z; arg2 : Z; arg3 : Z; arg4 : Z; arg5 : Z
}.

Definition IPC_GET_ARG3 (call : ipc_call_t) : Z := arg3 call.

(** [amsg_t], an outstanding message.  [link] is kept as the position of
    the message in [timeout_list]. *)
Record amsg_t := {
  am_ptid : Z;
  am_active : bool;
  am_done : bool;
  am_dataptr : Z;
  am_expires : timeval;
  am_has_timeout : bool;
  am_retval : Z
}.

(** [msg_t], a routed call.  [link] is kept as the position of the message
    in the queue of its connection. *)
Record msg_t := {
  m_callid : Z;
  m_call : ipc_call_t
}.

(** [connection_t].  [msg_queue] holds the pointers to the queued [msg_t],
    head first; [cthread] is a code address. *)
Record connection_t := {
  c_in_phone_hash : Z;
  c_msg_queue : list Z;
  c_ptid : Z;
  c_active : bool;
  c_callid : Z;
  c_call : ipc_call_t;
  c_cthread : Z
}.

(** What a pointer can designate.  [malloc] hands out [Uninit] storage. *)
Inductive cell :=
  | Uninit
  | Amsg (a : amsg_t)
  | Msg (m : msg_t)
  | Conn (c : connection_t)
  | Call (c : ipc_call_t)
  | Word (v : Z).

(** The store: the heap and the file's three static variables
    ([conn_hash_table], [timeout_list], the thread-local [PS_connection]),
    with what the code reads from its surroundings: the running fibril's
    identifier, the clock, the number of objects [malloc] can still hand
    out and the identifiers [psthread_create] will return.

    [free] ends the life of the object: the cell leaves the heap and the
    pointer is recorded in [released], so a load or a store through a
    freed pointer finds nothing and faults with [UseAfterFree], until
    [malloc] hands the address out again.

    [async_futex] is not part of the store.  Fibrils are cooperative: one
    runs at a time and hands over only where it yields, which is where the
    source leaves the futex to the manager. *)
Record store := {
  heap : gmap Z cell;
  released : list Z;
  mem_avail : nat;
  conn_hash_table : gmap Z (list Z);
  timeout_list : list Z;
  PS_connection : Z;
  self : Z;
  clock : timeval;
  ptid_supply : list Z
}.

Definition set_heap (f : gmap Z cell → gmap Z cell) (s : store) : store :=
  {| heap := f (heap s); released := released s; mem_avail := mem_avail s;
     conn_hash_table := conn_hash_table s; timeout_list := timeout_list s;
     PS_connection := PS_connection s; self := self s; clock := clock s;
     ptid_supply := ptid_supply s |}.

Definition set_released (f : list Z → list Z) (s : store) : store :=
  {| heap := heap s; released := f (released s); mem_avail := mem_avail s;
     conn_hash_table := conn_hash_table s; timeout_list := timeout_list s;
     PS_connection := PS_connection s; self := self s; clock := clock s;
     ptid_supply := ptid_supply s |}.

Definition set_mem_avail (f : nat → nat) (s : store) : store :=
  {| heap := heap s; released := released s; mem_avail := f (mem_avail s);
     conn_hash_table := conn_hash_table s; timeout_list := timeout_list s;
     PS_connection := PS_connection s; self := self s; clock := clock s;
     ptid_supply := ptid_supply s |}.

Definition set_conn_hash_table (f : gmap Z (list Z) → gmap Z (list Z)) (s : store) : store :=
  {| heap := heap s; released := released s; mem_avail := mem_avail s;
     conn_hash_table := f (conn_hash_table s); timeout_list := timeout_list s;
     PS_connection := PS_connection s; self := self s; clock := clock s;
     ptid_supply := ptid_supply s |}.

Definition set_timeout_list (f : list Z → list Z) (s : store) : store :=
  {| heap := heap s; released := released s; mem_avail := mem_avail s;
     conn_hash_table := conn_hash_table s; timeout_list := f (timeout_list s);
     PS_connection := PS_connection s; self := self s; clock := clock s;
     ptid_supply := ptid_supply s |}.

Definition set_PS_connection (p : Z) (s : store) : store :=
  {| heap := heap s; released := released s; mem_avail := mem_avail s;
     conn_hash_table := conn_hash_table s; timeout_list := timeout_list s;
     PS_connection := p; self := self s; clock := clock s;
     ptid_supply := ptid_supply s |}.

Definition set_ptid_supply (f : list Z → list Z) (s : store) : store :=
  {| heap := heap s; released := released s; mem_avail := mem_avail s;
     conn_hash_table := conn_hash_table s; timeout_list := timeout_list s;
     PS_connection := PS_connection s; self := self s; clock := clock s;
     ptid_supply := f (ptid_supply s) |}.

(** The calls into other modules that the trace records. *)
Inductive event :=
  | EvAnswerFast (callid retval arg1 arg2 : Z)      (* ipc_answer_fast *)
  | EvCallAsync (phoneid method arg1 arg2 private : Z) (* ipc_call_async_2 *)
  | EvAddReady (ptid : Z)                            (* psthread_add_ready *)
  | EvFree (p : Z)                                   (* free *)
  | EvHashInsert (key item : Z)                      (* hash_table_insert *)
  | EvHashRemove (key : Z).                          (* hash_table_remove *)

#[export] Instance event_eq_dec : EqDecision event.
Proof. solve_decision. Defined.

Abbreviation proc := (M store event).

(** What the code takes from its surroundings: the contents of storage
    that [malloc] has just handed out, the code behind a function pointer,
    and the width of [ipcarg_t]. *)
Class Env := {
  indeterminate_amsg : amsg_t;
  code : Z → Z → ipc_call_t → proc unit;
  ipcarg_bits : Z
}.

Section async.
Context `{Errno} `{Env}.

(** ** Loads and stores *)

(** A pointer other than [NULL] designates the cell the heap holds at its
    address. *)
Definition cell_at (s : store) (p : Z) : option cell :=
  if p =? NULL then None else heap s !! p.

Definition deref (p : Z) : proc cell := λ s,
  match cell_at s p with
  | Some c => ([], Ok c s)
  | None =>
      ([], Fault (if p =? NULL then NullDeref
                  else if bool_decide (p ∈ released s) then UseAfterFree
                  else WildPointer))
  end.

Definition load_amsg (p : Z) : proc amsg_t :=
  c ← deref p;
  match c with
  | Amsg a => mret a
  | Uninit => mret indeterminate_amsg
  | _ => fail WildPointer
  end.

Definition load_msg (p : Z) : proc msg_t :=
  c ← deref p;
  match c with Msg m => mret m | _ => fail WildPointer end.

Definition load_conn (p : Z) : proc connection_t :=
  c ← deref p;
  match c with Conn c => mret c | _ => fail WildPointer end.

Definition load_call (p : Z) : proc ipc_call_t :=
  c ← deref p;
  match c with Call c => mret c | _ => fail WildPointer end.

(** A store of an object of one type goes to storage of that type or to
    storage not yet written. *)
Definition same_type (old new : cell) : bool :=
  match old, new with
  | Uninit, _ => true
  | Amsg _, Amsg _ | Msg _, Msg _ | Conn _, Conn _
  | Call _, Call _ | Word _, Word _ => true
  | _, _ => false
  end.

Definition store_cell (p : Z) (c : cell) : proc unit :=
  old ← deref p;
  if same_type old c then modify (set_heap <[p := c]>) else fail WildPointer.

Definition update_amsg (p : Z) (f : amsg_t → amsg_t) : proc unit :=
  a ← load_amsg p; store_cell p (Amsg (f a)).

Definition update_conn (p : Z) (f : connection_t → connection_t) : proc unit :=
  c ← load_conn p; store_cell p (Conn (f c)).

Definition set_ptid (v : Z) (a : amsg_t) : amsg_t :=
  {| am_ptid := v; am_active := am_active a; am_done := am_done a;
     am_dataptr := am_dataptr a; am_expires := am_expires a;
     am_has_timeout := am_has_timeout a; am_retval := am_retval a |}.

Definition set_active (v : bool) (a : amsg_t) : amsg_t :=
  {| am_ptid := am_ptid a; am_active := v; am_done := am_done a;
     am_dataptr := am_dataptr a; am_expires := am_expires a;
     am_has_timeout := am_has_timeout a; am_retval := am_retval a |}.

Definition set_done (v : bool) (a : amsg_t) : amsg_t :=
  {| am_ptid := am_ptid a; am_active := am_active a; am_done := v;
     am_dataptr := am_dataptr a; am_expires := am_expires a;
     am_has_timeout := am_has_timeout a; am_retval := am_retval a |}.

Definition set_dataptr (v : Z) (a : amsg_t) : amsg_t :=
  {| am_ptid := am_ptid a; am_active := am_active a; am_done := am_done a;
     am_dataptr := v; am_expires := am_expires a;
     am_has_timeout := am_has_timeout a; am_retval := am_retval a |}.

Definition set_expires (v : timeval) (a : amsg_t) : amsg_t :=
  {| am_ptid := am_ptid a; am_active := am_active a; am_done := am_done a;
     am_dataptr := am_dataptr a; am_expires := v;
     am_has_timeout := am_has_timeout a; am_retval := am_retval a |}.

Definition set_has_timeout (v : bool) (a : amsg_t) : amsg_t :=
  {| am_ptid := am_ptid a; am_active := am_active a; am_done := am_done a;
     am_dataptr := am_dataptr a; am_expires := am_expires a;
     am_has_timeout := v; am_retval := am_retval a |}.

Definition set_retval (v : Z) (a : amsg_t) : amsg_t :=
  {| am_ptid := am_ptid a; am_active := am_active a; am_done := am_done a;
     am_dataptr := am_dataptr a; am_expires := am_expires a;
     am_has_timeout := am_has_timeout a; am_retval := v |}.

Definition set_msg_queue (q : list Z) (c : connection_t) : connection_t :=
  {| c_in_phone_hash := c_in_phone_hash c; c_msg_queue := q; c_ptid := c_ptid c;
     c_active := c_active c; c_callid := c_callid c; c_call := c_call c;
     c_cthread := c_cthread c |}.

Definition set_conn_active (v : bool) (c : connection_t) : connection_t :=
  {| c_in_phone_hash := c_in_phone_hash c; c_msg_queue := c_msg_queue c;
     c_ptid := c_ptid c; c_active := v; c_callid := c_callid c;
     c_call := c_call c; c_cthread := c_cthread c |}.

(** ** The library calls *)

(** [malloc]: [NULL] when nothing is left, else storage at an address
    that designates no object yet. *)
Definition malloc : proc Z := λ s,
  match mem_avail s with
  | O => ([], Ok NULL s)
  | S n =>
      let p := fresh ({[NULL]} ∪ dom (heap s)) in
      ([], Ok p (set_heap <[p := Uninit]> (set_mem_avail (λ _, n) s)))
  end.

Definition free (p : Z) : proc unit :=
  emit (EvFree p);;
  modify (set_heap (delete p));;
  modify (set_released (cons p));;
  modify (set_mem_avail S).

Definition ipc_answer_fast (callid retval arg1 arg2 : Z) : proc unit :=
  emit (EvAnswerFast callid retval arg1 arg2).

Definition ipc_call_async_2 (phoneid method arg1 arg2 private : Z) : proc unit :=
  emit (EvCallAsync phoneid method arg1 arg2 private).

Definition psthread_add_ready (ptid : Z) : proc unit := emit (EvAddReady ptid).

Definition psthread_get_id : proc Z := s ← get; mret (self s).

(** [psthread_create] returns the identifier of the new fibril, or zero. *)
Definition psthread_create (arg : Z) : proc Z :=
  s ← get;
  match ptid_supply s with
  | [] => mret 0
  | ptid :: rest => modify (set_ptid_supply (λ _, rest));; mret ptid
  end.

Definition gettimeofday : proc timeval := s ← get; mret (clock s).

(** The conversion of an [int] to the unsigned [ipcarg_t]. *)
Definition ipcarg_of_int (v : Z) : Z := v mod 2 ^ ipcarg_bits.

(** ** The connection table *)

Definition CONN_HASH_TABLE_CHAINS : Z := 32.

Definition conn_hash (key : Z) : Z := (key ≫ 4) `mod` CONN_HASH_TABLE_CHAINS.

Definition conn_compare (key : Z) (item : Z) : proc bool :=
  hs ← load_conn item;
  mret (key =? c_in_phone_hash hs).

Definition conn_remove (item : Z) : proc unit := free item.

(** Modelled from the spec: libadt's hash table ([hash_table_find],
    [hash_table_insert], [hash_table_remove]) is not among the sources.
    "Open-chained hash map, 32 buckets, hash = (key >> 4) mod 32.  Key =
    incoming-phone-hash; unique.  Remove-callback frees the Connection."
    The table maps a bucket index to its chain of items, oldest first; an
    item is a pointer to the [connection_t] it is embedded in. *)
Definition chain (h : gmap Z (list Z)) (i : Z) : list Z := default [] (h !! i).

(** Modelled from the spec: the walk of [hash_table_find] along a chain,
    asking the table's [compare] operation for each item. *)
Fixpoint chain_find (key : Z) (items : list Z) : proc Z :=
  match items with
  | [] => mret NULL
  | item :: rest =>
      b ← conn_compare key item;
      if (b : bool) then mret item else chain_find key rest
  end.

Definition unlink (p : Z) (l : list Z) : list Z := filter (λ q, q ≠ p) l.

(** Modelled from the spec: [hash_table_find], the first item of the
    key's chain that [compare] accepts, or [NULL]. *)
Definition hash_table_find (key : Z) : proc Z :=
  s ← get;
  chain_find key (chain (conn_hash_table s) (conn_hash key)).

(** Modelled from the spec: [hash_table_insert], the item goes to the end
    of the key's chain. *)
Definition hash_table_insert (key item : Z) : proc unit :=
  emit (EvHashInsert key item);;
  modify (set_conn_hash_table
            (λ h, <[conn_hash key := chain h (conn_hash key) ++ [item]]> h)).

(** Modelled from the spec: [hash_table_remove] with every key given; the
    item the key finds is taken out of its chain and handed to the table's
    remove callback, [conn_remove]. *)
Definition hash_table_remove (key : Z) : proc unit :=
  emit (EvHashRemove key);;
  cur ← hash_table_find key;
  if cur =? NULL then mret tt
  else
    modify (set_conn_hash_table
              (λ h, <[conn_hash key := unlink cur (chain h (conn_hash key))]> h));;
    conn_remove cur.

(** ** The connection router *)

Definition route_call (callid : Z) (call : ipc_call_t) : proc Z :=
  let key := in_phone_hash call in
  hlp ← hash_table_find key;
  if hlp =? NULL then mret 0
  else
    let conn := hlp in
    msg ← malloc;
    store_cell msg (Msg {| m_callid := callid; m_call := call |});;
    update_conn conn (λ c, set_msg_queue (c_msg_queue c ++ [msg]) c);;
    c ← load_conn conn;
    (if negb (c_active c)
     then update_conn conn (set_conn_active true);;
          psthread_add_ready (c_ptid c)
     else mret tt);;
    mret 1.

(** [yield] is [psthread_schedule_next_adv(PS_TO_MANAGER)]: what the manager
    and the other fibrils do until this fibril runs again.  The call
    identifier is returned with the call that the source copies to [*call]. *)
Definition async_get_call (yield : proc unit) : proc (Z * ipc_call_t) :=
  s ← get;
  let conn := PS_connection s in
  c ← load_conn conn;
  (if bool_decide (c_msg_queue c = [])
   then update_conn conn (set_conn_active false);; yield
   else mret tt);;
  c ← load_conn conn;
  match c_msg_queue c with
  | [] => fail EmptyList
  | msg :: rest =>
      update_conn conn (set_msg_queue rest);;
      m ← load_msg msg;
      free msg;;
      mret (m_callid m, m_call m)
  end.

Definition client_connection (callid : Z) (call : ipc_call_t) : proc unit :=
  ipc_answer_fast callid ENOENT 0 0.

(** The loop that answers what is left in the queue.  Every turn takes one
    message off the queue, so the length of the queue on entry bounds the
    number of turns. *)
Fixpoint answer_remaining (fuel : nat) (conn : Z) : proc unit :=
  c ← load_conn conn;
  match c_msg_queue c, fuel with
  | [], _ => mret tt
  | msg :: rest, S fuel =>
      update_conn conn (set_msg_queue rest);;
      m ← load_msg msg;
      ipc_answer_fast (m_callid m) EHANGUP 0 0;;
      free msg;;
      answer_remaining fuel conn
  | _ :: _, O => fail OutOfFuel
  end.

(** The handler is given the call by value where the source passes
    [&conn->call]. *)
Definition connection_thread (arg : Z) : proc unit :=
  modify (set_PS_connection arg);;
  s ← get;
  let conn := PS_connection s in
  c ← load_conn conn;
  code (c_cthread c) (c_callid c) (c_call c);;
  c ← load_conn conn;
  let key := c_in_phone_hash c in
  hash_table_remove key;;
  c ← load_conn conn;
  answer_remaining (length (c_msg_queue c)) conn.

Definition async_new_connection (callid : Z) (call : ipc_call_t) (cthread : Z) : proc Z :=
  conn ← malloc;
  if conn =? NULL then ipc_answer_fast callid ENOMEM 0 0;; mret NULL
  else
    ptid ← psthread_create conn;
    store_cell conn
      (Conn {| c_in_phone_hash := IPC_GET_ARG3 call; c_msg_queue := [];
               c_ptid := ptid; c_active := true; c_callid := callid;
               c_call := call; c_cthread := cthread |});;
    if ptid =? 0 then
      free conn;; ipc_answer_fast callid ENOMEM 0 0;; mret NULL
    else
      let key := IPC_GET_ARG3 call in
      hash_table_insert key conn;;
      psthread_add_ready ptid;;
      mret ptid.

(** ** The request/reply correlator *)

(** The body of [reply_received], statement by statement, in the order of
    the source.  [write_barrier] orders the stores for other processors
    and has no counterpart here. *)
Definition reply_received_stmts (private retval data : Z) : list (proc unit) :=
  let msg := private in
  [ update_amsg msg (set_retval (ipcarg_of_int retval));
    (m ← load_amsg msg;
     if negb (am_dataptr m =? NULL)
     then d ← load_call data; store_cell (am_dataptr m) (Call d)
     else mret tt);
    (m ← load_amsg msg;
     if am_has_timeout m then modify (set_timeout_list (unlink msg)) else mret tt);
    update_amsg msg (set_done true);
    (m ← load_amsg msg;
     if negb (am_active m)
     then update_amsg msg (set_active true);; psthread_add_ready (am_ptid m)
     else mret tt) ].

Definition reply_received (private retval data : Z) : proc unit :=
  run_stmts (reply_received_stmts private retval data).

Definition async_send_2 (phoneid method arg1 arg2 dataptr : Z) : proc Z :=
  msg ← malloc;
  update_amsg msg (set_active true);;
  update_amsg msg (set_done false);;
  update_amsg msg (set_dataptr dataptr);;
  ipc_call_async_2 phoneid method arg1 arg2 msg;;
  mret msg.

(** The code at the label [done:] of both wait functions. *)
Definition at_done (msg retval : Z) : proc unit :=
  m ← load_amsg msg;
  (if negb (retval =? NULL) then store_cell retval (Word (am_retval m)) else mret tt);;
  free msg.

Definition async_wait_for (yield : proc unit) (amsgid retval : Z) : proc unit :=
  let msg := amsgid in
  m ← load_amsg msg;
  if am_done m then at_done msg retval
  else
    ptid ← psthread_get_id;
    update_amsg msg (set_ptid ptid);;
    update_amsg msg (set_active false);;
    update_amsg msg (set_has_timeout false);;
    yield;;
    at_done msg retval.

(** [insert_timeout] walks to the first entry that expires later than
    [msg] and links [msg] in before it. *)
Fixpoint insert_before_later (expires : timeval) (msg : Z) (l : list Z) : proc (list Z) :=
  match l with
  | [] => mret [msg]
  | tmp :: rest =>
      cur ← load_amsg tmp;
      if tv_gt (am_expires cur) expires then mret (msg :: tmp :: rest)
      else l' ← insert_before_later expires msg rest; mret (tmp :: l')
  end.

Definition insert_timeout (msg : Z) : proc unit :=
  m ← load_amsg msg;
  s ← get;
  l ← insert_before_later (am_expires m) msg (timeout_list s);
  modify (set_timeout_list (λ _, l)).

Definition async_wait_timeout (yield : proc unit) (amsgid retval timeout : Z) : proc Z :=
  let msg := amsgid in
  m ← load_amsg msg;
  if am_done m then at_done msg retval;; mret 0
  else
    ptid ← psthread_get_id;
    update_amsg msg (set_ptid ptid);;
    update_amsg msg (set_active false);;
    update_amsg msg (set_has_timeout true);;
    now ← gettimeofday;
    update_amsg msg (set_expires now);;
    update_amsg msg (λ a, set_expires (tv_add (am_expires a) timeout) a);;
    insert_timeout msg;;
    yield;;
    m ← load_amsg msg;
    if negb (am_done m) then mret ETIMEOUT
    else at_done msg retval;; mret 0.

(** ** The manager and a connection fibril taking turns

    A schedule lists what happens in one async manager around one
    connection fibril: the manager routes a call, or the fibril asks for
    its next call.  The manager runs only while the fibril is parked, so
    the calls that come in around a request of the fibril are routed
    inside its yield when it has to wait, and once it has its call when it
    does not. *)

Inductive action :=
  | Route (callid : Z) (call : ipc_call_t)
  | GetCall (during : list (Z * ipc_call_t)).

Fixpoint route_all (calls : list (Z * ipc_call_t)) : proc unit :=
  match calls with
  | [] => mret tt
  | (callid, call) :: rest => route_call callid call;; route_all rest
  end.

Definition fibril_get (during : list (Z * ipc_call_t)) : proc (Z * ipc_call_t) :=
  s ← get;
  c ← load_conn (PS_connection s);
  if bool_decide (c_msg_queue c = [])
  then async_get_call (route_all during)
  else r ← async_get_call (mret tt); route_all during;; mret r.

(** Runs a schedule and returns what the fibril was handed, in order. *)
Fixpoint run (acts : list action) : proc (list (Z * ipc_call_t)) :=
  match acts with
  | [] => mret []
  | Route callid call :: rest => route_call callid call;; run rest
  | GetCall during :: rest =>
      r ← fibril_get during; rs ← run rest; mret (r :: rs)
  end.

(** The calls of a schedule, in the order in which they are routed. *)
Definition calls_of (acts : list action) : list (Z * ipc_call_t) :=
  flat_map (λ a, match a with
                 | Route callid call => [(callid, call)]
                 | GetCall during => during
                 end) acts.


End async.

(** ** A small world for concrete runs

    One connection [16] under the key [48], opened by the call [5], with
    the call [7] waiting in its queue as the message [32]; one outstanding
    message [64] whose answer is to go to [80], and the answer [96] that
    the kernel hands to the callback; a word at [112] for a return value.
    Connections are served by [client_connection]. *)

Definition sample_call : ipc_call_t :=
  {| in_phone_hash := 48; method := 1024;
     arg1 := 1; arg2 := 2; arg3 := 0; arg4 := 0; arg5 := 0 |}.

Definition sample_answer : ipc_call_t :=
  {| in_phone_hash := 0; method := 0;
     arg1 := 48879; arg2 := 0; arg3 := 0; arg4 := 0; arg5 := 0 |}.

Definition sample_opening : ipc_call_t :=
  {| in_phone_hash := 0; method := 1;
     arg1 := 0; arg2 := 0; arg3 := 48; arg4 := 0; arg5 := 0 |}.

Definition sample_conn : connection_t :=
  {| c_in_phone_hash := 48; c_msg_queue := [32]; c_ptid := 3; c_active := true;
     c_callid := 5; c_call := sample_opening; c_cthread := 4096 |}.

Definition sample_msg : msg_t := {| m_callid := 7; m_call := sample_call |}.

Definition sample_amsg : amsg_t :=
  {| am_ptid := 0; am_active := true; am_done := false; am_dataptr := 80;
     am_expires := {| tv_sec := 0; tv_usec := 0 |}; am_has_timeout := false;
     am_retval := 0 |}.

Definition sample_env : Env :=
  {| indeterminate_amsg := sample_amsg;
     code := λ _, client_connection (H := sample_errno);
     ipcarg_bits := 64 |}.

Definition sample_store : store :=
  {| heap := {[ 16 := Conn sample_conn; 32 := Msg sample_msg;
                64 := Amsg sample_amsg; 80 := Call sample_call;
                96 := Call sample_answer; 112 := Word 0 ]};
     released := [];
     mem_avail := 4;
     conn_hash_table := {[ 3 := [16] ]};
     timeout_list := [];
     PS_connection := 16;
     self := 3;
     clock := {| tv_sec := 100; tv_usec := 250000 |};
     ptid_supply := [9] |}.

(** The same world with nothing left to allocate. *)
Definition sample_store_full : store := set_mem_avail (λ _, O) sample_store.

(** ** The manager's side: dispatch and the timeout sweep *)

(** [ipc/ipc.h] is not among the sources: the two method codes that
    [handle_call] tells apart are taken as given, with the address of
    [client_connection], which [handle_call] passes on as a function
    pointer. *)
Class Dispatch := {
  IPC_M_INTERRUPT : Z;
  IPC_M_CONNECT_ME_TO : Z;
  client_connection_addr : Z
}.

Definition IPC_GET_METHOD (call : ipc_call_t) : Z := method call.

Definition set_clock (tv : timeval) (s : store) : store :=
  {| heap := heap s; released := released s; mem_avail := mem_avail s;
     conn_hash_table := conn_hash_table s; timeout_list := timeout_list s;
     PS_connection := PS_connection s; self := self s; clock := tv;
     ptid_supply := ptid_supply s |}.

Section manager.
Context `{Errno} `{Env} `{Dispatch}.

(** The [switch] of [handle_call]; the case labels are distinct constants,
    so the cases are tried in the order of the source. *)
Definition handle_call (callid : Z) (call : ipc_call_t) : proc unit :=
  r ← route_call callid call;
  if negb (r =? 0) then mret tt
  else if IPC_GET_METHOD call =? IPC_M_INTERRUPT then mret tt
  else if IPC_GET_METHOD call =? IPC_M_CONNECT_ME_TO then
    async_new_connection callid call client_connection_addr;;
    mret tt
  else ipc_answer_fast callid EHANGUP 0 0.

(** The loop of [handle_expired_timeouts].  [cur] moves on before the
    entry it stood on is unlinked, so at the start of every turn [cur] is
    the head of the list; every turn unlinks it, so the length of the list
    on entry bounds the turns. *)
Fixpoint fire_expired (fuel : nat) (tv : timeval) : proc unit :=
  s ← get;
  match timeout_list s, fuel with
  | [], _ => mret tt
  | cur :: _, S fuel =>
      amsg ← load_amsg cur;
      if tv_gt (am_expires amsg) tv then mret tt
      else
        modify (set_timeout_list (unlink cur));;
        update_amsg cur (set_has_timeout false);;
        amsg ← load_amsg cur;
        (if negb (am_active amsg)
         then update_amsg cur (set_active true);;
              psthread_add_ready (am_ptid amsg)
         else mret tt);;
        fire_expired fuel tv
  | _ :: _, O => fail OutOfFuel
  end.

Definition handle_expired_timeouts : proc unit :=
  tv ← gettimeofday;
  s ← get;
  fire_expired (length (timeout_list s)) tv.

End manager.


(** An assignment of the method codes for the concrete runs; connections
    are served by the code at [4096]. *)
Definition sample_dispatch : Dispatch :=
  {| IPC_M_INTERRUPT := 2; IPC_M_CONNECT_ME_TO := 1;
     client_connection_addr := 4096 |}.


End Async.

(** * UDP associations, [uspace/srv/net/udp/assoc.c] *)

Module Udp.

(** ** Data *)

(** Modelled from the spec: [inet/addr.h] and [inet/endpoint.h], with
    [ip_ver_t], [inet_addr_t], [inet_ep_t] and [inet_ep2_t], are not among
    the sources.  "Endpoint pair.  {local:{addr,port,version},
    remote:{addr,port,version}, local_link}.  Any-address and any-port
    wildcard values are distinguished." *)
Inductive ip_ver_t := ip_any | ip_v4 | ip_v6.

#[export] Instance ip_ver_eq_dec : EqDecision ip_ver_t.
Proof. solve_decision. Defined.

Record inet_addr_t := { version : ip_ver_t; addr : Z }.

Record inet_ep_t := { ep_addr : inet_addr_t; port : Z }.

Record inet_ep2_t := { local_link : Z; local : inet_ep_t; remote : inet_ep_t }.

Definition NULL : Z := 0.

(** [udp_rcv_queue_entry_t]; a message is known by its pointer. *)
Record udp_rcv_queue_entry_t := { rqe_epp : inet_ep2_t; rqe_msg : Z }.

(** [udp_assoc_t].  [rcv_queue] holds the pointers to the queued entries,
    head first; [cb] points to the callbacks.  The name, the two locks'
    own state and the condition variable's are left out: locking is
    recorded in the trace. *)
Record udp_assoc_t := {
  ident : inet_ep2_t;
  rcv_queue : list Z;
  refcnt : Z;
  deleted : bool;
  reset : bool;
  cb : Z;
  cb_arg : Z
}.

Inductive cell :=
  | Assoc (a : udp_assoc_t)
  | Rqe (r : udp_rcv_queue_entry_t).

(** The store: the heap, what [free] has taken back ([free] records the
    pointer and leaves the storage as it is), what is left to allocate,
    and the global [assoc_list], oldest first. *)
Record store := {
  heap : gmap Z cell;
  released : list Z;
  mem_avail : nat;
  assoc_list : list Z
}.

Definition set_heap (f : gmap Z cell → gmap Z cell) (s : store) : store :=
  {| heap := f (heap s); released := released s; mem_avail := mem_avail s;
     assoc_list := assoc_list s |}.

Definition set_released (f : list Z → list Z) (s : store) : store :=
  {| heap := heap s; released := f (released s); mem_avail := mem_avail s;
     assoc_list := assoc_list s |}.

Definition set_mem_avail (f : nat → nat) (s : store) : store :=
  {| heap := heap s; released := released s; mem_avail := f (mem_avail s);
     assoc_list := assoc_list s |}.

Definition set_assoc_list (f : list Z → list Z) (s : store) : store :=
  {| heap := heap s; released := released s; mem_avail := mem_avail s;
     assoc_list := f (assoc_list s) |}.

Inductive lock_t := assoc_list_lock | assoc_lock (assoc : Z).

(** The calls into other modules that the trace records.  [log_msg] and
    the [inet_addr_format] calls that only feed it are left out. *)
Inductive event :=
  | EvLock (l : lock_t)                       (* fibril_mutex_lock *)
  | EvUnlock (l : lock_t)                     (* fibril_mutex_unlock *)
  | EvCondWait (assoc : Z)                    (* fibril_condvar_wait *)
  | EvCondBroadcast (assoc : Z)               (* fibril_condvar_broadcast *)
  | EvAtomicSet (assoc : Z) (v : Z)           (* atomic_set *)
  | EvAtomicInc (assoc : Z)                   (* atomic_inc *)
  | EvAtomicPredec (assoc : Z)                (* atomic_predec *)
  | EvFree (p : Z)                            (* free *)
  | EvMsgDelete (msg : Z)                     (* udp_msg_delete *)
  | EvPduEncode (epp : inet_ep2_t) (msg : Z)  (* udp_pdu_encode *)
  | EvTransmit (pdu : Z)                      (* udp_transmit_pdu *)
  | EvPduDelete (pdu : Z)                     (* udp_pdu_delete *)
  | EvRecvMsg (cb cb_arg : Z) (epp : inet_ep2_t) (msg : Z). (* cb->recv_msg *)

Abbreviation proc := (M store event).

(** What the file takes from the rest of the service: the wildcard port,
    the two predicates on addresses, what encoding and transmitting a PDU
    return, and the code of a receive callback. *)
Class Env := {
  inet_port_any : Z;
  inet_addr_is_any : inet_addr_t → bool;
  inet_addr_compare : inet_addr_t → inet_addr_t → bool;
  pdu_encode_result : inet_ep2_t → Z → Z * Z;
  transmit_result : Z → Z;
  recv_msg_code : Z → Z → inet_ep2_t → Z → proc unit
}.

Section udp.
Context `{Errno} `{Env}.

(** ** Loads, stores and the library calls *)

Definition cell_at (s : store) (p : Z) : option cell :=
  if p =? NULL then None else heap s !! p.

Definition deref (p : Z) : proc cell := λ s,
  match cell_at s p with
  | Some c => ([], Ok c s)
  | None => ([], Fault (if p =? NULL then NullDeref else WildPointer))
  end.

Definition load_assoc (p : Z) : proc udp_assoc_t :=
  c ← deref p;
  match c with Assoc a => mret a | _ => fail WildPointer end.

Definition load_rqe (p : Z) : proc udp_rcv_queue_entry_t :=
  c ← deref p;
  match c with Rqe r => mret r | _ => fail WildPointer end.

Definition update_assoc (p : Z) (f : udp_assoc_t → udp_assoc_t) : proc unit :=
  a ← load_assoc p;
  modify (set_heap <[p := Assoc (f a)]>).

Definition update_rqe (p : Z) (f : udp_rcv_queue_entry_t → udp_rcv_queue_entry_t) :
    proc unit :=
  r ← load_rqe p;
  modify (set_heap <[p := Rqe (f r)]>).

Definition set_ident (v : inet_ep2_t) (a : udp_assoc_t) : udp_assoc_t :=
  {| ident := v; rcv_queue := rcv_queue a; refcnt := refcnt a;
     deleted := deleted a; reset := reset a; cb := cb a; cb_arg := cb_arg a |}.

Definition set_rcv_queue (v : list Z) (a : udp_assoc_t) : udp_assoc_t :=
  {| ident := ident a; rcv_queue := v; refcnt := refcnt a;
     deleted := deleted a; reset := reset a; cb := cb a; cb_arg := cb_arg a |}.

Definition set_refcnt (v : Z) (a : udp_assoc_t) : udp_assoc_t :=
  {| ident := ident a; rcv_queue := rcv_queue a; refcnt := v;
     deleted := deleted a; reset := reset a; cb := cb a; cb_arg := cb_arg a |}.

Definition set_deleted (v : bool) (a : udp_assoc_t) : udp_assoc_t :=
  {| ident := ident a; rcv_queue := rcv_queue a; refcnt := refcnt a;
     deleted := v; reset := reset a; cb := cb a; cb_arg := cb_arg a |}.

Definition set_reset (v : bool) (a : udp_assoc_t) : udp_assoc_t :=
  {| ident := ident a; rcv_queue := rcv_queue a; refcnt := refcnt a;
     deleted := deleted a; reset := v; cb := cb a; cb_arg := cb_arg a |}.

Definition set_cb (v w : Z) (a : udp_assoc_t) : udp_assoc_t :=
  {| ident := ident a; rcv_queue := rcv_queue a; refcnt := refcnt a;
     deleted := deleted a; reset := reset a; cb := v; cb_arg := w |}.

Definition set_local_link (v : Z) (e : inet_ep2_t) : inet_ep2_t :=
  {| local_link := v; local := local e; remote := remote e |}.

Definition set_local (v : inet_ep_t) (e : inet_ep2_t) : inet_ep2_t :=
  {| local_link := local_link e; local := v; remote := remote e |}.

Definition set_remote (v : inet_ep_t) (e : inet_ep2_t) : inet_ep2_t :=
  {| local_link := local_link e; local := local e; remote := v |}.

Definition set_port (v : Z) (e : inet_ep_t) : inet_ep_t :=
  {| ep_addr := ep_addr e; port := v |}.

(** [calloc]: [NULL] when nothing is left, else zeroed storage, here the
    zero value [zero] of the type asked for, at an address that designates
    no object yet. *)
Definition calloc (zero : cell) : proc Z := λ s,
  match mem_avail s with
  | O => ([], Ok NULL s)
  | S n =>
      let p := fresh ({[NULL]} ∪ dom (heap s)) in
      ([], Ok p (set_heap <[p := zero]> (set_mem_avail (λ _, n) s)))
  end.

Definition zero_ep : inet_ep_t :=
  {| ep_addr := {| version := ip_any; addr := 0 |}; port := 0 |}.

Definition zero_ep2 : inet_ep2_t :=
  {| local_link := 0; local := zero_ep; remote := zero_ep |}.

Definition zero_assoc : udp_assoc_t :=
  {| ident := zero_ep2; rcv_queue := []; refcnt := 0; deleted := false;
     reset := false; cb := NULL; cb_arg := NULL |}.

Definition zero_rqe : udp_rcv_queue_entry_t :=
  {| rqe_epp := zero_ep2; rqe_msg := NULL |}.

Definition free (p : Z) : proc unit :=
  emit (EvFree p);;
  modify (set_released (cons p));;
  modify (set_mem_avail S).

Definition fibril_mutex_lock (l : lock_t) : proc unit := emit (EvLock l).
Definition fibril_mutex_unlock (l : lock_t) : proc unit := emit (EvUnlock l).
Definition fibril_condvar_broadcast (assoc : Z) : proc unit :=
  emit (EvCondBroadcast assoc).

Definition atomic_set (assoc : Z) (v : Z) : proc unit :=
  emit (EvAtomicSet assoc v);;
  update_assoc assoc (set_refcnt v).

Definition atomic_inc (assoc : Z) : proc unit :=
  emit (EvAtomicInc assoc);;
  update_assoc assoc (λ a, set_refcnt (refcnt a + 1) a).

(** [atomic_predec] returns the count after the decrement. *)
Definition atomic_predec (assoc : Z) : proc Z :=
  emit (EvAtomicPredec assoc);;
  update_assoc assoc (λ a, set_refcnt (refcnt a - 1) a);;
  a ← load_assoc assoc;
  mret (refcnt a).

Definition udp_msg_delete (msg : Z) : proc unit := emit (EvMsgDelete msg).

(** [udp_pdu_encode] returns its code with the PDU it stores in [*pdu]. *)
Definition udp_pdu_encode (epp : inet_ep2_t) (msg : Z) : proc (Z * Z) :=
  emit (EvPduEncode epp msg);;
  mret (pdu_encode_result epp msg).

Definition udp_transmit_pdu (pdu : Z) : proc Z :=
  emit (EvTransmit pdu);;
  mret (transmit_result pdu).

Definition udp_pdu_delete (pdu : Z) : proc unit := emit (EvPduDelete pdu).

(** ** The functions of the file *)

(** [epp] is [None] for a [NULL] endpoint pair. *)
Definition udp_assoc_new (epp : option inet_ep2_t) (cb cb_arg : Z) : proc Z :=
  assoc ← calloc (Assoc zero_assoc);
  if assoc =? NULL then mret NULL
  else
    atomic_set assoc 1;;
    update_assoc assoc (set_rcv_queue []);;
    match epp with
    | Some e => update_assoc assoc (set_ident e)
    | None => mret tt
    end;;
    update_assoc assoc (set_cb cb cb_arg);;
    mret assoc.

(** The loop of [udp_assoc_free]; every turn takes one entry off the
    queue, so the length of the queue on entry bounds the turns. *)
Fixpoint flush_rcv_queue (fuel : nat) (assoc : Z) : proc unit :=
  a ← load_assoc assoc;
  match rcv_queue a, fuel with
  | [], _ => mret tt
  | link :: rest, S fuel =>
      update_assoc assoc (set_rcv_queue rest);;
      rqe ← load_rqe link;
      udp_msg_delete (rqe_msg rqe);;
      free link;;
      flush_rcv_queue fuel assoc
  | _ :: _, O => fail OutOfFuel
  end.

Definition udp_assoc_free (assoc : Z) : proc unit :=
  a ← load_assoc assoc;
  flush_rcv_queue (length (rcv_queue a)) assoc;;
  free assoc.

Definition udp_assoc_addref (assoc : Z) : proc unit := atomic_inc assoc.

Definition udp_assoc_delref (assoc : Z) : proc unit :=
  n ← atomic_predec assoc;
  if n =? 0 then udp_assoc_free assoc else mret tt.

Definition udp_assoc_delete (assoc : Z) : proc unit :=
  a ← load_assoc assoc;
  if deleted a then fail AssertFailed
  else
    udp_assoc_delref assoc;;
    update_assoc assoc (set_deleted true).

Definition udp_assoc_add (assoc : Z) : proc unit :=
  udp_assoc_addref assoc;;
  fibril_mutex_lock assoc_list_lock;;
  modify (set_assoc_list (λ l, l ++ [assoc]));;
  fibril_mutex_unlock assoc_list_lock.

Definition udp_assoc_remove (assoc : Z) : proc unit :=
  fibril_mutex_lock assoc_list_lock;;
  modify (set_assoc_list (filter (λ q, q ≠ assoc)));;
  fibril_mutex_unlock assoc_list_lock;;
  udp_assoc_delref assoc.

Definition udp_assoc_set_iplink (assoc iplink : Z) : proc unit :=
  fibril_mutex_lock (assoc_lock assoc);;
  update_assoc assoc (λ a, set_ident (set_local_link iplink (ident a)) a);;
  fibril_mutex_unlock (assoc_lock assoc).

Definition udp_assoc_set_remote (assoc : Z) (remote : inet_ep_t) : proc unit :=
  fibril_mutex_lock (assoc_lock assoc);;
  update_assoc assoc (λ a, set_ident (set_remote remote (ident a)) a);;
  fibril_mutex_unlock (assoc_lock assoc).

Definition udp_assoc_set_local (assoc : Z) (local : inet_ep_t) : proc unit :=
  fibril_mutex_lock (assoc_lock assoc);;
  update_assoc assoc (λ a, set_ident (set_local local (ident a)) a);;
  fibril_mutex_unlock (assoc_lock assoc).

Definition udp_assoc_set_local_port (assoc lport : Z) : proc unit :=
  fibril_mutex_lock (assoc_lock assoc);;
  update_assoc assoc
    (λ a, set_ident (set_local (set_port lport (local (ident a))) (ident a)) a);;
  fibril_mutex_unlock (assoc_lock assoc).

(** [remote] is [None] for a [NULL] override.  [epp] is the local copy of
    the identity that the function works on. *)
Definition udp_assoc_send (assoc : Z) (remote : option inet_ep_t) (msg : Z) : proc Z :=
  a ← load_assoc assoc;
  let epp := ident a in
  let epp := match remote with
             | Some r => set_remote r epp
             | None => epp
             end in
  if inet_addr_is_any (ep_addr (Udp.remote epp))
     || (port (Udp.remote epp) =? inet_port_any)
  then mret EINVAL
  else if negb (bool_decide (version (ep_addr (Udp.remote epp))
                             = version (ep_addr (local epp))))
  then mret EINVAL
  else
    '(rc, pdu) ← udp_pdu_encode epp msg;
    if negb (rc =? EOK) then mret ENOMEM
    else
      rc ← udp_transmit_pdu pdu;
      udp_pdu_delete pdu;;
      if negb (rc =? EOK) then mret EIO
      else mret EOK.

(** What [udp_assoc_recv] comes to: still waiting on the condition
    variable, or back with a code and, on [EOK], what it stores in [*msg]
    and [*remote]. *)
Inductive recv_result :=
  | Waiting
  | Returned (rc : Z) (out : option (Z * inet_ep_t)).

(** Whether the events [t] hold a broadcast of the condition variable of
    [assoc]. *)
Definition broadcasts (assoc : Z) (t : list event) : bool :=
  existsb (λ e, match e with
                | EvCondBroadcast a => a =? assoc
                | _ => false
                end) t.

(** What the other fibrils do while this one sleeps on the condition
    variable of [assoc]: [others] runs, and the result tells whether it
    broadcast the condition variable. *)
Definition woken_by (assoc : Z) (others : proc unit) : proc bool := λ s,
  match others s with
  | (t, Ok _ s') => (t, Ok (broadcasts assoc t) s')
  | (t, Fault f) => (t, Fault f)
  end.

(** The loop of [udp_assoc_recv] with its [fibril_condvar_wait].  [sched]
    lists, slice by slice, what the other fibrils do while this one does
    not run.  A fibril that finds nothing queued and no reset goes to
    sleep on the condition variable; [asleep] it stays through every
    slice that does not broadcast the condition variable, and after the
    first slice that does it tests the condition of the loop again.  The
    result is [false] when the fibril still waits at the end of [sched]. *)
Fixpoint wait_for_message (asleep : bool) (sched : list (proc unit)) (assoc : Z) :
    proc bool :=
  if asleep then
    match sched with
    | [] => mret false
    | others :: sched =>
        woken ← woken_by assoc others;
        wait_for_message (negb woken) sched assoc
    end
  else
    a ← load_assoc assoc;
    if bool_decide (rcv_queue a = []) && negb (reset a) then
      match sched with
      | [] => mret false
      | others :: sched =>
          emit (EvCondWait assoc);;
          woken ← woken_by assoc others;
          wait_for_message (negb woken) sched assoc
      end
    else mret true.

Definition udp_assoc_recv (sched : list (proc unit)) (assoc : Z) : proc recv_result :=
  fibril_mutex_lock (assoc_lock assoc);;
  woken ← wait_for_message false sched assoc;
  if negb woken then mret Waiting
  else
    a ← load_assoc assoc;
    if reset a then
      fibril_mutex_unlock (assoc_lock assoc);;
      mret (Returned ENXIO None)
    else
      match rcv_queue a with
      | [] => fail EmptyList
      | link :: rest =>
          update_assoc assoc (set_rcv_queue rest);;
          fibril_mutex_unlock (assoc_lock assoc);;
          rqe ← load_rqe link;
          free link;;
          mret (Returned EOK (Some (rqe_msg rqe, remote (rqe_epp rqe))))
      end.

Definition udp_assoc_reset (assoc : Z) : proc unit :=
  fibril_mutex_lock (assoc_lock assoc);;
  update_assoc assoc (set_reset true);;
  fibril_condvar_broadcast assoc;;
  fibril_mutex_unlock (assoc_lock assoc).

Definition udp_assoc_queue_msg (assoc : Z) (epp : inet_ep2_t) (msg : Z) : proc Z :=
  rqe ← calloc (Rqe zero_rqe);
  if rqe =? NULL then mret ENOMEM
  else
    update_rqe rqe (λ r, {| rqe_epp := epp; rqe_msg := rqe_msg r |});;
    update_rqe rqe (λ r, {| rqe_epp := rqe_epp r; rqe_msg := msg |});;
    fibril_mutex_lock (assoc_lock assoc);;
    update_assoc assoc (λ a, set_rcv_queue (rcv_queue a ++ [rqe]) a);;
    fibril_mutex_unlock (assoc_lock assoc);;
    fibril_condvar_broadcast assoc;;
    mret EOK.

Definition udp_ep_match (ep patt : inet_ep_t) : bool :=
  if negb (inet_addr_is_any (ep_addr patt))
     && negb (inet_addr_compare (ep_addr patt) (ep_addr ep))
  then false
  else if negb (port patt =? inet_port_any) && negb (port patt =? port ep)
  then false
  else true.

Definition udp_ep2_match (epp pattern : inet_ep2_t) : bool :=
  if negb (udp_ep_match (local epp) (local pattern)) then false
  else if negb (udp_ep_match (remote epp) (remote pattern)) then false
  else true.

(** The [list_foreach] of [udp_assoc_find_ref]. *)
Fixpoint find_in (epp : inet_ep2_t) (l : list Z) : proc Z :=
  match l with
  | [] => mret NULL
  | assoc :: rest =>
      a ← load_assoc assoc;
      let aepp := ident a in
      if port (local aepp) =? inet_port_any then find_in epp rest
      else if udp_ep2_match epp aepp then
        udp_assoc_addref assoc;;
        fibril_mutex_unlock assoc_list_lock;;
        mret assoc
      else find_in epp rest
  end.

Definition udp_assoc_find_ref (epp : inet_ep2_t) : proc Z :=
  fibril_mutex_lock assoc_list_lock;;
  s ← get;
  assoc ← find_in epp (assoc_list s);
  if assoc =? NULL then fibril_mutex_unlock assoc_list_lock;; mret NULL
  else mret assoc.

Definition udp_assoc_received (repp : inet_ep2_t) (msg : Z) : proc unit :=
  assoc ← udp_assoc_find_ref repp;
  if assoc =? NULL then udp_msg_delete msg
  else
    a ← load_assoc assoc;
    emit (EvRecvMsg (cb a) (cb_arg a) repp msg);;
    recv_msg_code (cb a) (cb_arg a) repp msg;;
    udp_assoc_delref assoc.

(** ** What the other fibrils may do to associations

    The operations of the file that another fibril can run while one
    waits in [udp_assoc_recv]. *)
Inductive assoc_op :=
  | OpSetIplink (assoc iplink : Z)
  | OpSetRemote (assoc : Z) (remote : inet_ep_t)
  | OpSetLocal (assoc : Z) (local : inet_ep_t)
  | OpSetLocalPort (assoc lport : Z)
  | OpSend (assoc : Z) (remote : option inet_ep_t) (msg : Z)
  | OpQueueMsg (assoc : Z) (epp : inet_ep2_t) (msg : Z)
  | OpReset (assoc : Z)
  | OpAddref (assoc : Z)
  | OpDelref (assoc : Z)
  | OpDelete (assoc : Z)
  | OpAdd (assoc : Z)
  | OpRemove (assoc : Z).

Definition run_op (op : assoc_op) : proc unit :=
  match op with
  | OpSetIplink assoc iplink => udp_assoc_set_iplink assoc iplink
  | OpSetRemote assoc remote => udp_assoc_set_remote assoc remote
  | OpSetLocal assoc local => udp_assoc_set_local assoc local
  | OpSetLocalPort assoc lport => udp_assoc_set_local_port assoc lport
  | OpSend assoc remote msg => udp_assoc_send assoc remote msg;; mret tt
  | OpQueueMsg assoc epp msg => udp_assoc_queue_msg assoc epp msg;; mret tt
  | OpReset assoc => udp_assoc_reset assoc
  | OpAddref assoc => udp_assoc_addref assoc
  | OpDelref assoc => udp_assoc_delref assoc
  | OpDelete assoc => udp_assoc_delete assoc
  | OpAdd assoc => udp_assoc_add assoc
  | OpRemove assoc => udp_assoc_remove assoc
  end.

Fixpoint run_ops (ops : list assoc_op) : proc unit :=
  match ops with
  | [] => mret tt
  | op :: ops => run_op op;; run_ops ops
  end.

End udp.

(** ** A small world for concrete runs

    One association [16], bound to 10.0.0.1:53 with no remote endpoint
    set, held by its user and by the association list; a datagram from
    8.8.8.8:4000 to 10.0.0.1:53.  The wildcard port is zero, the wildcard
    addresses are those of version [ip_any] or with no bit set; encoding
    and transmitting succeed; the receive callback does nothing. *)

Definition sample_udp_env : Env :=
  {| inet_port_any := 0;
     inet_addr_is_any := λ a, bool_decide (version a = ip_any) || (addr a =? 0);
     inet_addr_compare :=
       λ a b, bool_decide (version a = version b) && (addr a =? addr b);
     pdu_encode_result := λ _ msg, (0, msg + 1);
     transmit_result := λ _, 0;
     recv_msg_code := λ _ _ _ _, mret tt |}.

Definition sample_local : inet_ep_t :=
  {| ep_addr := {| version := ip_v4; addr := 167772161 |}; port := 53 |}.

Definition sample_peer : inet_ep_t :=
  {| ep_addr := {| version := ip_v4; addr := 134744072 |}; port := 4000 |}.

Definition sample_assoc : udp_assoc_t :=
  {| ident := {| local_link := 0; local := sample_local; remote := zero_ep |};
     rcv_queue := []; refcnt := 2; deleted := false; reset := false;
     cb := 4096; cb_arg := 7 |}.

Definition sample_repp : inet_ep2_t :=
  {| local_link := 0; local := sample_local; remote := sample_peer |}.

Definition sample_udp_store : store :=
  {| heap := {[ 16 := Assoc sample_assoc ]};
     released := [];
     mem_avail := 4;
     assoc_list := [16] |}.


End Udp.


(** * Properties *)

(** ** Running computations *)

Section exec.
Context {S E : Type}.

(** [exec m s t a s']: from [s], [m] makes the calls [t] and returns [a]
    in [s']. *)
Definition exec {A} (m : M S E A) (s : S) (t : list E) (a : A) (s' : S) : Prop :=
  m s = (t, Ok a s').

Definition faults {A} (m : M S E A) (s : S) (t : list E) (f : fault) : Prop :=
  m s = (t, Fault f).

Lemma exec_ret {A} (a : A) (s : S) : exec (mret a) s [] a s.
Proof. reflexivity. Qed.

Lemma exec_bind {A B} (m : M S E A) (k : A → M S E B) s t1 a s1 t2 b s2 :
  exec m s t1 a s1 → exec (k a) s1 t2 b s2 → exec (m ≫= k) s (t1 ++ t2) b s2.
Proof.
  unfold exec, mbind, M_bind. intros -> Hk. rewrite Hk. reflexivity.
Qed.

Lemma faults_bind_l {A B} (m : M S E A) (k : A → M S E B) s t f :
  faults m s t f → faults (m ≫= k) s t f.
Proof. unfold faults, mbind, M_bind. intros ->. reflexivity. Qed.

Lemma faults_bind_r {A B} (m : M S E A) (k : A → M S E B) s t1 a s1 t2 f :
  exec m s t1 a s1 → faults (k a) s1 t2 f → faults (m ≫= k) s (t1 ++ t2) f.
Proof.
  unfold exec, faults, mbind, M_bind. intros -> Hk. rewrite Hk. reflexivity.
Qed.

Lemma exec_bind_inv {A B} (m : M S E A) (k : A → M S E B) s t b s2 :
  exec (m ≫= k) s t b s2 →
  ∃ t1 a s1 t2, exec m s t1 a s1 ∧ exec (k a) s1 t2 b s2 ∧ t = t1 ++ t2.
Proof.
  unfold exec, mbind, M_bind. destruct (m s) as [t1 [a s1|f]]; [|discriminate].
  destruct (k a s1) as [t2 r] eqn:Hk. intros [= <- ->].
  exists t1, a, s1, t2. auto.
Qed.

Lemma exec_get s : exec (get : M S E S) s [] s s.
Proof. reflexivity. Qed.

Lemma exec_modify (f : S → S) s : exec (modify f : M S E unit) s [] tt (f s).
Proof. reflexivity. Qed.

Lemma exec_emit (e : E) (s : S) : exec (emit e : M S E unit) s [e] tt s.
Proof. reflexivity. Qed.

Lemma exec_bind_eq {A B} (m : M S E A) (k : A → M S E B) s t t1 a s1 t2 b s2 :
  exec m s t1 a s1 → exec (k a) s1 t2 b s2 → t = t1 ++ t2 →
  exec (m ≫= k) s t b s2.
Proof. intros Hm Hk ->. by eapply exec_bind. Qed.

Lemma faults_bind_eq {A B} (m : M S E A) (k : A → M S E B) s t t1 a s1 t2 f :
  exec m s t1 a s1 → faults (k a) s1 t2 f → t = t1 ++ t2 →
  faults (m ≫= k) s t f.
Proof. intros Hm Hk ->. by eapply faults_bind_r. Qed.


Lemma exec_det {A} (m : M S E A) s t a s' t' a' s'' :
  exec m s t a s' → exec m s t' a' s'' → t = t' ∧ a = a' ∧ s' = s''.
Proof. unfold exec. intros -> [= -> -> ->]. done. Qed.

Lemma exec_not_faults {A} (m : M S E A) s t a s' t' f :
  exec m s t a s' → faults m s t' f → False.
Proof. unfold exec, faults. intros -> [=]. Qed.

Lemma exec_ret_inv {A} (a b : A) (s s' : S) t :
  exec (mret a) s t b s' → t = [] ∧ b = a ∧ s' = s.
Proof. intros [= <- <- <-]. done. Qed.

Lemma exec_run_stmts_cons (c : M S E unit) l s t s' :
  exec (run_stmts (c :: l)) s t tt s' →
  ∃ t1 s1 t2, exec c s t1 tt s1 ∧ exec (run_stmts l) s1 t2 tt s' ∧ t = t1 ++ t2.
Proof.
  cbn [run_stmts]. intros Hex.
  apply exec_bind_inv in Hex as (t1 & [] & s1 & t2 & H1 & H2 & ->). eauto 6.
Qed.


Lemma trace_bind {A B} (m : M S E A) (k : A → M S E B) s t a s' :
  exec m s t a s' → trace_of ((m ≫= k) s) = t ++ trace_of (k a s').
Proof.
  unfold exec, mbind, M_bind. intros ->. by destruct (k a s').
Qed.


End exec.

(** Steps through a sequence: the first computation runs as the hints say,
    the rest is left as the goal, and the equation between the traces is
    put off until both are known. *)
Create HintDb heap.

Ltac step :=
  eapply exec_bind_eq; [ solve [eauto with heap] | cbn beta iota zeta | ].

Ltac traces := first [ reflexivity | rewrite ?app_nil_r, <- ?app_assoc; reflexivity ].

Ltac as_exec :=
  match goal with
  | |- ?m ?s = (?t, Ok ?a ?s') => change (exec m s t a s')
  | |- ?m ?s = (?t, Fault ?f) => change (faults m s t f)
  end.

Module AsyncProps.
Import Async.

Section props.
Context `{Errno} `{Env}.

(** *** Loads, stores and the library calls *)

Lemma cell_at_not_null s p c : cell_at s p = Some c → p ≠ NULL.
Proof. unfold cell_at. destruct (Z.eqb_spec p NULL); [discriminate|done]. Qed.

Lemma cell_at_heap s p c : cell_at s p = Some c → heap s !! p = Some c.
Proof. unfold cell_at. destruct (p =? NULL); [discriminate|done]. Qed.

Lemma cell_at_insert_eq s p c :
  p ≠ NULL → cell_at (set_heap <[p := c]> s) p = Some c.
Proof.
  intros Hp. unfold cell_at. destruct (Z.eqb_spec p NULL); [done|].
  cbn. apply lookup_insert_eq.
Qed.

Lemma cell_at_insert_ne s p q c :
  p ≠ q → cell_at (set_heap <[p := c]> s) q = cell_at s q.
Proof.
  intros Hp. unfold cell_at. destruct (q =? NULL); [done|].
  cbn. by apply lookup_insert_ne.
Qed.

Lemma exec_deref p c s : cell_at s p = Some c → exec (deref p) s [] c s.
Proof. intros Hc. unfold exec, deref. by rewrite Hc. Qed.

Lemma faults_deref_null s : faults (deref NULL) s [] NullDeref.
Proof. reflexivity. Qed.

Lemma exec_load_amsg p a s :
  cell_at s p = Some (Amsg a) → exec (load_amsg p) s [] a s.
Proof.
  intros Ha. unfold load_amsg.
  eapply (exec_bind _ _ _ []); [by apply exec_deref|]. apply exec_ret.
Qed.

Lemma exec_load_msg p m s :
  cell_at s p = Some (Msg m) → exec (load_msg p) s [] m s.
Proof.
  intros Ha. unfold load_msg.
  eapply (exec_bind _ _ _ []); [by apply exec_deref|]. apply exec_ret.
Qed.

Lemma exec_load_conn p c s :
  cell_at s p = Some (Conn c) → exec (load_conn p) s [] c s.
Proof.
  intros Ha. unfold load_conn.
  eapply (exec_bind _ _ _ []); [by apply exec_deref|]. apply exec_ret.
Qed.

Lemma exec_load_call p c s :
  cell_at s p = Some (Call c) → exec (load_call p) s [] c s.
Proof.
  intros Ha. unfold load_call.
  eapply (exec_bind _ _ _ []); [by apply exec_deref|]. apply exec_ret.
Qed.

Lemma exec_store_cell p old c s :
  cell_at s p = Some old → same_type old c = true →
  exec (store_cell p c) s [] tt (set_heap <[p := c]> s).
Proof.
  intros Hold Hty. unfold store_cell.
  eapply (exec_bind _ _ _ []); [by apply exec_deref|].
  rewrite Hty. apply exec_modify.
Qed.

Lemma exec_update_amsg p f a s :
  cell_at s p = Some (Amsg a) →
  exec (update_amsg p f) s [] tt (set_heap <[p := Amsg (f a)]> s).
Proof.
  intros Ha. unfold update_amsg.
  eapply (exec_bind _ _ _ []); [by apply exec_load_amsg|].
  by eapply exec_store_cell.
Qed.

Lemma exec_update_conn p f c s :
  cell_at s p = Some (Conn c) →
  exec (update_conn p f) s [] tt (set_heap <[p := Conn (f c)]> s).
Proof.
  intros Ha. unfold update_conn.
  eapply (exec_bind _ _ _ []); [by apply exec_load_conn|].
  by eapply exec_store_cell.
Qed.

(** What [free] leaves behind. *)
Definition freed (p : Z) (s : store) : store :=
  set_mem_avail S (set_released (cons p) (set_heap (delete p) s)).

Lemma exec_free p s : exec (free p) s [EvFree p] tt (freed p s).
Proof. reflexivity. Qed.

Lemma cell_at_freed p s q : q ≠ p → cell_at (freed p s) q = cell_at s q.
Proof.
  intros Hq. unfold cell_at, freed. cbn. destruct (q =? NULL); [done|].
  by rewrite lookup_delete_ne.
Qed.

Lemma cell_at_freed_gone p s : cell_at (freed p s) p = None.
Proof.
  unfold cell_at, freed. cbn. destruct (p =? NULL); [done|].
  by rewrite lookup_delete_eq.
Qed.

(** Two pointers that designate cells of different types differ. *)
Lemma cell_at_ne s p q c d :
  cell_at s p = Some c → cell_at s q = Some d → c ≠ d → p ≠ q.
Proof. intros Hp Hq Hne ->. congruence. Qed.

(** *** Time values *)

(** A result that fits a [long] is left as it is. *)
Lemma long_id (z : Z) : in_long z → long z = z.
Proof.
  unfold in_long, long. intros Hz.
  rewrite Z.mod_small; lia.
Qed.

Lemma long_in_long (z : Z) : in_long (long z).
Proof.
  unfold in_long, long.
  pose proof (Z.mod_pos_bound (z + 2 ^ 63) (2 ^ 64)). lia.
Qed.

Lemma tv_add_usec_le (tv : timeval) (u : Z) :
  normalized tv → 0 ≤ u → 0 ≤ tv_usec (tv_add tv u) ≤ 1000000.
Proof.
  unfold normalized, tv_add. destruct tv as [sec usec]. intros Htv Hu.
  assert (0 ≤ Z.rem u 1000000 < 1000000) by (apply Z.rem_bound_pos; lia).
  cbv [tv_usec tv_sec] in *.
  rewrite (long_id (usec + Z.rem u 1000000)) by (unfold in_long; lia).
  destruct (Z.ltb_spec 1000000 (usec + Z.rem u 1000000)); cbv [tv_usec].
  - rewrite long_id by (unfold in_long; lia). lia.
  - lia.
Qed.

(** C6.  [tv_add] does not keep time values normalized: half a second added
    to half a second leaves [tv_usec] at 1000000, since the carry is taken
    only when [tv_usec] is greater than 1000000. *)
Theorem tv_add_leaves_full_second :
  let tv := {| tv_sec := 0; tv_usec := 500000 |} in
  normalized tv ∧ 0 ≤ 500000 ∧
  tv_add tv 500000 = {| tv_sec := 0; tv_usec := 1000000 |} ∧
  ¬ normalized (tv_add tv 500000).
Proof.
  cbv zeta. split; [|split; [|split]].
  - unfold normalized. cbn. lia.
  - lia.
  - reflexivity.
  - change (¬ (0 ≤ 1000000 < 1000000)). lia.
Qed.


(** *** Waiting for a reply *)

(** The out-pointer of a wait function is [NULL] or designates a word. *)
Definition out_ok (s : store) (retval : Z) : Prop :=
  retval ≠ NULL → ∃ w, cell_at s retval = Some (Word w).

Definition stored_retval (retval v : Z) (s : store) : store :=
  if retval =? NULL then s else set_heap <[retval := Word v]> s.

(** Every entry of the timeout list is an outstanding message. *)
Definition wf_timeouts (s : store) : Prop :=
  ∀ p, p ∈ timeout_list s → ∃ a, cell_at s p = Some (Amsg a).

Lemma exec_at_done msg retval m s :
  cell_at s msg = Some (Amsg m) → out_ok s retval →
  exec (at_done msg retval) s [EvFree msg] tt
       (freed msg (stored_retval retval (am_retval m) s)).
Proof.
  intros Hm Hout. unfold at_done, stored_retval.
  eapply (exec_bind _ _ _ []); [by apply exec_load_amsg|].
  destruct (Z.eqb_spec retval NULL) as [->|Hne]; cbn [negb].
  - eapply (exec_bind _ _ _ []); [apply exec_ret|]. apply exec_free.
  - destruct (Hout Hne) as [w Hw].
    eapply (exec_bind _ _ _ []); [by eapply exec_store_cell|]. apply exec_free.
Qed.

Lemma exec_insert_before_later expires msg l s :
  (∀ p, p ∈ l → ∃ a, cell_at s p = Some (Amsg a)) →
  ∃ l', exec (insert_before_later expires msg l) s [] l' s ∧ msg ∈ l'.
Proof.
  induction l as [|tmp rest IH]; intros Hwf; cbn [insert_before_later].
  - exists [msg]. split; [apply exec_ret | set_solver].
  - destruct (Hwf tmp) as [cur Hcur]; [set_solver|].
    destruct IH as (l' & Hl' & Hin); [intros p Hp; apply Hwf; set_solver|].
    destruct (tv_gt (am_expires cur) expires) eqn:Hgt.
    + exists (msg :: tmp :: rest). split; [|set_solver].
      eapply (exec_bind _ _ _ []); [by apply exec_load_amsg|].
      rewrite Hgt. apply exec_ret.
    + exists (tmp :: l'). split; [|set_solver].
      eapply (exec_bind _ _ _ []); [by apply exec_load_amsg|].
      rewrite Hgt.
      eapply (exec_bind _ _ _ []); [exact Hl'|]. apply exec_ret.
Qed.


Lemma exec_psthread_get_id s : exec psthread_get_id s [] (self s) s.
Proof. reflexivity. Qed.

Lemma exec_gettimeofday s : exec gettimeofday s [] (clock s) s.
Proof. reflexivity. Qed.

(** The timeout list as [insert_timeout] leaves it. *)
Definition timeouts_after (msg : Z) (s : store) : list Z :=
  match insert_timeout msg s with
  | (_, Ok _ s') => timeout_list s'
  | (_, Fault _) => timeout_list s
  end.

Lemma exec_insert_timeout msg m s :
  cell_at s msg = Some (Amsg m) → wf_timeouts s →
  exec (insert_timeout msg) s [] tt
       (set_timeout_list (λ _, timeouts_after msg s) s)
  ∧ msg ∈ timeouts_after msg s.
Proof.
  intros Hm Hwf.
  destruct (exec_insert_before_later (am_expires m) msg (timeout_list s) s)
    as (l & Hl & Hin); [exact Hwf|].
  assert (Hex : exec (insert_timeout msg) s [] tt (set_timeout_list (λ _, l) s)).
  { unfold insert_timeout.
    eapply exec_bind_eq; [by apply exec_load_amsg| |traces].
    eapply exec_bind_eq; [apply exec_get| |traces].
    eapply exec_bind_eq; [exact Hl| |traces].
    apply exec_modify. }
  assert (Hl' : timeouts_after msg s = l).
  { unfold timeouts_after. unfold exec in Hex. by rewrite Hex. }
  rewrite Hl'. done.
Qed.

Lemma wf_timeouts_update s p a :
  p ≠ NULL → wf_timeouts s → wf_timeouts (set_heap <[p := Amsg a]> s).
Proof.
  intros Hp Hwf q Hq. destruct (decide (p = q)) as [<-|Hne].
  - exists a. by apply cell_at_insert_eq.
  - rewrite cell_at_insert_ne by done. by apply Hwf.
Qed.

#[local] Hint Resolve exec_psthread_get_id exec_gettimeofday : heap.
#[local] Hint Resolve exec_ret exec_get exec_modify exec_emit exec_load_amsg
  exec_load_msg exec_load_conn exec_load_call exec_update_amsg exec_update_conn
  exec_free exec_at_done cell_at_insert_eq cell_at_not_null : heap.

(** C3.  [async_wait_timeout] on an outstanding message.  If the reply is
    there on entry, the function stores the return value through a non-null
    out-pointer, frees the message and returns 0, whatever a yield would
    do.  Otherwise it parks the fibril with a timeout and yields; if the
    reply is still missing on resume it returns [ETIMEOUT] and leaves the
    store as the yield left it, the message not freed; if the reply has
    come it stores the return value, frees the message and returns 0. *)
Theorem async_wait_timeout_outcomes (amsgid retval timeout : Z) (s : store) (m : amsg_t) :
  cell_at s amsgid = Some (Amsg m) →
  (am_done m = true → out_ok s retval →
   ∀ yield,
     async_wait_timeout yield amsgid retval timeout s =
       ([EvFree amsgid],
        Ok 0 (freed amsgid (stored_retval retval (am_retval m) s))))
  ∧ (am_done m = false → wf_timeouts s →
     ∃ s1 m1,
       (cell_at s1 amsgid = Some (Amsg m1) ∧
        am_done m1 = false ∧ am_active m1 = false ∧ am_has_timeout m1 = true ∧
        am_expires m1 = tv_add (clock s) timeout ∧
        amsgid ∈ timeout_list s1 ∧ released s1 = released s) ∧
       ∀ yield t s2 m2,
         yield s1 = (t, Ok tt s2) →
         cell_at s2 amsgid = Some (Amsg m2) →
         (am_done m2 = false →
          async_wait_timeout yield amsgid retval timeout s = (t, Ok ETIMEOUT s2))
         ∧ (am_done m2 = true → out_ok s2 retval →
            async_wait_timeout yield amsgid retval timeout s =
              (t ++ [EvFree amsgid],
               Ok 0 (freed amsgid (stored_retval retval (am_retval m2) s2))))).
Proof.
  intros Hm. pose proof (cell_at_not_null _ _ _ Hm) as Hnn. split.
  - intros Hd Hout yield. unfold async_wait_timeout.
    as_exec. step. rewrite Hd. step. apply exec_ret. all: traces.
  - intros Hd Hwf.
    eexists _, (set_expires (tv_add (clock s) timeout)
                  (set_expires (clock s)
                     (set_has_timeout true
                        (set_active false (set_ptid (self s) m))))).
    split; [shelve|].
    intros yield t s2 m2 Hy Hm2.
    assert (Hpark : ∀ r s3 t3,
      exec (m ← load_amsg amsgid;
            if negb (am_done m) then mret ETIMEOUT
            else at_done amsgid retval;; mret 0) s2 t3 r s3 →
      async_wait_timeout yield amsgid retval timeout s = (t ++ t3, Ok r s3)).
    { intros r s3 t3 Hrest. as_exec. unfold async_wait_timeout.
      step. rewrite Hd.
      step. step. step. step. step. step. step.
      eapply exec_bind_eq;
        [eapply exec_insert_timeout;
         eauto 10 using wf_timeouts_update with heap| |].
      eapply exec_bind_eq; [exact Hy|exact Hrest|]. all: traces. }
    split.
    + intros Hd2. rewrite <- (app_nil_r t). apply Hpark.
      step. rewrite Hd2. apply exec_ret. traces.
    + intros Hd2 Hout. apply Hpark.
      step. rewrite Hd2. step. apply exec_ret. all: traces.
      Unshelve.
      split_and!; try reflexivity.
      * apply (cell_at_insert_eq _ amsgid). exact Hnn.
      * exact Hd.
      * cbn. eapply exec_insert_timeout;
          eauto 10 using wf_timeouts_update with heap.
Qed.




(** *** The reply callback *)

Lemma exec_store_cell_inv p c s t s' :
  exec (store_cell p c) s t tt s' →
  t = [] ∧ s' = set_heap <[p := c]> s ∧
  ∃ old, cell_at s p = Some old ∧ same_type old c = true.
Proof.
  unfold store_cell, exec, mbind, M_bind, deref.
  destruct (cell_at s p) as [old|] eqn:Hold; [|discriminate].
  destruct (same_type old c) eqn:Hty; [|discriminate].
  intros [= <- <-]. eauto.
Qed.

Lemma same_type_Call_inv old d : same_type old (Call d) = true →
  old = Uninit ∨ ∃ d0, old = Call d0.
Proof. destruct old; cbn; try discriminate; eauto. Qed.

(** What holds of the message [private] after the first [k] statements of
    [reply_received retval data], for a message that had no reply yet:
    [v] is the return value as stored, [d] the answer, [dp] where the
    answer is to go. *)
Definition after_stmts (private data dp v : Z) (d : ipc_call_t) (k : nat) (s : store) : Prop :=
  ∃ m, cell_at s private = Some (Amsg m) ∧ am_dataptr m = dp ∧
       cell_at s data = Some (Call d) ∧
       ((k < 4)%nat → am_done m = false) ∧
       ((1 ≤ k)%nat → am_retval m = v) ∧
       ((2 ≤ k)%nat → dp ≠ NULL → cell_at s dp = Some (Call d)).

Lemma reply_received_stmt (private retval data dp : Z) (d : ipc_call_t) k c s t s' :
  reply_received_stmts private retval data !! k = Some c →
  after_stmts private data dp (ipcarg_of_int retval) d k s →
  exec c s t tt s' →
  after_stmts private data dp (ipcarg_of_int retval) d (S k) s'.
Proof.
  intros Hk (m & Hm & Hdp & Hdata & Hdone & Hrv & Hpay) Hex.
  pose proof (cell_at_not_null _ _ _ Hm) as Hnn.
  assert (Hne : private ≠ data) by (intros ->; congruence).
  destruct k as [|[|[|[|[|k]]]]]; cbn in Hk; [injection Hk as <-..|discriminate].
  - (* msg->retval = retval *)
    destruct (exec_det _ _ _ _ _ _ _ _ Hex (exec_update_amsg _ _ _ _ Hm))
      as (-> & _ & ->).
    exists (set_retval (ipcarg_of_int retval) m). split_and!; try done.
    + by apply cell_at_insert_eq.
    + by rewrite cell_at_insert_ne.
    + intros _. apply Hdone. lia.
    + lia.
  - (* if (msg->dataptr) *msg->dataptr = *data *)
    apply exec_bind_inv in Hex as (t1 & m1 & s1 & t2 & H1 & H2 & ->).
    destruct (exec_det _ _ _ _ _ _ _ _ H1 (exec_load_amsg _ _ _ Hm))
      as (-> & -> & ->).
    rewrite Hdp in H2. destruct (Z.eqb_spec dp NULL) as [Hnull|Hnull]; cbn in H2.
    + apply exec_ret_inv in H2 as (-> & _ & ->).
      exists m. split_and!; try done; try (intros; apply Hdone || apply Hrv; lia).
    + apply exec_bind_inv in H2 as (t3 & d1 & s3 & t4 & H3 & H4 & ->).
      destruct (exec_det _ _ _ _ _ _ _ _ H3 (exec_load_call _ _ _ Hdata))
        as (-> & -> & ->).
      apply exec_store_cell_inv in H4 as (-> & -> & old & Hold & Hty).
      assert (Hpd : dp ≠ private).
      { intros ->. rewrite Hm in Hold. injection Hold as <-. discriminate. }
      exists m. split_and!; try done;
        try (intros; apply Hdone || apply Hrv; lia).
      * by rewrite cell_at_insert_ne.
      * destruct (decide (dp = data)) as [->|Hd'].
        -- by apply cell_at_insert_eq.
        -- by rewrite cell_at_insert_ne.
      * intros _ _. by apply cell_at_insert_eq.
  - (* if (msg->has_timeout) list_remove(&msg->link) *)
    apply exec_bind_inv in Hex as (t1 & m1 & s1 & t2 & H1 & H2 & ->).
    destruct (exec_det _ _ _ _ _ _ _ _ H1 (exec_load_amsg _ _ _ Hm))
      as (-> & -> & ->).
    assert (Hs' : cell_at s' = cell_at s).
    { destruct (am_has_timeout m).
      - destruct (exec_det _ _ _ _ _ _ _ _ H2 (exec_modify _ _)) as (_ & _ & ->).
        done.
      - by apply exec_ret_inv in H2 as (_ & _ & ->). }
    exists m. rewrite Hs'. split_and!; try done;
      try (intros; apply Hdone || apply Hrv || apply Hpay; lia).
  - (* msg->done = 1 *)
    destruct (exec_det _ _ _ _ _ _ _ _ Hex (exec_update_amsg _ _ _ _ Hm))
      as (-> & _ & ->).
    exists (set_done true m). split_and!; try done.
    + by apply cell_at_insert_eq.
    + by rewrite cell_at_insert_ne.
    + lia.
    + intros _. cbn. apply Hrv. lia.
    + intros _ Hnull. destruct (decide (private = dp)) as [<-|Hpd].
      * rewrite Hpay in Hm by (done || lia). discriminate.
      * rewrite cell_at_insert_ne by done. apply Hpay; [lia|done].
  - (* if (!msg->active) { msg->active = 1; psthread_add_ready(msg->ptid); } *)
    apply exec_bind_inv in Hex as (t1 & m1 & s1 & t2 & H1 & H2 & ->).
    destruct (exec_det _ _ _ _ _ _ _ _ H1 (exec_load_amsg _ _ _ Hm))
      as (-> & -> & ->).
    destruct (am_active m); cbn in H2.
    + apply exec_ret_inv in H2 as (-> & _ & ->).
      exists m. split_and!; try done; try lia;
        try (intros; apply Hrv || apply Hpay; lia).
    + apply exec_bind_inv in H2 as (t3 & [] & s3 & t4 & H3 & H4 & ->).
      destruct (exec_det _ _ _ _ _ _ _ _ H3 (exec_update_amsg _ _ _ _ Hm))
        as (-> & _ & ->).
      destruct (exec_det _ _ _ _ _ _ _ _ H4 (exec_emit _ _)) as (-> & _ & ->).
      exists (set_active true m). split_and!; try done; try lia.
      * by apply cell_at_insert_eq.
      * by rewrite cell_at_insert_ne.
      * intros _. cbn. apply Hrv. lia.
      * intros _ Hnull. destruct (decide (private = dp)) as [<-|Hpd].
        -- rewrite Hpay in Hm by (done || lia). discriminate.
        -- rewrite cell_at_insert_ne by done. apply Hpay; [lia|done].
Qed.


Lemma reply_received_prefix (private retval data dp : Z) (d : ipc_call_t) n :
  ∀ k l s t s',
    drop k (reply_received_stmts private retval data) = l →
    after_stmts private data dp (ipcarg_of_int retval) d k s →
    exec (run_stmts (take n l)) s t tt s' →
    after_stmts private data dp (ipcarg_of_int retval) d
                (k + Nat.min n (length l)) s'.
Proof.
  induction n as [|n IH]; intros k l s t s' Hl Hk Hex.
  - apply exec_ret_inv in Hex as (_ & _ & ->). by rewrite Nat.add_0_r.
  - destruct l as [|c l'].
    + apply exec_ret_inv in Hex as (_ & _ & ->). by rewrite Nat.add_0_r.
    + cbn [take] in Hex.
      apply exec_run_stmts_cons in Hex as (t1 & s1 & t2 & H1 & H2 & ->).
      assert (Hc : reply_received_stmts private retval data !! k = Some c).
      { rewrite <- (Nat.add_0_r k), <- lookup_drop, Hl. done. }
      replace (k + Nat.min (S n) (length (c :: l')))%nat
        with (S k + Nat.min n (length l'))%nat by (cbn; lia).
      eapply IH; [|eapply reply_received_stmt; eauto|exact H2].
      rewrite (drop_S _ _ _ Hc) in Hl. by injection Hl.
Qed.


(** The callback runs to its end when [private] is an outstanding message,
    [data] an answer, and the message's data pointer is [NULL] or
    designates a call structure. *)
Definition fits (private data dp : Z) (d : ipc_call_t) (s : store) : Prop :=
  (∃ m, cell_at s private = Some (Amsg m) ∧ am_dataptr m = dp) ∧
  cell_at s data = Some (Call d) ∧
  (dp ≠ NULL → ∃ d0, cell_at s dp = Some (Call d0)).

Definition keeps (private dp : Z) (s s' : store) : Prop :=
  ∀ q c, cell_at s q = Some c → q ≠ private → q ≠ dp → cell_at s' q = Some c.

Lemma reply_received_stmt_runs (private retval data dp : Z) (d : ipc_call_t) k c s :
  reply_received_stmts private retval data !! k = Some c →
  fits private data dp d s →
  ∃ t s', exec c s t tt s' ∧ fits private data dp d s' ∧ keeps private dp s s'.
Proof.
  intros Hk ((m & Hm & Hdp) & Hdata & Hvalid).
  pose proof (cell_at_not_null _ _ _ Hm) as Hnn.
  assert (Hne : private ≠ data) by (intros ->; congruence).
  assert (Hpd : dp ≠ NULL → dp ≠ private).
  { intros Hnull ->. destruct (Hvalid Hnull) as [d0 Hd0]. congruence. }
  assert (Hupd : ∀ f, am_dataptr (f m) = dp →
    fits private data dp d (set_heap <[private := Amsg (f m)]> s) ∧
    keeps private dp s (set_heap <[private := Amsg (f m)]> s)).
  { intros f Hf. split; [split_and!|].
    - exists (f m). split; [by apply cell_at_insert_eq|done].
    - by rewrite cell_at_insert_ne.
    - intros Hnull. rewrite cell_at_insert_ne by (symmetry; auto). auto.
    - intros q c' Hq Hq1 Hq2. by rewrite cell_at_insert_ne. }
  assert (Hsame : fits private data dp d s ∧ keeps private dp s s).
  { split; [split_and!; eauto|]. by intros q c' Hq _ _. }
  destruct k as [|[|[|[|[|k]]]]]; cbn in Hk; [injection Hk as <-..|discriminate].
  - eexists [], _. split; [by apply exec_update_amsg|]. by apply Hupd.
  - destruct (Z.eqb_spec dp NULL) as [Hnull|Hnull].
    + exists [], s. split; [|done].
      eapply exec_bind_eq; [by apply exec_load_amsg| |traces].
      rewrite Hdp. destruct (Z.eqb_spec dp NULL); [|exfalso; auto]. apply exec_ret.
    + destruct (Hvalid Hnull) as [d0 Hd0].
      eexists [], _. split.
      { eapply exec_bind_eq; [by apply exec_load_amsg| |traces].
        rewrite Hdp. destruct (Z.eqb_spec dp NULL); [exfalso; auto|]. cbn [negb].
        eapply exec_bind_eq; [by apply exec_load_call| |traces].
        by eapply exec_store_cell. }
      split; [split_and!|].
      * exists m. split; [|done]. rewrite cell_at_insert_ne by auto. done.
      * destruct (decide (dp = data)) as [->|Hd'].
        -- by apply cell_at_insert_eq.
        -- by rewrite cell_at_insert_ne.
      * intros _. exists d. by apply cell_at_insert_eq.
      * intros q c' Hq Hq1 Hq2. by rewrite cell_at_insert_ne.
  - destruct (am_has_timeout m) eqn:Hto.
    + eexists [], _. split.
      { eapply exec_bind_eq; [by apply exec_load_amsg| |traces].
        rewrite Hto. apply exec_modify. }
      exact Hsame.
    + exists [], s. split; [|done].
      eapply exec_bind_eq; [by apply exec_load_amsg| |traces].
      rewrite Hto. apply exec_ret.
  - eexists [], _. split; [by apply exec_update_amsg|]. by apply Hupd.
  - destruct (am_active m) eqn:Hact.
    + exists [], s. split; [|done].
      eapply exec_bind_eq; [by apply exec_load_amsg| |traces].
      rewrite Hact. apply exec_ret.
    + eexists [EvAddReady (am_ptid m)], _. split.
      { eapply exec_bind_eq; [by apply exec_load_amsg| |traces].
        rewrite Hact. cbn [negb].
        eapply exec_bind_eq; [by apply exec_update_amsg| |traces].
        apply exec_emit. }
      by apply Hupd.
Qed.

Lemma reply_received_runs (private retval data dp : Z) (d : ipc_call_t) l :
  ∀ k s,
    drop k (reply_received_stmts private retval data) = l →
    fits private data dp d s →
    ∃ t s', exec (run_stmts l) s t tt s' ∧
            fits private data dp d s' ∧ keeps private dp s s'.
Proof.
  induction l as [|c l IH]; intros k s Hl Hfits.
  - exists [], s. split; [apply exec_ret|]. split; [done|]. by intros q c Hq _ _.
  - assert (Hc : reply_received_stmts private retval data !! k = Some c).
    { rewrite <- (Nat.add_0_r k), <- lookup_drop, Hl. done. }
    destruct (reply_received_stmt_runs _ _ _ _ _ _ _ _ Hc Hfits)
      as (t1 & s1 & H1 & Hfits1 & Hkeeps1).
    destruct (IH (S k) s1) as (t2 & s2 & H2 & Hfits2 & Hkeeps2); [|done|].
    { rewrite (drop_S _ _ _ Hc) in Hl. by injection Hl. }
    exists (t1 ++ t2), s2. split_and!; [|done|].
    + cbn [run_stmts]. by eapply exec_bind.
    + intros q c' Hq Hq1 Hq2. apply Hkeeps2; auto.
Qed.

(** C4.  For an outstanding message [private] that has no reply yet:
    after any number of statements of [reply_received retval data], if
    [done] is set then [retval] holds the value of the reply and, for a
    non-null [dataptr], the answer has been copied through it.  A fibril
    that waits in [async_wait_for] while the callback runs is handed that
    return value, with the answer in place. *)
Theorem reply_received_writes_before_done
    (private retval data : Z) (s : store) (m : amsg_t) (d : ipc_call_t) :
  cell_at s private = Some (Amsg m) →
  am_done m = false →
  cell_at s data = Some (Call d) →
  (∀ n t s' m',
     run_stmts (take n (reply_received_stmts private retval data)) s
       = (t, Ok tt s') →
     cell_at s' private = Some (Amsg m') →
     am_done m' = true →
     am_retval m' = ipcarg_of_int retval ∧
     (am_dataptr m' ≠ NULL → cell_at s' (am_dataptr m') = Some (Call d)))
  ∧ (∀ rp w,
       cell_at s rp = Some (Word w) →
       (am_dataptr m ≠ NULL → ∃ d0, cell_at s (am_dataptr m) = Some (Call d0)) →
       ∃ t s',
         async_wait_for (reply_received private retval data) private rp s
           = (t, Ok tt s') ∧
         cell_at s' rp = Some (Word (ipcarg_of_int retval)) ∧
         (am_dataptr m ≠ NULL → cell_at s' (am_dataptr m) = Some (Call d))).
Proof.
  intros Hm Hd Hdata.
  pose proof (cell_at_not_null _ _ _ Hm) as Hnn.
  assert (Hstart : ∀ s0 m0,
    cell_at s0 private = Some (Amsg m0) → am_done m0 = false →
    cell_at s0 data = Some (Call d) →
    after_stmts private data (am_dataptr m0) (ipcarg_of_int retval) d 0 s0).
  { intros s0 m0 H1 H2 H3. exists m0. split_and!; try done; lia. }
  split.
  - intros n t s' m' Hrun Hm' Hd'.
    destruct (reply_received_prefix private retval data (am_dataptr m) d n 0
                _ s t s' eq_refl (Hstart _ _ Hm Hd Hdata) Hrun)
      as (m1 & Hm1 & Hdp & _ & Hdone & Hrv & Hpay).
    rewrite Hm' in Hm1. injection Hm1 as <-.
    set (k := (0 + Nat.min n _)%nat) in *.
    assert (4 ≤ k)%nat.
    { destruct (decide (k < 4)%nat) as [Hlt|]; [|lia].
      rewrite (Hdone Hlt) in Hd'. discriminate. }
    split; [apply Hrv; lia|]. rewrite Hdp. apply Hpay. lia.
  - intros rp w Hrp Hvalid.
    pose proof (cell_at_not_null _ _ _ Hrp) as Hrpnn.
    assert (Hrp1 : rp ≠ private) by (intros ->; congruence).
    assert (Hrp2 : rp ≠ am_dataptr m).
    { intros ->. destruct Hvalid as [d0 Hd0]; [done|]. congruence. }
    set (m3 := set_has_timeout false (set_active false (set_ptid (self s) m))).
    set (s3 := set_heap <[private := Amsg m3]>
                 (set_heap <[private := Amsg (set_active false (set_ptid (self s) m))]>
                    (set_heap <[private := Amsg (set_ptid (self s) m)]> s))).
    assert (Hs3 : ∀ q, q ≠ private → cell_at s3 q = cell_at s q).
    { intros q Hq. unfold s3. by rewrite !cell_at_insert_ne. }
    assert (Hm3 : cell_at s3 private = Some (Amsg m3)) by by apply cell_at_insert_eq.
    assert (Hfits : fits private data (am_dataptr m) d s3).
    { split_and!.
      - by exists m3.
      - rewrite Hs3; [done|]. intros ->. congruence.
      - intros Hnull. destruct (Hvalid Hnull) as [d0 Hd0]. exists d0.
        rewrite Hs3; [done|]. intros Heq. rewrite Heq in Hd0. congruence. }
    destruct (reply_received_runs private retval data (am_dataptr m) d _ 0 s3
                eq_refl Hfits) as (t4 & s4 & Hrun & _ & Hkeeps).
    destruct (reply_received_prefix private retval data (am_dataptr m) d 5 0
                _ s3 t4 s4 eq_refl (Hstart s3 m3 Hm3 Hd
                  ltac:(rewrite Hs3; [done|intros ->; congruence])) Hrun)
      as (m4 & Hm4 & Hdp & _ & _ & Hrv & Hpay).
    assert (Hrp4 : cell_at s4 rp = Some (Word w)).
    { apply Hkeeps; [|done..]. by rewrite Hs3. }
    eexists _, _. split_and!.
    + as_exec. unfold async_wait_for.
      step. rewrite Hd. step. step. step. step.
      eapply exec_bind_eq; [exact Hrun| |reflexivity].
      eapply exec_at_done; [exact Hm4|]. intros _. eauto.
      all: traces.
    + unfold stored_retval. destruct (Z.eqb_spec rp NULL); [done|].
      rewrite cell_at_freed by done.
      rewrite Hrv by (cbn; lia). by apply cell_at_insert_eq.
    + intros Hnull. unfold stored_retval. destruct (Z.eqb_spec rp NULL); [done|].
      assert (am_dataptr m ≠ private).
      { destruct (Hvalid Hnull) as [d0 Hd0]. intros Heq. rewrite Heq in Hd0.
        congruence. }
      rewrite cell_at_freed, cell_at_insert_ne by done.
      apply Hpay; [cbn; lia|done].
Qed.


(** *** Allocation failure *)

Lemma exec_malloc_exhausted s : mem_avail s = 0%nat → exec malloc s [] NULL s.
Proof. intros Hmem. unfold exec, malloc. by rewrite Hmem. Qed.

Lemma faults_store_cell_null c s : faults (store_cell NULL c) s [] NullDeref.
Proof. reflexivity. Qed.

Lemma faults_update_amsg_null f s : faults (update_amsg NULL f) s [] NullDeref.
Proof. reflexivity. Qed.

(** [async_new_connection] checks what [malloc] returns: when nothing is
    left it answers the opening call with [ENOMEM] and returns [NULL]. *)
Lemma async_new_connection_out_of_memory callid call cthread s :
  mem_avail s = 0%nat →
  async_new_connection callid call cthread s
    = ([EvAnswerFast callid ENOMEM 0 0], Ok NULL s).
Proof.
  intros Hmem. as_exec. unfold async_new_connection.
  eapply exec_bind_eq; [by apply exec_malloc_exhausted| |traces].
  cbn. eapply exec_bind_eq; [apply exec_emit|apply exec_ret|traces].
Qed.

(** [route_call] and [async_send_2] do not check what [malloc] returns.
    When nothing is left to allocate, [route_call], having found the
    connection, stores the call identifier through [NULL], and
    [async_send_2] stores [active] through [NULL]. *)
Lemma malloc_result_not_checked :
  (∀ s callid call conn,
     mem_avail s = 0%nat →
     hash_table_find (in_phone_hash call) s = ([], Ok conn s) →
     conn ≠ NULL →
     route_call callid call s = ([], Fault NullDeref))
  ∧ (∀ s phoneid method arg1 arg2 dataptr,
       mem_avail s = 0%nat →
       async_send_2 phoneid method arg1 arg2 dataptr s = ([], Fault NullDeref)).
Proof.
  split.
  - intros s callid call conn Hmem Hfind Hconn. as_exec. unfold route_call.
    eapply faults_bind_eq; [exact Hfind| |traces].
    destruct (Z.eqb_spec conn NULL); [done|].
    eapply faults_bind_eq; [by apply exec_malloc_exhausted| |traces].
    apply faults_bind_l, faults_store_cell_null.
  - intros s phoneid method arg1 arg2 dataptr Hmem. as_exec. unfold async_send_2.
    eapply faults_bind_eq; [by apply exec_malloc_exhausted| |traces].
    apply faults_bind_l, faults_update_amsg_null.
Qed.


(** *** The end of a connection *)

(** The messages [ms] are what the pointers [q] designate. *)
Definition queued (s : store) (q : list Z) (ms : list msg_t) : Prop :=
  Forall2 (λ p m, cell_at s p = Some (Msg m)) q ms.

Lemma queued_not_conn s q ms p c :
  queued s q ms → cell_at s p = Some (Conn c) → p ∉ q.
Proof.
  intros Hq Hp Hin. unfold queued in Hq.
  apply list_elem_of_lookup in Hin as [i Hi].
  destruct (Forall2_lookup_l _ _ _ _ _ Hq Hi) as (m & _ & Hm). congruence.
Qed.

Lemma queued_frame s s' q ms :
  (∀ p, p ∈ q → cell_at s' p = cell_at s p) → queued s q ms → queued s' q ms.
Proof.
  unfold queued. intros Hsame Hq. revert Hsame.
  induction Hq as [|p m q ms Hp Hq IH]; intros Hsame; constructor.
  - rewrite Hsame; [done|set_solver].
  - apply IH. intros p' Hp'. apply Hsame. set_solver.
Qed.

(** A load through a pointer that [free] has just been given. *)
Lemma faults_load_conn_freed p s :
  p ≠ NULL → faults (load_conn p) (freed p s) [] UseAfterFree.
Proof.
  intros Hp. unfold faults, load_conn, mbind, M_bind, deref.
  rewrite cell_at_freed_gone.
  destruct (Z.eqb_spec p NULL); [done|].
  change (released (freed p s)) with (p :: released s).
  rewrite bool_decide_eq_true_2; [done|]. constructor.
Qed.

(** C1.  The connection fibril does not drain the FIFO.  When the handler
    of a connection has returned and the connection is in the table,
    [hash_table_remove] takes it out and hands it to [conn_remove], which
    frees the connection structure; only then comes the loop that is to
    answer what is queued, and its test reads [conn->msg_queue] from the
    freed structure.  The removal and the release of the connection are
    the last events of the fibril: whatever was in the FIFO when the
    handler returned gets no [EHANGUP] answer and is not freed. *)
Theorem connection_thread_reads_freed_connection
    (arg : Z) (s s1 : store) (c0 c : connection_t) (t0 : list event) :
  cell_at s arg = Some (Conn c0) →
  code (c_cthread c0) (c_callid c0) (c_call c0) (set_PS_connection arg s)
    = (t0, Ok tt s1) →
  cell_at s1 arg = Some (Conn c) →
  hash_table_find (c_in_phone_hash c) s1 = ([], Ok arg s1) →
  connection_thread arg s
    = (t0 ++ [EvHashRemove (c_in_phone_hash c); EvFree arg], Fault UseAfterFree).
Proof.
  intros Hc0 Hcode Hc Hfind.
  pose proof (cell_at_not_null _ _ _ Hc) as Hnn.
  set (key := c_in_phone_hash c).
  set (s1' := freed arg
         (set_conn_hash_table
            (λ h, <[conn_hash key := unlink arg (chain h (conn_hash key))]> h) s1)).
  as_exec. unfold connection_thread.
  eapply faults_bind_eq; [apply exec_modify| |reflexivity].
  eapply faults_bind_eq; [apply exec_get| |reflexivity]. cbn beta zeta.
  change (PS_connection (set_PS_connection arg s)) with arg.
  eapply faults_bind_eq; [by apply exec_load_conn| |reflexivity].
  eapply faults_bind_eq; [exact Hcode| |reflexivity].
  eapply faults_bind_eq; [by apply exec_load_conn| |reflexivity].
  assert (Hrem : exec (hash_table_remove key) s1
                   [EvHashRemove key; EvFree arg] tt s1').
  { unfold hash_table_remove.
    eapply exec_bind_eq; [apply exec_emit| |reflexivity].
    eapply exec_bind_eq; [exact Hfind| |reflexivity].
    destruct (Z.eqb_spec arg NULL); [done|].
    eapply exec_bind_eq; [apply exec_modify|apply exec_free|reflexivity]. }
  eapply faults_bind_eq; [exact Hrem| |traces].
  apply faults_bind_l. by apply faults_load_conn_freed.
Qed.


(** *** Routing and delivery *)

Lemma exec_deref_inv p s t c s' :
  exec (deref p) s t c s' → t = [] ∧ s' = s ∧ cell_at s p = Some c.
Proof.
  unfold exec, deref. destruct (cell_at s p); [|discriminate].
  by intros [= <- <- <-].
Qed.

Lemma exec_load_conn_inv p s t c s' :
  exec (load_conn p) s t c s' → t = [] ∧ s' = s ∧ cell_at s p = Some (Conn c).
Proof.
  unfold load_conn. intros Hex.
  apply exec_bind_inv in Hex as (t1 & c1 & s1 & t2 & H1 & H2 & ->).
  apply exec_deref_inv in H1 as (-> & -> & Hc).
  destruct c1; try discriminate H2.
  destruct (exec_ret_inv _ _ _ _ _ H2) as (-> & -> & ->). done.
Qed.

Lemma exec_load_msg_inv p s t m s' :
  exec (load_msg p) s t m s' → t = [] ∧ s' = s ∧ cell_at s p = Some (Msg m).
Proof.
  unfold load_msg. intros Hex.
  apply exec_bind_inv in Hex as (t1 & c1 & s1 & t2 & H1 & H2 & ->).
  apply exec_deref_inv in H1 as (-> & -> & Hc).
  destruct c1; try discriminate H2.
  destruct (exec_ret_inv _ _ _ _ _ H2) as (-> & -> & ->). done.
Qed.

Lemma exec_update_conn_inv p f s t s' :
  exec (update_conn p f) s t tt s' →
  ∃ c, cell_at s p = Some (Conn c) ∧ t = [] ∧
       s' = set_heap <[p := Conn (f c)]> s.
Proof.
  unfold update_conn. intros Hex.
  apply exec_bind_inv in Hex as (t1 & c & s1 & t2 & H1 & H2 & ->).
  apply exec_load_conn_inv in H1 as (-> & -> & Hc).
  apply exec_store_cell_inv in H2 as (-> & -> & _). eauto.
Qed.

Lemma exec_malloc_inv s t p s' :
  exec malloc s t p s' →
  t = [] ∧
  (p = NULL ∧ s' = s ∨
   p ≠ NULL ∧ cell_at s p = None ∧
   ∃ n, s' = set_heap <[p := Uninit]> (set_mem_avail (λ _, n) s)).
Proof.
  unfold exec, malloc. destruct (mem_avail s) as [|n].
  - intros [= <- <- <-]. auto.
  - intros [= <- <- <-]. split; [done|]. right.
    pose proof (is_fresh ({[NULL]} ∪ dom (heap s))) as Hfresh.
    set (p := fresh ({[NULL]} ∪ dom (heap s))) in *.
    split_and!; [set_solver| |eauto].
    unfold cell_at. destruct (p =? NULL); [done|].
    apply not_elem_of_dom. set_solver.
Qed.

(** The key under which a pointer is a connection. *)
Definition conn_key (s : store) (p : Z) : option Z :=
  match cell_at s p with
  | Some (Conn c) => Some (c_in_phone_hash c)
  | _ => None
  end.

(** Two stores route alike: the same table over connections with the same
    keys. *)
Definition same_routing (s s' : store) : Prop :=
  conn_hash_table s' = conn_hash_table s ∧ ∀ p, conn_key s' p = conn_key s p.

Lemma same_routing_refl s : same_routing s s.
Proof. done. Qed.

Lemma same_routing_sym s s' : same_routing s s' → same_routing s' s.
Proof. intros [Ht Hk]. split; [done|]. intros p. by rewrite Hk. Qed.

Lemma same_routing_trans s1 s2 s3 :
  same_routing s1 s2 → same_routing s2 s3 → same_routing s1 s3.
Proof.
  intros [Ht1 Hk1] [Ht2 Hk2]. split; [congruence|].
  intros p. by rewrite Hk2, Hk1.
Qed.

Lemma exec_chain_find_inv key items s t p s' :
  exec (chain_find key items) s t p s' → t = [] ∧ s' = s.
Proof.
  revert t. induction items as [|item rest IH]; intros t Hex;
    cbn [chain_find] in Hex.
  - by destruct (exec_ret_inv _ _ _ _ _ Hex) as (-> & _ & ->).
  - apply exec_bind_inv in Hex as (t1 & b & s1 & t2 & H1 & H2 & ->).
    unfold conn_compare in H1.
    apply exec_bind_inv in H1 as (t3 & hs & s3 & t4 & H3 & H4 & ->).
    apply exec_load_conn_inv in H3 as (-> & -> & _).
    destruct (exec_ret_inv _ _ _ _ _ H4) as (-> & -> & ->).
    destruct (key =? c_in_phone_hash hs).
    + by destruct (exec_ret_inv _ _ _ _ _ H2) as (-> & _ & ->).
    + by apply IH in H2.
Qed.

Lemma exec_chain_find_same key items s s' p :
  (∀ q, conn_key s' q = conn_key s q) →
  exec (chain_find key items) s [] p s →
  exec (chain_find key items) s' [] p s'.
Proof.
  intros Hkeys. induction items as [|item rest IH]; intros Hex;
    cbn [chain_find] in *.
  - destruct (exec_ret_inv _ _ _ _ _ Hex) as (_ & -> & _). apply exec_ret.
  - apply exec_bind_inv in Hex as (t1 & b & s1 & t2 & H1 & H2 & Ht).
    unfold conn_compare in H1.
    apply exec_bind_inv in H1 as (t3 & hs & s3 & t4 & H3 & H4 & ->).
    apply exec_load_conn_inv in H3 as (-> & -> & Hhs).
    destruct (exec_ret_inv _ _ _ _ _ H4) as (-> & -> & ->). cbn [app] in Ht. subst t2.
    pose proof (Hkeys item) as Hk. unfold conn_key in Hk. rewrite Hhs in Hk.
    destruct (cell_at s' item) as [[| | |hs'| |]|] eqn:Hhs'; try discriminate.
    injection Hk as Hk.
    eapply exec_bind_eq; [|  |traces].
    { unfold conn_compare.
      eapply exec_bind_eq; [by apply exec_load_conn|apply exec_ret|traces]. }
    rewrite Hk. destruct (key =? c_in_phone_hash hs).
    + destruct (exec_ret_inv _ _ _ _ _ H2) as (_ & -> & _). apply exec_ret.
    + by apply IH.
Qed.

Lemma exec_hash_table_find_inv key s t p s' :
  exec (hash_table_find key) s t p s' → t = [] ∧ s' = s.
Proof.
  unfold hash_table_find. intros Hex.
  apply exec_bind_inv in Hex as (t1 & s0 & s1 & t2 & H1 & H2 & ->).
  destruct (exec_ret_inv _ _ _ _ _ H1) as (-> & -> & ->).
  by apply exec_chain_find_inv in H2.
Qed.

Lemma exec_hash_table_find_same key s s' p :
  same_routing s s' →
  exec (hash_table_find key) s [] p s →
  exec (hash_table_find key) s' [] p s'.
Proof.
  intros [Htab Hkeys] Hex. unfold hash_table_find in *.
  apply exec_bind_inv in Hex as (t1 & s0 & s1 & t2 & H1 & H2 & Ht).
  destruct (exec_ret_inv _ _ _ _ _ H1) as (-> & -> & ->). cbn [app] in Ht. subst t2.
  eapply exec_bind_eq; [apply exec_get| |traces]. cbn beta.
  rewrite Htab. by eapply exec_chain_find_same.
Qed.

(** The connection a call is routed to: what [route_call] looks up. *)
Definition routes_to (s : store) (call : ipc_call_t) : option Z :=
  match hash_table_find (in_phone_hash call) s with
  | (_, Ok p _) => Some p
  | (_, Fault _) => None
  end.

Lemma routes_to_exec s call p :
  routes_to s call = Some p ↔ exec (hash_table_find (in_phone_hash call)) s [] p s.
Proof.
  unfold routes_to. split.
  - destruct (hash_table_find _ s) as [t [p' s'|f]] eqn:Hfind; [|discriminate].
    intros [= ->]. by destruct (exec_hash_table_find_inv _ _ _ _ _ Hfind) as [-> ->].
  - unfold exec. by intros ->.
Qed.

Lemma routes_to_same s s' call :
  same_routing s s' → routes_to s' call = routes_to s call.
Proof.
  intros Hsame.
  destruct (routes_to s call) as [p|] eqn:Hs.
  - apply routes_to_exec. apply routes_to_exec in Hs.
    by eapply exec_hash_table_find_same.
  - destruct (routes_to s' call) as [p|] eqn:Hs'; [|done].
    apply routes_to_exec in Hs'.
    apply (exec_hash_table_find_same _ _ _ _ (same_routing_sym _ _ Hsame)) in Hs'.
    apply routes_to_exec in Hs'. congruence.
Qed.


(** The queue of the connection [conn] holds the messages [ms], head
    first.  The queue is a list linked through the [link] field of its
    messages, so no message is in it twice. *)
Definition fifo (s : store) (conn : Z) (ms : list msg_t) : Prop :=
  ∃ c, cell_at s conn = Some (Conn c) ∧ queued s (c_msg_queue c) ms ∧
       NoDup (c_msg_queue c).

Lemma queued_app s q1 ms1 q2 ms2 :
  queued s q1 ms1 → queued s q2 ms2 → queued s (q1 ++ q2) (ms1 ++ ms2).
Proof. apply Forall2_app. Qed.

Lemma queued_in s q ms p : queued s q ms → p ∈ q → ∃ m, cell_at s p = Some (Msg m).
Proof.
  intros Hq Hin. apply list_elem_of_lookup in Hin as [i Hi].
  destruct (Forall2_lookup_l _ _ _ _ _ Hq Hi) as (m & _ & Hm). eauto.
Qed.

(** [route_call] appends the call to the queue of the connection it finds
    and leaves every other queue alone. *)
Lemma route_call_fifo callid call s t r s' conn ms :
  fifo s conn ms →
  exec (route_call callid call) s t r s' →
  fifo s' conn
       (ms ++ if decide (routes_to s call = Some conn)
              then [{| m_callid := callid; m_call := call |}] else [])
  ∧ same_routing s s' ∧ PS_connection s' = PS_connection s.
Proof.
  intros (c & Hc & Hq & Hnd) Hex.
  pose proof (cell_at_not_null _ _ _ Hc) as Hnn.
  unfold route_call in Hex.
  apply exec_bind_inv in Hex as (t1 & hlp & s1 & t2 & Hfind & Hex & ->).
  destruct (exec_hash_table_find_inv _ _ _ _ _ Hfind) as [-> ->].
  assert (Hroute : routes_to s call = Some hlp) by by apply routes_to_exec.
  rewrite Hroute.
  destruct (Z.eqb_spec hlp NULL) as [->|Hhlp].
  { destruct (exec_ret_inv _ _ _ _ _ Hex) as (_ & _ & ->).
    rewrite decide_False by congruence. rewrite app_nil_r.
    split_and!; [by exists c|done|done]. }
  apply exec_bind_inv in Hex as (t3 & p & s3 & t4 & Hmalloc & Hex & ->).
  apply exec_malloc_inv in Hmalloc as (-> & [[-> ->]|(Hp & Hfresh & n & ->)]).
  { apply exec_bind_inv in Hex as (t5 & [] & s5 & t6 & Hst & _ & _).
    apply exec_store_cell_inv in Hst as (_ & _ & old & Hold & _).
    by apply cell_at_not_null in Hold. }
  apply exec_bind_inv in Hex as (t5 & [] & s5 & t6 & Hst & Hex & ->).
  apply exec_store_cell_inv in Hst as (-> & -> & _).
  apply exec_bind_inv in Hex as (t7 & [] & s7 & t8 & Hupd & Hex & ->).
  apply exec_update_conn_inv in Hupd as (ch & Hch & -> & ->).
  assert (Hph : hlp ≠ p).
  { intros ->. rewrite cell_at_insert_eq in Hch by done. discriminate. }
  rewrite !cell_at_insert_ne in Hch by done.
  change (cell_at (set_mem_avail _ s) hlp) with (cell_at s hlp) in Hch.
  set (m := {| m_callid := callid; m_call := call |}) in *.
  set (ch1 := set_msg_queue (c_msg_queue ch ++ [p]) ch) in *.
  apply exec_bind_inv in Hex as (t9 & c3 & s9 & t10 & Hld & Hex & ->).
  apply exec_load_conn_inv in Hld as (-> & -> & Hc3).
  rewrite cell_at_insert_eq in Hc3 by done. injection Hc3 as <-.
  apply exec_bind_inv in Hex as (t11 & [] & s11 & t12 & Hact & Hex & ->).
  destruct (exec_ret_inv _ _ _ _ _ Hex) as (-> & _ & ->).
  assert (Hfin : ∃ cfin,
    cell_at s11 hlp = Some (Conn cfin) ∧
    c_msg_queue cfin = c_msg_queue ch ++ [p] ∧
    c_in_phone_hash cfin = c_in_phone_hash ch ∧
    cell_at s11 p = Some (Msg m) ∧
    (∀ q, q ≠ p → q ≠ hlp → cell_at s11 q = cell_at s q) ∧
    conn_hash_table s11 = conn_hash_table s ∧
    PS_connection s11 = PS_connection s).
  { destruct (c_active ch1) eqn:Hactive; cbn [negb] in Hact.
    - destruct (exec_ret_inv _ _ _ _ _ Hact) as (_ & _ & ->).
      exists ch1. split_and!; try done.
      + by apply cell_at_insert_eq.
      + rewrite cell_at_insert_ne by done. by apply cell_at_insert_eq.
      + intros q Hq1 Hq2. by rewrite !cell_at_insert_ne.
    - apply exec_bind_inv in Hact as (t13 & [] & s13 & t14 & Hupd & Hem & _).
      apply exec_update_conn_inv in Hupd as (c' & Hc' & _ & ->).
      rewrite cell_at_insert_eq in Hc' by done. injection Hc' as <-.
      destruct (exec_det _ _ _ _ _ _ _ _ Hem (exec_emit _ _)) as (_ & _ & ->).
      exists (set_conn_active true ch1). split_and!; try done.
      + by apply cell_at_insert_eq.
      + rewrite !cell_at_insert_ne by done. by apply cell_at_insert_eq.
      + intros q Hq1 Hq2. by rewrite !cell_at_insert_ne. }
  destruct Hfin as (cfin & Hcfin & Hqfin & Hkfin & Hpfin & Hframe & Htab & HPS).
  assert (Hqframe : ∀ x, x ∈ c_msg_queue c → cell_at s11 x = cell_at s x).
  { intros x Hx. destruct (queued_in _ _ _ _ Hq Hx) as [mx Hmx].
    apply Hframe; intros ->; congruence. }
  split_and!; [|split|]; try done.
  - destruct (decide (Some hlp = Some conn)) as [[= ->]|Hne].
    + rewrite Hc in Hch. injection Hch as <-.
      exists cfin. split; [done|]. rewrite Hqfin. split.
      * apply queued_app; [by eapply queued_frame|].
        by repeat constructor.
      * apply NoDup_app. split_and!; [done| |apply NoDup_singleton].
        intros x Hx ->%list_elem_of_singleton.
        destruct (queued_in _ _ _ _ Hq Hx) as [mx Hmx]. congruence.
    + rewrite app_nil_r. exists c. split_and!; [| |done].
      * rewrite Hframe; [done| |]; intros ->; congruence.
      * by eapply queued_frame.
  - intros q. unfold conn_key.
    destruct (decide (q = p)) as [->|Hq1]; [by rewrite Hpfin, Hfresh|].
    destruct (decide (q = hlp)) as [->|Hq2]; [by rewrite Hcfin, Hch, Hkfin|].
    by rewrite Hframe.
Qed.


(** The part of [async_get_call] that takes the head off the queue. *)
Lemma dequeue_fifo conn (k : proc (Z * ipc_call_t)) s t r s' ms :
  k = (c ← load_conn conn;
       match c_msg_queue c with
       | [] => fail EmptyList
       | msg :: rest =>
           update_conn conn (set_msg_queue rest);;
           m ← load_msg msg;
           free msg;;
           mret (m_callid m, m_call m)
       end) →
  fifo s conn ms →
  exec k s t r s' →
  ∃ m ms', ms = m :: ms' ∧ r = (m_callid m, m_call m) ∧ fifo s' conn ms' ∧
           same_routing s s' ∧ PS_connection s' = PS_connection s.
Proof.
  intros -> (c & Hc & Hq & Hnd) Hex.
  pose proof (cell_at_not_null _ _ _ Hc) as Hnn.
  apply exec_bind_inv in Hex as (t1 & c1 & s1 & t2 & Hld & Hex & ->).
  apply exec_load_conn_inv in Hld as (-> & -> & Hc1).
  rewrite Hc in Hc1. injection Hc1 as <-.
  pose proof (queued_not_conn _ _ _ _ _ Hq Hc) as Hnotin.
  destruct (c_msg_queue c) as [|msg rest] eqn:Hqueue; [discriminate Hex|].
  inversion Hq as [|? m ? ms' Hmsg Hrest]; subst ms.
  apply NoDup_cons in Hnd as [Hfirst Hnd].
  apply exec_bind_inv in Hex as (t3 & [] & s3 & t4 & Hupd & Hex & ->).
  apply exec_update_conn_inv in Hupd as (c' & Hc' & -> & ->).
  rewrite Hc in Hc'. injection Hc' as <-.
  assert (Hmc : msg ≠ conn) by (intros ->; set_solver).
  apply exec_bind_inv in Hex as (t5 & m5 & s5 & t6 & Hld & Hex & ->).
  apply exec_load_msg_inv in Hld as (-> & -> & Hm5).
  rewrite cell_at_insert_ne in Hm5 by done.
  rewrite Hmsg in Hm5. injection Hm5 as <-.
  apply exec_bind_inv in Hex as (t7 & [] & s7 & t8 & Hfree & Hex & ->).
  destruct (exec_det _ _ _ _ _ _ _ _ Hfree (exec_free _ _)) as (-> & _ & ->).
  destruct (exec_ret_inv _ _ _ _ _ Hex) as (-> & -> & ->).
  exists m, ms'. split_and!; [done|done| |split|done]; try done.
  - exists (set_msg_queue rest c). split_and!; [| |done].
    + rewrite cell_at_freed by done. by apply cell_at_insert_eq.
    + eapply queued_frame; [|exact Hrest]. intros p Hp.
      rewrite cell_at_freed by (by intros ->).
      rewrite cell_at_insert_ne; [done|]. intros ->. set_solver.
  - intros q. unfold conn_key.
    destruct (decide (q = msg)) as [->|Hq0].
    { by rewrite cell_at_freed_gone, Hmsg. }
    rewrite cell_at_freed by done.
    destruct (decide (q = conn)) as [->|Hq1].
    + by rewrite cell_at_insert_eq, Hc.
    + by rewrite cell_at_insert_ne.
Qed.

(** [async_get_call] returns the head of the queue of the current
    connection: of the queue it finds on entry, or, when that is empty, of
    the queue it finds when it runs again. *)
Lemma async_get_call_fifo yield s t r s' conn ms :
  PS_connection s = conn →
  fifo s conn ms →
  exec (async_get_call yield) s t r s' →
  match ms with
  | m :: ms' =>
      r = (m_callid m, m_call m) ∧ fifo s' conn ms' ∧
      same_routing s s' ∧ PS_connection s' = conn
  | [] =>
      ∃ sp ty sy,
        fifo sp conn [] ∧ same_routing s sp ∧ PS_connection sp = conn ∧
        exec yield sp ty tt sy ∧
        ∀ ms_y, fifo sy conn ms_y →
          ∃ m ms', ms_y = m :: ms' ∧ r = (m_callid m, m_call m) ∧
                   fifo s' conn ms' ∧ same_routing sy s' ∧
                   PS_connection s' = PS_connection sy
  end.
Proof.
  intros HPS Hfifo Hex. pose proof Hfifo as (c & Hc & Hq & Hnd).
  pose proof (cell_at_not_null _ _ _ Hc) as Hnn.
  unfold async_get_call in Hex.
  apply exec_bind_inv in Hex as (t0 & s0 & s0' & t0' & Hget & Hex & ->).
  destruct (exec_ret_inv _ _ _ _ _ Hget) as (-> & -> & ->).
  cbn zeta in Hex. rewrite HPS in Hex.
  apply exec_bind_inv in Hex as (t1 & c1 & s1 & t2 & Hld & Hex & ->).
  apply exec_load_conn_inv in Hld as (-> & -> & Hc1).
  rewrite Hc in Hc1. injection Hc1 as <-.
  apply exec_bind_inv in Hex as (t3 & [] & s3 & t4 & Hpark & Hex & ->).
  destruct (c_msg_queue c) as [|msg rest] eqn:Hqueue.
  - inversion Hq; subst ms.
    rewrite bool_decide_eq_true_2 in Hpark by done.
    apply exec_bind_inv in Hpark as (t5 & [] & s5 & t6 & Hupd & Hyield & ->).
    apply exec_update_conn_inv in Hupd as (c' & Hc' & -> & ->).
    rewrite Hc in Hc'. injection Hc' as <-.
    exists (set_heap <[conn := Conn (set_conn_active false c)]> s), t6, s3.
    split_and!; [|split| | |]; try done.
    + exists (set_conn_active false c). split; [by apply cell_at_insert_eq|].
      cbn. rewrite Hqueue. split; constructor.
    + intros q. unfold conn_key. destruct (decide (q = conn)) as [->|Hq1].
      * by rewrite cell_at_insert_eq, Hc.
      * by rewrite cell_at_insert_ne.
    + intros ms_y Hfy. by eapply dequeue_fifo.
  - inversion Hq as [|? m ? ms' Hmsg Hrest]; subst ms.
    rewrite bool_decide_eq_false_2 in Hpark by done.
    destruct (exec_ret_inv _ _ _ _ _ Hpark) as (-> & _ & ->).
    destruct (dequeue_fifo conn _ s t4 r s' (m :: ms') eq_refl Hfifo Hex)
      as (m0 & ms0 & [= <- <-] & -> & Hf' & Hsame & HPS').
    split_and!; try done. congruence.
Qed.


Definition entry (m : msg_t) : Z * ipc_call_t := (m_callid m, m_call m).

(** The calls among [calls] that are routed to [conn]. *)
Definition to_conn (s : store) (conn : Z) (calls : list (Z * ipc_call_t)) :
    list (Z * ipc_call_t) :=
  filter (λ x, routes_to s x.2 = Some conn) calls.

Lemma to_conn_same s s' conn calls :
  same_routing s s' → to_conn s' conn calls = to_conn s conn calls.
Proof.
  intros Hsame. unfold to_conn. apply list_filter_iff.
  intros x. by rewrite (routes_to_same _ _ _ Hsame).
Qed.

Lemma route_all_fifo conn calls : ∀ s t s' ms,
  fifo s conn ms →
  exec (route_all calls) s t tt s' →
  ∃ ms', fifo s' conn ms' ∧
         map entry ms' = map entry ms ++ to_conn s conn calls ∧
         same_routing s s' ∧ PS_connection s' = PS_connection s.
Proof.
  induction calls as [|[callid call] rest IH]; intros s t s' ms Hfifo Hex;
    cbn [route_all] in Hex.
  - destruct (exec_ret_inv _ _ _ _ _ Hex) as (_ & _ & ->).
    exists ms. by rewrite app_nil_r.
  - apply exec_bind_inv in Hex as (t1 & r & s1 & t2 & H1 & H2 & ->).
    destruct (route_call_fifo _ _ _ _ _ _ _ _ Hfifo H1) as (Hf1 & Hsame1 & HPS1).
    destruct (IH _ _ _ _ Hf1 H2) as (ms' & Hf' & Hms' & Hsame2 & HPS2).
    exists ms'. split_and!; [done| |by eapply same_routing_trans|congruence].
    rewrite Hms', (to_conn_same _ _ _ _ Hsame1), map_app, <- app_assoc.
    f_equal. unfold to_conn. rewrite filter_cons. cbn [snd].
    by destruct (decide (routes_to s call = Some conn)).
Qed.

Lemma fibril_get_fifo conn during s t r s' ms :
  PS_connection s = conn →
  fifo s conn ms →
  exec (fibril_get during) s t r s' →
  ∃ ms', fifo s' conn ms' ∧
         r :: map entry ms' = map entry ms ++ to_conn s conn during ∧
         same_routing s s' ∧ PS_connection s' = conn.
Proof.
  intros HPS Hfifo Hex. pose proof Hfifo as (c & Hc & Hq & Hnd).
  unfold fibril_get in Hex.
  apply exec_bind_inv in Hex as (t0 & s0 & s0' & t0' & Hget & Hex & ->).
  destruct (exec_ret_inv _ _ _ _ _ Hget) as (-> & -> & ->).
  rewrite HPS in Hex.
  apply exec_bind_inv in Hex as (t1 & c1 & s1 & t2 & Hld & Hex & ->).
  apply exec_load_conn_inv in Hld as (-> & -> & Hc1).
  rewrite Hc in Hc1. injection Hc1 as <-.
  destruct (c_msg_queue c) as [|msg rest] eqn:Hqueue.
  - inversion Hq; subst ms.
    rewrite bool_decide_eq_true_2 in Hex by done.
    destruct (async_get_call_fifo _ _ _ _ _ _ _ HPS Hfifo Hex)
      as (sp & ty & sy & Hfp & Hsamep & HPSp & Hyield & Hpop).
    destruct (route_all_fifo _ _ _ _ _ _ Hfp Hyield)
      as (ms_y & Hfy & Hms_y & Hsamey & HPSy).
    destruct (Hpop _ Hfy) as (m & ms' & -> & -> & Hf' & Hsame' & HPS').
    exists ms'. split_and!; [done| | |congruence].
    + cbn [map app] in *. by rewrite <- (to_conn_same _ _ _ _ Hsamep).
    + eauto using same_routing_trans.
  - inversion Hq as [|? m ? ms0 Hmsg Hrest]; subst ms.
    rewrite bool_decide_eq_false_2 in Hex by done.
    apply exec_bind_inv in Hex as (t3 & r3 & s3 & t4 & Hgc & Hex & ->).
    destruct (async_get_call_fifo _ _ _ _ _ _ _ HPS Hfifo Hgc)
      as (-> & Hf3 & Hsame3 & HPS3).
    apply exec_bind_inv in Hex as (t5 & [] & s5 & t6 & Hra & Hex & ->).
    destruct (exec_ret_inv _ _ _ _ _ Hex) as (-> & -> & ->).
    destruct (route_all_fifo _ _ _ _ _ _ Hf3 Hra)
      as (ms' & Hf' & Hms' & Hsame' & HPS').
    exists ms'. split_and!; [done| | |congruence].
    + cbn [map app]. by rewrite Hms', (to_conn_same _ _ _ _ Hsame3).
    + eauto using same_routing_trans.
Qed.

Lemma exec_malloc_some s n :
  mem_avail s = S n →
  ∃ p, p ≠ NULL ∧ cell_at s p = None ∧
       exec malloc s [] p (set_heap <[p := Uninit]> (set_mem_avail (λ _, n) s)).
Proof.
  intros Hmem.
  pose proof (is_fresh ({[NULL]} ∪ dom (heap s))) as Hfresh.
  exists (fresh ({[NULL]} ∪ dom (heap s))). split_and!.
  - set_solver.
  - unfold cell_at. destruct (_ =? NULL); [done|].
    apply not_elem_of_dom. set_solver.
  - unfold exec, malloc. by rewrite Hmem.
Qed.

(** With storage left, [route_call] for a call of a connection in the
    table runs to its end and returns 1. *)
Lemma route_call_runs callid call s conn ms :
  fifo s conn ms → routes_to s call = Some conn → mem_avail s ≠ 0%nat →
  ∃ t s', exec (route_call callid call) s t 1 s'.
Proof.
  intros (c & Hc & Hq & Hnd) Hroute Hmem.
  pose proof (cell_at_not_null _ _ _ Hc) as Hnn.
  apply routes_to_exec in Hroute.
  destruct (mem_avail s) as [|n] eqn:Hn; [done|].
  destruct (exec_malloc_some _ _ Hn) as (p & Hp & Hfresh & Hmalloc).
  assert (Hpc : p ≠ conn) by (intros ->; congruence).
  set (s1 := set_heap <[p := Uninit]> (set_mem_avail (λ _, n) s)) in *.
  set (s2 := set_heap <[p := Msg {| m_callid := callid; m_call := call |}]> s1).
  set (c1 := set_msg_queue (c_msg_queue c ++ [p]) c).
  set (s3 := set_heap <[conn := Conn c1]> s2).
  assert (Hc2 : cell_at s2 conn = Some (Conn c)).
  { unfold s2, s1. by rewrite !cell_at_insert_ne. }
  assert (Hc3 : cell_at s3 conn = Some (Conn c1)) by by apply cell_at_insert_eq.
  assert (Hend : ∃ t s',
    exec (c ← load_conn conn;
          (if negb (c_active c)
           then update_conn conn (set_conn_active true);;
                psthread_add_ready (c_ptid c)
           else mret tt);;
          mret 1) s3 t 1 s').
  { destruct (c_active c) eqn:Hact.
    - eexists _, _.
      eapply exec_bind_eq; [by apply exec_load_conn| |reflexivity].
      change (c_active c1) with (c_active c). rewrite Hact. cbn [negb].
      eapply exec_bind_eq; [apply exec_ret|apply exec_ret|reflexivity].
    - eexists _, _.
      eapply exec_bind_eq; [by apply exec_load_conn| |reflexivity].
      change (c_active c1) with (c_active c). rewrite Hact. cbn [negb].
      eapply exec_bind_eq; [|apply exec_ret|reflexivity].
      eapply exec_bind_eq;
        [by apply exec_update_conn|apply exec_emit|reflexivity]. }
  destruct Hend as (t & s' & Hend).
  exists t, s'. unfold route_call.
  eapply exec_bind_eq; [exact Hroute| |reflexivity].
  destruct (Z.eqb_spec conn NULL); [done|].
  eapply exec_bind_eq; [exact Hmalloc| |reflexivity].
  eapply exec_bind_eq; [eapply exec_store_cell| |reflexivity].
  { by apply cell_at_insert_eq. }
  { done. }
  eapply exec_bind_eq; [by apply exec_update_conn|exact Hend|reflexivity].
Qed.

(** With a call waiting, [async_get_call] runs to its end without
    yielding. *)
Lemma async_get_call_runs yield s conn m ms :
  PS_connection s = conn → fifo s conn (m :: ms) →
  ∃ t r s', exec (async_get_call yield) s t r s'.
Proof.
  intros HPS (c & Hc & Hq & Hnd).
  pose proof (cell_at_not_null _ _ _ Hc) as Hnn.
  pose proof (queued_not_conn _ _ _ _ _ Hq Hc) as Hnotin.
  destruct (c_msg_queue c) as [|msg rest] eqn:Hqueue; [inversion Hq|].
  inversion Hq as [|? ? ? ? Hmsg Hrest]; subst.
  assert (Hmc : msg ≠ PS_connection s) by (intros ->; set_solver).
  eexists _, _, _. unfold async_get_call.
  eapply exec_bind_eq; [apply exec_get| |reflexivity]. cbn zeta.
  eapply exec_bind_eq; [by apply exec_load_conn| |reflexivity].
  rewrite Hqueue, bool_decide_eq_false_2 by done.
  eapply exec_bind_eq; [apply exec_ret| |reflexivity].
  eapply exec_bind_eq; [by apply exec_load_conn| |reflexivity].
  rewrite Hqueue.
  eapply exec_bind_eq; [by apply exec_update_conn| |reflexivity].
  eapply exec_bind_eq; [apply exec_load_msg| |reflexivity].
  { rewrite cell_at_insert_ne by done. exact Hmsg. }
  eapply exec_bind_eq; [apply exec_free|apply exec_ret|reflexivity].
Qed.

(** C5.  Calls routed to a connection reach its fibril in the order in
    which [route_call] queued them.  Over any schedule of the manager and
    the fibril, what [async_get_call] has returned, followed by what is
    still queued, is what was queued at the start followed by the calls
    routed to the connection, in the order of their routing.  Step by
    step: [route_call], with storage left, puts a call of the connection
    at the tail of its queue, and [async_get_call], with a call waiting,
    returns the head of the queue and leaves the rest. *)
Theorem calls_delivered_in_enqueue_order
    (conn : Z) (s : store) (ms : list msg_t) :
  PS_connection s = conn →
  fifo s conn ms →
  (∀ acts t delivered s',
     run acts s = (t, Ok delivered s') →
     ∃ ms', fifo s' conn ms' ∧
            delivered ++ map entry ms'
              = map entry ms ++ to_conn s conn (calls_of acts))
  ∧ (∀ callid call,
       routes_to s call = Some conn → mem_avail s ≠ 0%nat →
       ∃ t s', route_call callid call s = (t, Ok 1 s') ∧
               fifo s' conn (ms ++ [{| m_callid := callid; m_call := call |}]))
  ∧ (∀ yield m ms0,
       ms = m :: ms0 →
       ∃ t s', async_get_call yield s = (t, Ok (entry m) s') ∧
               fifo s' conn ms0).
Proof.
  intros HPS Hfifo. split_and!.
  - intros acts. revert s ms HPS Hfifo.
    induction acts as [|[callid call|during] acts IH];
      intros s ms HPS Hfifo t delivered s' Hrun; cbn [run] in Hrun.
    + injection Hrun as <- <- <-. exists ms. cbn. by rewrite app_nil_r.
    + change (exec (route_call callid call;; run acts) s t delivered s') in Hrun.
      apply exec_bind_inv in Hrun as (t1 & r & s1 & t2 & H1 & H2 & ->).
      destruct (route_call_fifo _ _ _ _ _ _ _ _ Hfifo H1)
        as (Hf1 & Hsame1 & HPS1).
      destruct (IH s1 _ ltac:(congruence) Hf1 t2 delivered s' H2)
        as (ms' & Hf' & Heq).
      exists ms'. split; [done|].
      rewrite Heq, (to_conn_same _ _ _ _ Hsame1), map_app, <- app_assoc.
      f_equal. cbn [calls_of flat_map app]. unfold to_conn.
      rewrite filter_cons. cbn [snd].
      by destruct (decide (routes_to s call = Some conn)).
    + change (exec (r ← fibril_get during; rs ← run acts; mret (r :: rs))
                   s t delivered s') in Hrun.
      apply exec_bind_inv in Hrun as (t1 & r & s1 & t2 & H1 & H2 & ->).
      apply exec_bind_inv in H2 as (t3 & rs & s3 & t4 & H3 & H4 & ->).
      destruct (exec_ret_inv _ _ _ _ _ H4) as (-> & -> & ->).
      destruct (fibril_get_fifo _ _ _ _ _ _ _ HPS Hfifo H1)
        as (ms1 & Hf1 & Hms1 & Hsame1 & HPS1).
      destruct (IH s1 _ ltac:(congruence) Hf1 t3 rs s3 H3)
        as (ms' & Hf' & Heq).
      exists ms'. split; [done|].
      cbn [app calls_of flat_map]. unfold to_conn in *. rewrite filter_app.
      rewrite app_assoc, <- Hms1. cbn [app]. f_equal.
      rewrite Heq. f_equal. by apply to_conn_same.
  - intros callid call Hroute Hmem.
    destruct (route_call_runs callid call _ _ _ Hfifo Hroute Hmem)
      as (t & s' & Hex).
    exists t, s'. split; [exact Hex|].
    destruct (route_call_fifo _ _ _ _ _ _ _ _ Hfifo Hex) as (Hf & _ & _).
    by rewrite decide_True in Hf.
  - intros yield m ms0 ->.
    destruct (async_get_call_runs yield _ _ _ _ HPS Hfifo) as (t & r & s' & Hex).
    destruct (async_get_call_fifo _ _ _ _ _ _ _ HPS Hfifo Hex)
      as (-> & Hf & _ & _).
    by exists t, s'.
Qed.


End props.

(** *** Concrete runs *)

#[local] Existing Instance sample_errno.
#[local] Existing Instance sample_env.

(** C2.  With nothing left to allocate, [route_call] for a call of the
    connection [16] and [async_send_2] both store through the [NULL] that
    [malloc] returns, where [async_new_connection] answers [ENOMEM]. *)
Theorem allocation_failure_dereferences_null :
  route_call 7 sample_call sample_store_full = ([], Fault NullDeref)
  ∧ async_send_2 1 1024 0 0 80 sample_store_full = ([], Fault NullDeref)
  ∧ async_new_connection 5 sample_call 4096 sample_store_full
    = ([EvAnswerFast 5 ENOMEM 0 0], Ok NULL sample_store_full).
Proof.
  split_and!.
  - by apply malloc_result_not_checked with (conn := 16).
  - by apply malloc_result_not_checked.
  - by apply async_new_connection_out_of_memory.
Qed.



(** The connection [16] of the sample store is in the table and the call
    [7] waits in its FIFO when the default handler returns: the fibril
    ends in the read of the freed connection, and the call [7] is never
    answered. *)
Lemma connection_thread_reads_freed_connection_witness :
  c_msg_queue sample_conn = [32] ∧
  cell_at sample_store 32 = Some (Msg sample_msg) ∧
  m_callid sample_msg = 7 ∧
  connection_thread 16 sample_store
    = ([EvAnswerFast 5 ENOENT 0 0] ++ [EvHashRemove 48; EvFree 16],
       Fault UseAfterFree).
Proof.
  split_and!; [reflexivity..|].
  apply (connection_thread_reads_freed_connection 16 sample_store sample_store
           sample_conn sample_conn [EvAnswerFast 5 ENOENT 0 0]).
  - reflexivity.
  - reflexivity.
  - reflexivity.
  - reflexivity.
Defined.

Lemma async_wait_timeout_outcomes_witness :
  ∃ s1, async_wait_timeout (mret tt) 64 112 1000 sample_store
          = ([], Ok ETIMEOUT s1)
        ∧ released s1 = [].
Proof.
  destruct (async_wait_timeout_outcomes 64 112 1000 sample_store sample_amsg
              eq_refl) as [_ Hblocks].
  destruct Hblocks as (s1 & m1 & (Hm1 & Hd1 & _ & _ & _ & _ & Hrel) & Hresume).
  - reflexivity.
  - intros p Hp. apply list_elem_of_In in Hp. destruct Hp.
  - exists s1. split; [|exact Hrel].
    apply (Hresume (mret tt : proc unit) [] s1 m1 eq_refl Hm1). exact Hd1.
Defined.

Lemma reply_received_writes_before_done_witness :
  ∃ t s',
    async_wait_for (reply_received 64 (-7) 96) 64 112 sample_store
      = (t, Ok tt s') ∧
    cell_at s' 112 = Some (Word (2 ^ 64 - 7)) ∧
    cell_at s' 80 = Some (Call sample_answer).
Proof.
  destruct (reply_received_writes_before_done 64 (-7) 96 sample_store
              sample_amsg sample_answer eq_refl eq_refl eq_refl)
    as [_ Hwait].
  destruct (Hwait 112 0 eq_refl) as (t & s' & Hrun & Hword & Hcall).
  - intros _. by exists sample_call.
  - exists t, s'. split_and!; [exact Hrun|exact Hword|].
    apply Hcall. discriminate.
Defined.

(** A schedule for the connection [16]: the fibril takes the call that is
    waiting; it asks again and has to wait while the manager routes the
    calls [8] and [9]; the manager routes the call [10]; the fibril asks a
    third time. *)
Definition sample_schedule : list action :=
  [GetCall []; GetCall [(8, sample_call); (9, sample_call)];
   Route 10 sample_call; GetCall []].

Lemma sample_schedule_runs :
  ∃ t s', run sample_schedule sample_store
          = (t, Ok [(7, sample_call); (8, sample_call); (9, sample_call)] s').
Proof. eexists _, _. vm_compute. reflexivity. Qed.

Lemma calls_delivered_in_enqueue_order_witness :
  ∃ s' ms',
    fifo s' 16 ms' ∧
    [(7, sample_call); (8, sample_call); (9, sample_call)] ++ map entry ms'
      = map entry [sample_msg]
        ++ to_conn sample_store 16 (calls_of sample_schedule).
Proof.
  destruct sample_schedule_runs as (t & s' & Hrun).
  exists s'.
  destruct (calls_delivered_in_enqueue_order 16 sample_store [sample_msg]
              eq_refl) as [Hsched _].
  - exists sample_conn. split_and!; [reflexivity|repeat constructor|].
    apply NoDup_singleton.
  - exact (Hsched sample_schedule t _ s' Hrun).
Defined.


End AsyncProps.

Module UdpProps.
Import Udp.

Section props.
Context `{Errno} `{Env}.

(** *** Loads and stores *)

Lemma udp_cell_at_not_null s p c : cell_at s p = Some c → p ≠ NULL.
Proof. unfold cell_at. destruct (Z.eqb_spec p NULL); [discriminate|done]. Qed.

Lemma udp_cell_at_insert_eq s p c :
  p ≠ NULL → cell_at (set_heap <[p := c]> s) p = Some c.
Proof.
  intros Hp. unfold cell_at. destruct (Z.eqb_spec p NULL); [done|].
  cbn. apply lookup_insert_eq.
Qed.

Lemma udp_cell_at_insert_ne s p q c :
  p ≠ q → cell_at (set_heap <[p := c]> s) q = cell_at s q.
Proof.
  intros Hp. unfold cell_at. destruct (q =? NULL); [done|].
  cbn. by apply lookup_insert_ne.
Qed.

Lemma udp_exec_deref p c s : cell_at s p = Some c → exec (deref p) s [] c s.
Proof. intros Hc. unfold exec, deref. by rewrite Hc. Qed.

Lemma udp_exec_deref_inv p s t c s' :
  exec (deref p) s t c s' → t = [] ∧ s' = s ∧ cell_at s p = Some c.
Proof.
  unfold exec, deref. destruct (cell_at s p); [|discriminate].
  by intros [= <- <- <-].
Qed.

Lemma udp_exec_load_assoc p a s :
  cell_at s p = Some (Assoc a) → exec (load_assoc p) s [] a s.
Proof.
  intros Ha. unfold load_assoc.
  eapply exec_bind_eq; [by apply udp_exec_deref|apply exec_ret|traces].
Qed.

Lemma udp_exec_load_assoc_inv p s t a s' :
  exec (load_assoc p) s t a s' →
  t = [] ∧ s' = s ∧ cell_at s p = Some (Assoc a).
Proof.
  unfold load_assoc. intros Hex.
  apply exec_bind_inv in Hex as (t1 & c1 & s1 & t2 & H1 & H2 & ->).
  apply udp_exec_deref_inv in H1 as (-> & -> & Hc).
  destruct c1; try discriminate H2.
  destruct (exec_ret_inv _ _ _ _ _ H2) as (-> & -> & ->). done.
Qed.

Lemma udp_exec_load_rqe_inv p s t r s' :
  exec (load_rqe p) s t r s' →
  t = [] ∧ s' = s ∧ cell_at s p = Some (Rqe r).
Proof.
  unfold load_rqe. intros Hex.
  apply exec_bind_inv in Hex as (t1 & c1 & s1 & t2 & H1 & H2 & ->).
  apply udp_exec_deref_inv in H1 as (-> & -> & Hc).
  destruct c1; try discriminate H2.
  destruct (exec_ret_inv _ _ _ _ _ H2) as (-> & -> & ->). done.
Qed.

Lemma udp_exec_update_assoc p f a s :
  cell_at s p = Some (Assoc a) →
  exec (update_assoc p f) s [] tt (set_heap <[p := Assoc (f a)]> s).
Proof.
  intros Ha. unfold update_assoc.
  eapply exec_bind_eq; [by apply udp_exec_load_assoc|apply exec_modify|traces].
Qed.

Lemma udp_exec_update_assoc_inv p f s t s' :
  exec (update_assoc p f) s t tt s' →
  ∃ a, cell_at s p = Some (Assoc a) ∧ t = [] ∧
       s' = set_heap <[p := Assoc (f a)]> s.
Proof.
  unfold update_assoc. intros Hex.
  apply exec_bind_inv in Hex as (t1 & a & s1 & t2 & H1 & H2 & ->).
  apply udp_exec_load_assoc_inv in H1 as (-> & -> & Ha).
  destruct (exec_det _ _ _ _ _ _ _ _ H2 (exec_modify _ _)) as (-> & _ & ->).
  eauto.
Qed.

(** *** Sending *)

(** The endpoint pair [udp_assoc_send] works on: the identity of the
    association with the remote endpoint overridden when one is given. *)
Definition effective (a : udp_assoc_t) (remote : option inet_ep_t) : inet_ep2_t :=
  match remote with
  | Some r => set_remote r (ident a)
  | None => ident a
  end.

(** C7.  [udp_assoc_send] returns [EINVAL] when the remote address it is
    to send to is the wildcard, when the remote port is the wildcard, or
    when the remote and the local address are of different versions; it
    has then made no call at all: no PDU is encoded, nothing is
    transmitted, and the store is as it was. *)
Theorem udp_assoc_send_rejects
    (assoc : Z) (remote : option inet_ep_t) (msg : Z) (s : store) (a : udp_assoc_t) :
  cell_at s assoc = Some (Assoc a) →
  inet_addr_is_any (ep_addr (Udp.remote (effective a remote))) = true
  ∨ port (Udp.remote (effective a remote)) = inet_port_any
  ∨ version (ep_addr (Udp.remote (effective a remote)))
    ≠ version (ep_addr (local (effective a remote))) →
  udp_assoc_send assoc remote msg s = ([], Ok EINVAL s).
Proof.
  intros Ha Hbad. as_exec. unfold udp_assoc_send.
  eapply exec_bind_eq; [by apply udp_exec_load_assoc| |traces].
  cbn zeta. fold (effective a remote).
  destruct (inet_addr_is_any _) eqn:Hany; cbn [orb]; [apply exec_ret|].
  destruct (Z.eqb_spec (port (Udp.remote (effective a remote))) inet_port_any)
    as [Hport|Hport]; [apply exec_ret|].
  destruct Hbad as [Hbad|[Hbad|Hbad]]; [done|done|].
  rewrite bool_decide_eq_false_2 by done. apply exec_ret.
Qed.

(** C10.  [udp_assoc_send] returns with the store as it found it, whatever
    the override and whatever the outcome: the association, its identity
    included, is the one it was given. *)
Theorem udp_assoc_send_leaves_assoc
    (assoc : Z) (remote : option inet_ep_t) (msg : Z) (s : store) (a : udp_assoc_t) :
  cell_at s assoc = Some (Assoc a) →
  ∃ t rc s',
    udp_assoc_send assoc remote msg s = (t, Ok rc s') ∧
    s' = s ∧ cell_at s' assoc = Some (Assoc a) ∧
    (rc = EOK ∨ rc = EINVAL ∨ rc = ENOMEM ∨ rc = EIO).
Proof.
  intros Ha.
  assert (Hrun : ∃ t rc, exec (udp_assoc_send assoc remote msg) s t rc s ∧
                         (rc = EOK ∨ rc = EINVAL ∨ rc = ENOMEM ∨ rc = EIO)).
  { unfold udp_assoc_send.
    destruct (inet_addr_is_any (ep_addr (Udp.remote (effective a remote)))
              || (port (Udp.remote (effective a remote)) =? inet_port_any))
      eqn:Hany.
    { eexists _, EINVAL. split; [|eauto].
      eapply exec_bind_eq; [by apply udp_exec_load_assoc| |traces].
      cbn zeta. fold (effective a remote). rewrite Hany. apply exec_ret. }
    destruct (negb (bool_decide
                (version (ep_addr (Udp.remote (effective a remote)))
                 = version (ep_addr (local (effective a remote)))))) eqn:Hver.
    { eexists _, EINVAL. split; [|eauto].
      eapply exec_bind_eq; [by apply udp_exec_load_assoc| |traces].
      cbn zeta. fold (effective a remote). rewrite Hany, Hver. apply exec_ret. }
    destruct (pdu_encode_result (effective a remote) msg) as [rc pdu] eqn:Henc.
    assert (Henc' : exec (udp_pdu_encode (effective a remote) msg) s
                      [EvPduEncode (effective a remote) msg] (rc, pdu) s).
    { unfold udp_pdu_encode. rewrite Henc.
      eapply exec_bind_eq; [apply exec_emit|apply exec_ret|reflexivity]. }
    destruct (negb (rc =? EOK)) eqn:Hrc.
    { eexists _, ENOMEM. split; [|eauto].
      eapply exec_bind_eq; [by apply udp_exec_load_assoc| |traces].
      cbn zeta. fold (effective a remote). rewrite Hany, Hver.
      eapply exec_bind_eq; [exact Henc'| |reflexivity].
      cbn beta iota. rewrite Hrc. apply exec_ret. }
    assert (Htx' : exec (udp_transmit_pdu pdu) s [EvTransmit pdu]
                     (transmit_result pdu) s).
    { unfold udp_transmit_pdu.
      eapply exec_bind_eq; [apply exec_emit|apply exec_ret|reflexivity]. }
    destruct (negb (transmit_result pdu =? EOK)) eqn:Htx.
    - eexists _, EIO. split; [|eauto 6].
      eapply exec_bind_eq; [by apply udp_exec_load_assoc| |traces].
      cbn zeta. fold (effective a remote). rewrite Hany, Hver.
      eapply exec_bind_eq; [exact Henc'| |reflexivity].
      cbn beta iota. rewrite Hrc.
      eapply exec_bind_eq; [exact Htx'| |reflexivity].
      eapply exec_bind_eq; [apply exec_emit| |reflexivity].
      rewrite Htx. apply exec_ret.
    - eexists _, EOK. split; [|eauto 6].
      eapply exec_bind_eq; [by apply udp_exec_load_assoc| |traces].
      cbn zeta. fold (effective a remote). rewrite Hany, Hver.
      eapply exec_bind_eq; [exact Henc'| |reflexivity].
      cbn beta iota. rewrite Hrc.
      eapply exec_bind_eq; [exact Htx'| |reflexivity].
      eapply exec_bind_eq; [apply exec_emit| |reflexivity].
      rewrite Htx. apply exec_ret. }
  destruct Hrun as (t & rc & Hex & Hrc). exists t, rc, s. done.
Qed.

(** *** Reset *)

(** The association [assoc] has been reset. *)
Definition is_reset (s : store) (assoc : Z) : Prop :=
  ∃ a, cell_at s assoc = Some (Assoc a) ∧ reset a = true.

(** A computation that never takes a reset back. *)
Definition keeps_reset {A} (m : proc A) : Prop :=
  ∀ assoc s t a s', exec m s t a s' → is_reset s assoc → is_reset s' assoc.

Lemma keeps_reset_ret {A} (a : A) : keeps_reset (mret a).
Proof. intros assoc s t b s' Hex. by destruct (exec_ret_inv _ _ _ _ _ Hex) as (_ & _ & ->). Qed.

Lemma keeps_reset_bind {A B} (m : proc A) (k : A → proc B) :
  keeps_reset m → (∀ a, keeps_reset (k a)) → keeps_reset (m ≫= k).
Proof.
  intros Hm Hk assoc s t b s' Hex Hreset.
  apply exec_bind_inv in Hex as (t1 & a & s1 & t2 & H1 & H2 & ->).
  eapply Hk; [exact H2|]. eapply Hm; eauto.
Qed.

Lemma keeps_reset_fail {A} f : keeps_reset (fail f : proc A).
Proof. intros assoc s t a s' Hex. discriminate Hex. Qed.

Lemma keeps_reset_emit e : keeps_reset (emit e : proc unit).
Proof.
  intros assoc s t a s' Hex.
  by destruct (exec_det _ _ _ _ _ _ _ _ Hex (exec_emit _ _)) as (_ & _ & ->).
Qed.

Lemma keeps_reset_get : keeps_reset (get : proc store).
Proof.
  intros assoc s t a s' Hex.
  by destruct (exec_det _ _ _ _ _ _ _ _ Hex (exec_get _)) as (_ & _ & ->).
Qed.

Lemma keeps_reset_modify (g : store → store) :
  (∀ s p, cell_at (g s) p = cell_at s p) → keeps_reset (modify g : proc unit).
Proof.
  intros Hg assoc s t a s' Hex (a0 & Ha0 & Hr).
  destruct (exec_det _ _ _ _ _ _ _ _ Hex (exec_modify _ _)) as (_ & _ & ->).
  exists a0. by rewrite Hg.
Qed.

Lemma keeps_reset_load_assoc p : keeps_reset (load_assoc p).
Proof.
  intros assoc s t a s' Hex. by apply udp_exec_load_assoc_inv in Hex as (_ & -> & _).
Qed.

Lemma keeps_reset_load_rqe p : keeps_reset (load_rqe p).
Proof.
  intros assoc s t a s' Hex. by apply udp_exec_load_rqe_inv in Hex as (_ & -> & _).
Qed.

Lemma keeps_reset_update_assoc p f :
  (∀ a, reset a = true → reset (f a) = true) → keeps_reset (update_assoc p f).
Proof.
  intros Hf assoc s t [] s' Hex (a0 & Ha0 & Hr).
  apply udp_exec_update_assoc_inv in Hex as (a & Ha & -> & ->).
  destruct (decide (p = assoc)) as [->|Hne].
  - exists (f a). rewrite udp_cell_at_insert_eq by by eapply udp_cell_at_not_null.
    split; [done|]. apply Hf. congruence.
  - exists a0. by rewrite udp_cell_at_insert_ne.
Qed.

Lemma keeps_reset_update_rqe p f : keeps_reset (update_rqe p f).
Proof.
  intros assoc s t [] s' Hex (a0 & Ha0 & Hr). unfold update_rqe in Hex.
  apply exec_bind_inv in Hex as (t1 & r & s1 & t2 & H1 & H2 & ->).
  apply udp_exec_load_rqe_inv in H1 as (-> & -> & Hp).
  destruct (exec_det _ _ _ _ _ _ _ _ H2 (exec_modify _ _)) as (_ & _ & ->).
  exists a0. rewrite udp_cell_at_insert_ne; [done|]. intros ->. congruence.
Qed.

Lemma keeps_reset_calloc zero : keeps_reset (calloc zero).
Proof.
  intros assoc s t p s' Hex (a0 & Ha0 & Hr). unfold exec, calloc in Hex.
  destruct (mem_avail s) as [|n].
  - injection Hex as <- <- <-. by exists a0.
  - injection Hex as <- <- <-. exists a0. split; [|done].
    pose proof (is_fresh ({[NULL]} ∪ dom (heap s))) as Hfresh.
    rewrite udp_cell_at_insert_ne; [done|]. intros Heq. apply Hfresh.
    rewrite Heq. apply elem_of_union_r, elem_of_dom.
    unfold cell_at in Ha0. destruct (assoc =? NULL); [discriminate|]. eauto.
Qed.

Ltac keeps_step :=
  first
    [ apply keeps_reset_ret
    | apply keeps_reset_fail
    | apply keeps_reset_emit
    | apply keeps_reset_get
    | apply keeps_reset_load_assoc
    | apply keeps_reset_load_rqe
    | apply keeps_reset_update_rqe
    | apply keeps_reset_calloc
    | apply keeps_reset_update_assoc; intros ? ?; assumption
    | apply keeps_reset_update_assoc; intros ? ?; reflexivity
    | apply keeps_reset_modify; reflexivity
    | apply keeps_reset_bind; [|intros ?]
    | match goal with
      | |- keeps_reset (if ?b then _ else _) => destruct b
      | |- keeps_reset (match ?x with _ => _ end) => destruct x
      end ].

Ltac keeps := repeat keeps_step.

Lemma keeps_reset_free p : keeps_reset (free p).
Proof. unfold free. keeps. Qed.

Lemma keeps_reset_flush fuel : ∀ assoc, keeps_reset (flush_rcv_queue fuel assoc).
Proof.
  induction fuel as [|fuel IH]; intros assoc; cbn [flush_rcv_queue].
  - keeps.
  - unfold udp_msg_delete. keeps; first [apply keeps_reset_free|apply IH].
Qed.

Lemma keeps_reset_delref assoc : keeps_reset (udp_assoc_delref assoc).
Proof.
  unfold udp_assoc_delref, atomic_predec, udp_assoc_free.
  keeps; first [apply keeps_reset_flush|apply keeps_reset_free].
Qed.

Lemma keeps_reset_run_op op : keeps_reset (run_op op).
Proof.
  destruct op; cbn [run_op];
    unfold udp_assoc_set_iplink, udp_assoc_set_remote, udp_assoc_set_local,
      udp_assoc_set_local_port, udp_assoc_send, udp_assoc_queue_msg,
      udp_assoc_reset, udp_assoc_addref, udp_assoc_delete, udp_assoc_add,
      udp_assoc_remove, atomic_inc, fibril_mutex_lock, fibril_mutex_unlock,
      fibril_condvar_broadcast, udp_pdu_encode, udp_transmit_pdu,
      udp_pdu_delete;
    keeps;
    first [apply keeps_reset_delref|apply keeps_reset_flush|apply keeps_reset_free].
Qed.

Lemma keeps_reset_run_ops ops : keeps_reset (run_ops ops).
Proof.
  induction ops as [|op ops IH]; cbn [run_ops]; keeps;
    first [apply keeps_reset_run_op|apply IH].
Qed.


Lemma exec_run_ops_app ops1 ops2 s t s' :
  exec (run_ops (ops1 ++ ops2)) s t tt s' →
  ∃ t1 s1 t2, exec (run_ops ops1) s t1 tt s1 ∧
              exec (run_ops ops2) s1 t2 tt s' ∧ t = t1 ++ t2.
Proof.
  revert s t. induction ops1 as [|op ops1 IH]; intros s t Hex.
  - exists [], s, t. split; [apply exec_ret|done].
  - cbn [app run_ops] in Hex.
    apply exec_bind_inv in Hex as (t1 & [] & s1 & t2 & H1 & H2 & ->).
    destruct (IH _ _ H2) as (t3 & s3 & t4 & H3 & H4 & ->).
    exists (t1 ++ t3), s3, t4. split_and!; [|done|by rewrite app_assoc].
    cbn [run_ops]. by eapply exec_bind.
Qed.

Lemma udp_assoc_reset_sets assoc s t s' :
  exec (udp_assoc_reset assoc) s t tt s' → is_reset s' assoc.
Proof.
  unfold udp_assoc_reset. intros Hex.
  apply exec_bind_inv in Hex as (t1 & [] & s1 & t2 & H1 & Hex & ->).
  destruct (exec_det _ _ _ _ _ _ _ _ H1 (exec_emit _ _)) as (_ & _ & ->).
  apply exec_bind_inv in Hex as (t3 & [] & s3 & t4 & H3 & Hex & ->).
  apply udp_exec_update_assoc_inv in H3 as (a & Ha & -> & ->).
  apply exec_bind_inv in Hex as (t5 & [] & s5 & t6 & H5 & Hex & ->).
  destruct (exec_det _ _ _ _ _ _ _ _ H5 (exec_emit _ _)) as (_ & _ & ->).
  destruct (exec_det _ _ _ _ _ _ _ _ Hex (exec_emit _ _)) as (_ & _ & ->).
  exists (set_reset true a). split; [|done].
  apply udp_cell_at_insert_eq. by eapply udp_cell_at_not_null.
Qed.

(** The events of [udp_assoc_reset] hold the broadcast. *)
Lemma udp_assoc_reset_broadcasts assoc s t s' :
  exec (udp_assoc_reset assoc) s t tt s' → broadcasts assoc t = true.
Proof.
  unfold udp_assoc_reset. intros Hex.
  apply exec_bind_inv in Hex as (t1 & [] & s1 & t2 & H1 & Hex & ->).
  destruct (exec_det _ _ _ _ _ _ _ _ H1 (exec_emit _ _)) as (-> & _ & ->).
  apply exec_bind_inv in Hex as (t3 & [] & s3 & t4 & H3 & Hex & ->).
  apply udp_exec_update_assoc_inv in H3 as (a & Ha & -> & ->).
  apply exec_bind_inv in Hex as (t5 & [] & s5 & t6 & H5 & Hex & ->).
  destruct (exec_det _ _ _ _ _ _ _ _ H5 (exec_emit _ _)) as (-> & _ & ->).
  destruct (exec_det _ _ _ _ _ _ _ _ Hex (exec_emit _ _)) as (-> & _ & ->).
  cbn. by rewrite Z.eqb_refl.
Qed.

Lemma broadcasts_app assoc t1 t2 :
  broadcasts assoc (t1 ++ t2) = broadcasts assoc t1 || broadcasts assoc t2.
Proof. apply existsb_app. Qed.

Lemma exec_woken_by assoc others s t s' :
  exec others s t tt s' →
  exec (woken_by assoc others) s t (broadcasts assoc t) s'.
Proof. unfold exec, woken_by. by intros ->. Qed.

Lemma exec_wait_for_message_reset sched assoc s :
  is_reset s assoc → exec (wait_for_message false sched assoc) s [] true s.
Proof.
  intros (a & Ha & Hr).
  destruct sched; cbn [wait_for_message].
  all: eapply exec_bind_eq; [by apply udp_exec_load_assoc| |traces].
  all: rewrite Hr, andb_false_r; apply exec_ret.
Qed.

(** A fibril that sleeps in [udp_assoc_recv] while the others run without
    a broadcast of the condition variable sleeps on. *)
Lemma exec_udp_assoc_recv_sleeps others assoc a t1 s1 s :
  cell_at s assoc = Some (Assoc a) → rcv_queue a = [] → reset a = false →
  exec others s t1 tt s1 → broadcasts assoc t1 = false →
  exec (udp_assoc_recv [others] assoc) s
       (EvLock (assoc_lock assoc) :: EvCondWait assoc :: t1) Waiting s1.
Proof.
  intros Ha Hq Hr Hothers Hquiet. unfold udp_assoc_recv.
  eapply exec_bind_eq; [apply exec_emit| |reflexivity].
  assert (Hwait : exec (wait_for_message false [others] assoc) s
                       (EvCondWait assoc :: t1) false s1).
  { cbn [wait_for_message].
    eapply exec_bind_eq; [by apply udp_exec_load_assoc| |reflexivity].
    rewrite Hq, Hr, bool_decide_eq_true_2 by done. cbn [negb andb].
    eapply exec_bind_eq; [apply exec_emit| |reflexivity].
    eapply exec_bind_eq; [apply exec_woken_by; exact Hothers| |].
    - rewrite Hquiet. cbn [negb wait_for_message]. apply exec_ret.
    - by rewrite app_nil_r. }
  eapply exec_bind_eq; [exact Hwait|apply exec_ret|].
  cbn. by rewrite !app_nil_r.
Qed.

(** [udp_assoc_recv] on an association that has been reset: it takes and
    gives back the lock, and returns [ENXIO] with the store untouched. *)
Lemma udp_assoc_recv_reset sched assoc s :
  is_reset s assoc →
  udp_assoc_recv sched assoc s
    = ([EvLock (assoc_lock assoc); EvUnlock (assoc_lock assoc)],
       Ok (Returned ENXIO None) s).
Proof.
  intros Hreset. pose proof Hreset as (a & Ha & Hr).
  as_exec. unfold udp_assoc_recv.
  eapply exec_bind_eq; [apply exec_emit| |reflexivity].
  eapply exec_bind_eq; [by apply exec_wait_for_message_reset| |reflexivity].
  cbn [negb].
  eapply exec_bind_eq; [by apply udp_exec_load_assoc| |reflexivity].
  rewrite Hr.
  eapply exec_bind_eq; [apply exec_emit|apply exec_ret|reflexivity].
Qed.



(** *** Receiving from the transport *)

Lemma exec_find_in epp l : ∀ s t assoc s1,
  exec (find_in epp l) s t assoc s1 → assoc ≠ NULL →
  ∃ a0, cell_at s assoc = Some (Assoc a0) ∧
        t = [EvAtomicInc assoc; EvUnlock assoc_list_lock] ∧
        s1 = set_heap <[assoc := Assoc (set_refcnt (refcnt a0 + 1) a0)]> s.
Proof.
  induction l as [|p rest IH]; intros s t assoc s1 Hex Hnn;
    cbn [find_in] in Hex.
  - by destruct (exec_ret_inv _ _ _ _ _ Hex) as (_ & -> & _).
  - apply exec_bind_inv in Hex as (t1 & a & s' & t2 & H1 & H2 & ->).
    apply udp_exec_load_assoc_inv in H1 as (-> & -> & Ha).
    cbn zeta in H2.
    destruct (port (local (ident a)) =? inet_port_any); [by apply IH|].
    destruct (udp_ep2_match epp (ident a)); [|by apply IH].
    apply exec_bind_inv in H2 as (t3 & [] & s3 & t4 & H3 & H4 & ->).
    unfold udp_assoc_addref, atomic_inc in H3.
    apply exec_bind_inv in H3 as (t5 & [] & s5 & t6 & H5 & H6 & ->).
    destruct (exec_det _ _ _ _ _ _ _ _ H5 (exec_emit _ _)) as (-> & _ & ->).
    apply udp_exec_update_assoc_inv in H6 as (a' & Ha' & -> & ->).
    rewrite Ha in Ha'. injection Ha' as <-.
    apply exec_bind_inv in H4 as (t7 & [] & s7 & t8 & H7 & H8 & ->).
    destruct (exec_det _ _ _ _ _ _ _ _ H7 (exec_emit _ _)) as (-> & _ & ->).
    destruct (exec_ret_inv _ _ _ _ _ H8) as (-> & -> & ->).
    by exists a.
Qed.

Lemma exec_find_ref epp s t assoc s1 :
  exec (udp_assoc_find_ref epp) s t assoc s1 → assoc ≠ NULL →
  ∃ a0, cell_at s assoc = Some (Assoc a0) ∧
        t = [EvLock assoc_list_lock; EvAtomicInc assoc;
             EvUnlock assoc_list_lock] ∧
        s1 = set_heap <[assoc := Assoc (set_refcnt (refcnt a0 + 1) a0)]> s.
Proof.
  unfold udp_assoc_find_ref. intros Hex Hnn.
  apply exec_bind_inv in Hex as (t1 & [] & s' & t2 & H1 & Hex & ->).
  destruct (exec_det _ _ _ _ _ _ _ _ H1 (exec_emit _ _)) as (-> & _ & ->).
  apply exec_bind_inv in Hex as (t3 & s0 & s3 & t4 & H3 & Hex & ->).
  destruct (exec_det _ _ _ _ _ _ _ _ H3 (exec_get _)) as (-> & -> & ->).
  apply exec_bind_inv in Hex as (t5 & p & s5 & t6 & H5 & Hex & ->).
  destruct (Z.eqb_spec p NULL) as [->|Hp].
  - apply exec_bind_inv in Hex as (t7 & [] & s7 & t8 & H7 & H8 & ->).
    by destruct (exec_ret_inv _ _ _ _ _ H8) as (_ & -> & _).
  - destruct (exec_ret_inv _ _ _ _ _ Hex) as (-> & -> & ->).
    destruct (exec_find_in _ _ _ _ _ _ H5 Hp) as (a0 & Ha0 & -> & ->).
    by exists a0.
Qed.

(** C9 (as the code has it).  On the path of [udp_assoc_received] where
    [udp_assoc_find_ref] finds an association, the reference it takes is
    held while the [recv_msg] callback runs: the callback is invoked
    first, and the [udp_assoc_delref] that drops the reference comes
    after the callback has returned. *)
Theorem udp_assoc_received_delref_after_callback
    (repp : inet_ep2_t) (msg assoc : Z) (s s1 s2 : store)
    (t1 t2 : list event) (a a2 : udp_assoc_t) :
  exec (udp_assoc_find_ref repp) s t1 assoc s1 →
  assoc ≠ NULL →
  cell_at s1 assoc = Some (Assoc a) →
  exec (recv_msg_code (cb a) (cb_arg a) repp msg) s1 t2 tt s2 →
  cell_at s2 assoc = Some (Assoc a2) →
  t1 = [EvLock assoc_list_lock; EvAtomicInc assoc; EvUnlock assoc_list_lock]
  ∧ ∃ rest,
      trace_of (udp_assoc_received repp msg s)
        = t1 ++ EvRecvMsg (cb a) (cb_arg a) repp msg
             :: t2 ++ EvAtomicPredec assoc :: rest.
Proof.
  intros Hfind Hnn Ha Hcb Ha2.
  destruct (exec_find_ref _ _ _ _ _ Hfind Hnn) as (a0 & _ & Ht1 & _).
  split; [done|].
  eexists. unfold udp_assoc_received.
  rewrite (trace_bind _ _ _ _ _ _ Hfind). f_equal.
  destruct (Z.eqb_spec assoc NULL); [done|].
  rewrite (trace_bind _ _ _ _ _ _ (udp_exec_load_assoc _ _ _ Ha)).
  rewrite (trace_bind _ _ _ _ _ _ (exec_emit _ _)). cbn [app]. f_equal.
  rewrite (trace_bind _ _ _ _ _ _ Hcb). f_equal.
  unfold udp_assoc_delref.
  assert (Hdec : exec (atomic_predec assoc) s2 [EvAtomicPredec assoc]
                   (refcnt a2 - 1)
                   (set_heap <[assoc := Assoc (set_refcnt (refcnt a2 - 1) a2)]> s2)).
  { unfold atomic_predec.
    eapply exec_bind_eq; [apply exec_emit| |reflexivity].
    eapply exec_bind_eq; [by apply udp_exec_update_assoc| |reflexivity].
    eapply exec_bind_eq;
      [apply udp_exec_load_assoc; by apply udp_cell_at_insert_eq
      |apply exec_ret|reflexivity]. }
  rewrite (trace_bind _ _ _ _ _ _ Hdec). cbn [app]. reflexivity.
Qed.


End props.

(** *** Concrete runs *)

#[local] Existing Instance sample_errno.
#[local] Existing Instance sample_udp_env.

Lemma udp_assoc_send_rejects_witness :
  udp_assoc_send 16 None 900 sample_udp_store = ([], Ok EINVAL sample_udp_store).
Proof.
  apply (udp_assoc_send_rejects 16 None 900 sample_udp_store sample_assoc).
  - reflexivity.
  - left. reflexivity.
Defined.

Lemma udp_assoc_send_leaves_assoc_witness :
  ∃ t rc s',
    udp_assoc_send 16 (Some sample_peer) 900 sample_udp_store = (t, Ok rc s') ∧
    s' = sample_udp_store ∧ cell_at s' 16 = Some (Assoc sample_assoc) ∧
    (rc = EOK ∨ rc = EINVAL ∨ rc = ENOMEM ∨ rc = EIO).
Proof.
  apply (udp_assoc_send_leaves_assoc 16 (Some sample_peer) 900 sample_udp_store
           sample_assoc).
  reflexivity.
Defined.

(** The association is reset and a datagram is queued on it afterwards. *)
Lemma sample_reset_then_queue :
  ∃ t1 s1,
    exec (udp_assoc_reset 16;; run_ops [OpQueueMsg 16 sample_repp 900])
         sample_udp_store t1 tt s1
    ∧ ∃ a1 link, cell_at s1 16 = Some (Assoc a1) ∧ rcv_queue a1 = [link].
Proof.
  eexists _, _. split; [vm_compute; reflexivity|].
  eexists _, _. split; vm_compute; reflexivity.
Qed.

(** The association [16] is reset while nobody waits. *)
Lemma sample_reset_runs :
  ∃ s1,
    exec (run_ops [OpReset 16]) sample_udp_store
         [EvLock (assoc_lock 16); EvCondBroadcast 16; EvUnlock (assoc_lock 16)]
         tt s1.
Proof. eexists. vm_compute. reflexivity. Qed.


(** C9 (as claimed).  For the datagram that the association [16] matches,
    [udp_assoc_received] takes the reference, invokes the callback and
    only then drops the reference: the decrement does not come before the
    callback. *)
Lemma udp_assoc_received_callback_first :
  trace_of (udp_assoc_received sample_repp 900 sample_udp_store)
    = [EvLock assoc_list_lock; EvAtomicInc 16; EvUnlock assoc_list_lock;
       EvRecvMsg 4096 7 sample_repp 900; EvAtomicPredec 16]
  ∧ ¬ ∃ pre post,
        trace_of (udp_assoc_received sample_repp 900 sample_udp_store)
          = pre ++ EvRecvMsg 4096 7 sample_repp 900 :: post
        ∧ EvAtomicPredec 16 ∈ pre.
Proof.
  split; [reflexivity|].
  change (trace_of (udp_assoc_received sample_repp 900 sample_udp_store))
    with [EvLock assoc_list_lock; EvAtomicInc 16; EvUnlock assoc_list_lock;
          EvRecvMsg 4096 7 sample_repp 900; EvAtomicPredec 16].
  intros (pre & post & Heq & Hin).
  destruct pre as [|e1 [|e2 [|e3 [|e4 pre]]]]; try discriminate Heq.
  - injection Heq as <- <- <- _. apply list_elem_of_In in Hin.
    destruct Hin as [Hin|[Hin|[Hin|[]]]]; discriminate Hin.
  - injection Heq as _ _ _ _ Heq.
    destruct pre as [|e5 [|e6 pre]]; discriminate Heq.
Qed.

Lemma udp_assoc_received_delref_after_callback_witness :
  ∃ rest,
    trace_of (udp_assoc_received sample_repp 900 sample_udp_store)
      = [EvLock assoc_list_lock; EvAtomicInc 16; EvUnlock assoc_list_lock]
        ++ EvRecvMsg 4096 7 sample_repp 900 :: [] ++ EvAtomicPredec 16 :: rest.
Proof.
  refine (proj2 (udp_assoc_received_delref_after_callback sample_repp 900 16
            sample_udp_store
            (set_heap <[16 := Assoc (set_refcnt 3 sample_assoc)]> sample_udp_store)
            (set_heap <[16 := Assoc (set_refcnt 3 sample_assoc)]> sample_udp_store)
            _ [] (set_refcnt 3 sample_assoc) (set_refcnt 3 sample_assoc)
            _ _ _ _ _)).
  - reflexivity.
  - discriminate.
  - reflexivity.
  - reflexivity.
  - reflexivity.
Defined.


End UdpProps.

(** * More of the asynchronous library

    The manager's dispatch and its sweep of the timeout list, and how the
    functions of [async.c] work together. *)

Module AsyncFacts.
Import Async AsyncProps.


(** *** Time values *)

Lemma tv_gt_true (a b : timeval) :
  tv_gt a b = true ↔
  tv_sec b < tv_sec a ∨ (tv_sec a = tv_sec b ∧ tv_usec b < tv_usec a).
Proof.
  unfold tv_gt.
  destruct (Z.ltb_spec (tv_sec b) (tv_sec a)), (Z.eqb_spec (tv_sec a) (tv_sec b)),
    (Z.ltb_spec (tv_usec b) (tv_usec a)); cbn; split; try done; try lia; auto.
Qed.

Lemma tv_gt_false (a b : timeval) :
  tv_gt a b = false ↔
  tv_sec a < tv_sec b ∨ (tv_sec a = tv_sec b ∧ tv_usec a ≤ tv_usec b).
Proof.
  rewrite <- not_true_iff_false, tv_gt_true. lia.
Qed.

(** What is left in a [long] differs from the mathematical result by a
    multiple of [2 ^ 64], and such a multiple is lost again in the next
    operation. *)
Lemma long_wrap (a : Z) : ∃ k, long a = a + k * 2 ^ 64.
Proof.
  exists (- ((a + 2 ^ 63) `div` 2 ^ 64)). unfold long.
  pose proof (Z.div_mod (a + 2 ^ 63) (2 ^ 64)). lia.
Qed.

Lemma long_shift (x k : Z) : long (x + k * 2 ^ 64) = long x.
Proof.
  unfold long. f_equal.
  replace (x + k * 2 ^ 64 + 2 ^ 63) with (x + 2 ^ 63 + k * 2 ^ 64) by lia.
  apply Z_mod_plus_full.
Qed.

Lemma long_add_l (a b : Z) : long (long a + b) = long (a + b).
Proof.
  destruct (long_wrap a) as [k ->]. rewrite <- (long_shift (a + b) k).
  f_equal. lia.
Qed.

Lemma long_add_r (a b : Z) : long (a + long b) = long (a + b).
Proof. by rewrite Z.add_comm, long_add_l, Z.add_comm. Qed.

Lemma long_sub_l (a b : Z) : long (long a - b) = long (a - b).
Proof.
  destruct (long_wrap a) as [k ->]. rewrite <- (long_shift (a - b) k).
  f_equal. lia.
Qed.

Lemma long_mul_l (a b : Z) : long (long a * b) = long (a * b).
Proof.
  destruct (long_wrap a) as [k ->]. rewrite <- (long_shift (a * b) (k * b)).
  f_equal. lia.
Qed.

(** [tv_sub] gives the difference in microseconds as far as it fits a
    [long]. *)
Lemma tv_sub_long (a b : timeval) :
  tv_sub a b
    = long ((tv_usec a - tv_usec b) + (tv_sec a - tv_sec b) * 1000000).
Proof.
  unfold tv_sub. by rewrite long_mul_l, long_add_r, long_add_l.
Qed.

(** X1.  [tv_add] moves a time value on by exactly the microseconds it is
    given, as [tv_sub] measures the distance: also when it leaves
    [tv_usec] at a full second, also for a negative amount, and also when
    the seconds wrap around.  A positive amount gives a value that [tv_gt]
    finds later, as long as the seconds and the microseconds of the time
    value have room for the amount and a carry. *)
Theorem tv_sub_tv_add (tv : timeval) (usecs : Z) :
  in_long usecs →
  tv_sub (tv_add tv usecs) tv = usecs
  ∧ (0 < usecs →
     in_long (tv_sec tv) → in_long (tv_sec tv + usecs ÷ 1000000 + 1) →
     in_long (tv_usec tv) → in_long (tv_usec tv + 1000000) →
     tv_gt (tv_add tv usecs) tv = true).
Proof.
  intros Hu. pose proof (Z.quot_rem' usecs 1000000) as Hqr. split.
  - transitivity (long usecs); [|by apply long_id]. rewrite tv_sub_long.
    unfold tv_add. destruct tv as [sec usec]. cbn [tv_sec tv_usec].
    destruct (long_wrap (sec + usecs ÷ 1000000)) as [k1 ->].
    destruct (long_wrap (usec + Z.rem usecs 1000000)) as [k2 ->].
    destruct (1000000 <? usec + Z.rem usecs 1000000 + k2 * 2 ^ 64);
      cbn [tv_sec tv_usec].
    + destruct (long_wrap (sec + usecs ÷ 1000000 + k1 * 2 ^ 64 + 1)) as [k3 ->].
      destruct (long_wrap (usec + Z.rem usecs 1000000 + k2 * 2 ^ 64 - 1000000))
        as [k4 ->].
      rewrite <- (long_shift usecs (k2 + k4 + (k1 + k3) * 1000000)).
      f_equal. lia.
    + rewrite <- (long_shift usecs (k2 + k1 * 1000000)). f_equal. lia.
  - intros Hpos Hs Hs1 Hus Hus1. apply tv_gt_true.
    assert (0 ≤ Z.rem usecs 1000000 < 1000000) by (apply Z.rem_bound_pos; lia).
    assert (0 ≤ usecs ÷ 1000000) by (apply Z.quot_pos; lia).
    unfold tv_add, in_long in *. destruct tv as [sec usec].
    cbn [tv_sec tv_usec] in *.
    rewrite (long_id (sec + usecs ÷ 1000000)) by (unfold in_long; lia).
    rewrite (long_id (usec + Z.rem usecs 1000000)) by (unfold in_long; lia).
    destruct (Z.ltb_spec 1000000 (usec + Z.rem usecs 1000000));
      cbn [tv_sec tv_usec].
    + rewrite long_id by (unfold in_long; lia). lia.
    + lia.
Qed.

(** Without that room the seconds wrap around: one second after the
    last second of a [long] is the first one, which [tv_gt] finds
    earlier. *)
Lemma tv_add_wraps_seconds :
  let tv := {| tv_sec := 2 ^ 63 - 1; tv_usec := 0 |} in
  tv_add tv 1000000 = {| tv_sec := - 2 ^ 63; tv_usec := 0 |} ∧
  tv_gt (tv_add tv 1000000) tv = false ∧
  tv_sub (tv_add tv 1000000) tv = 1000000.
Proof. by vm_compute. Qed.

(** X2.  On normalized time values whose distance in microseconds fits a
    [long], [tv_gt] and [tv_sub] agree: the first is later than the second
    exactly when their difference is positive. *)
Theorem tv_gt_is_positive_tv_sub (a b : timeval) :
  normalized a → normalized b →
  in_long ((tv_sec a - tv_sec b) * 1000000 + (tv_usec a - tv_usec b)) →
  tv_gt a b = true ↔ 0 < tv_sub a b.
Proof.
  unfold normalized. intros Ha Hb Hfit.
  rewrite tv_sub_long, long_id, tv_gt_true; [lia|].
  by rewrite Z.add_comm.
Qed.

(** Past that distance the product in [tv_sub] wraps around: the first
    value is later, and the difference comes out negative. *)
Lemma tv_sub_wraps_product :
  let a := {| tv_sec := 2 ^ 44; tv_usec := 0 |} in
  let b := {| tv_sec := 0; tv_usec := 0 |} in
  normalized a ∧ normalized b ∧ tv_gt a b = true ∧ tv_sub a b < 0.
Proof. by vm_compute. Qed.

(** X3.  [tv_gt] is a strict total order on time values: no value is
    later than itself, later-than is transitive, and of two different
    values one is later than the other. *)
Theorem tv_gt_strict_total_order :
  (∀ a, tv_gt a a = false)
  ∧ (∀ a b c, tv_gt a b = true → tv_gt b c = true → tv_gt a c = true)
  ∧ (∀ a b, tv_gt a b = false → tv_gt b a = false → a = b).
Proof.
  split_and!.
  - intros a. apply tv_gt_false. lia.
  - intros a b c. rewrite !tv_gt_true. lia.
  - intros [s1 u1] [s2 u2]. rewrite !tv_gt_false. cbn. intros. f_equal; lia.
Qed.


(** *** The timeout list *)

Section facts.
Context {errno : Errno} {env : Env} {dispatch : Dispatch}.

#[local] Hint Resolve exec_psthread_get_id exec_gettimeofday : heap.
#[local] Hint Resolve exec_ret exec_get exec_modify exec_emit exec_load_amsg
  exec_load_msg exec_load_conn exec_load_call exec_update_amsg exec_update_conn
  exec_free exec_at_done cell_at_insert_eq cell_at_not_null : heap.

Definition tv_le (a b : timeval) : Prop := tv_gt a b = false.

Lemma tv_le_trans a b c : tv_le a b → tv_le b c → tv_le a c.
Proof. unfold tv_le. rewrite !tv_gt_false. lia. Qed.

Lemma tv_gt_le_trans a b c : tv_gt a b = true → tv_le a c → tv_gt c b = true.
Proof. unfold tv_le. rewrite !tv_gt_false, !tv_gt_true. lia. Qed.

Lemma tv_gt_tv_le a b : tv_gt a b = true → tv_le b a.
Proof. unfold tv_le. rewrite !tv_gt_false, !tv_gt_true. lia. Qed.

(** The message at [p] waits until [d]. *)
Definition expires_at (s : store) (p : Z) (d : timeval) : Prop :=
  ∃ a, cell_at s p = Some (Amsg a) ∧ am_expires a = d.

(** The timeout list holds outstanding messages in the order of their
    deadlines, the earliest first. *)
Definition sorted_timeouts (s : store) : Prop :=
  ∃ ds, Forall2 (expires_at s) (timeout_list s) ds ∧ StronglySorted tv_le ds.

Lemma exec_insert_sorted d msg : ∀ l ds s,
  Forall2 (expires_at s) l ds → StronglySorted tv_le ds →
  ∃ l1 l2 d1 d2,
    l = l1 ++ l2 ∧ ds = d1 ++ d2 ∧
    Forall2 (expires_at s) l1 d1 ∧ Forall2 (expires_at s) l2 d2 ∧
    exec (insert_before_later d msg l) s [] (l1 ++ msg :: l2) s ∧
    Forall (λ x, tv_le x d) d1 ∧ Forall (λ x, tv_gt x d = true) d2 ∧
    StronglySorted tv_le (d1 ++ d :: d2).
Proof.
  induction l as [|tmp rest IH]; intros ds s Hds Hsorted.
  - inversion Hds; subst. exists [], [], [], [].
    split_and!; [done..|apply exec_ret|done|done|repeat constructor].
  - inversion Hds as [|? dt ? dr (cur & Hcur & Hdt) Hrest]; subst.
    apply StronglySorted_inv in Hsorted as [Hsr Hall].
    cbn [insert_before_later].
    destruct (tv_gt (am_expires cur) d) eqn:Hgt.
    + exists [], (tmp :: rest), [], (am_expires cur :: dr).
      assert (Hlater : Forall (λ x, tv_gt x d = true) (am_expires cur :: dr)).
      { constructor; [done|]. eapply Forall_impl; [exact Hall|].
        intros x Hx. by eapply tv_gt_le_trans. }
      split_and!; [done..| | | |].
      * step. rewrite Hgt. apply exec_ret. traces.
      * done.
      * done.
      * cbn. constructor; [by constructor|].
        eapply Forall_impl; [exact Hlater|]. intros x. apply tv_gt_tv_le.
    + destruct (IH dr s Hrest Hsr)
        as (l1 & l2 & d1 & d2 & -> & -> & H1 & H2 & Hex & Hd1 & Hd2 & Hs).
      exists (tmp :: l1), l2, (am_expires cur :: d1), d2.
      apply Forall_app in Hall as [Hall1 Hall2].
      split_and!; [done|done| |done| | |done|].
      * constructor; [by exists cur|done].
      * step. rewrite Hgt. step. apply exec_ret. all: traces.
      * by constructor.
      * cbn. constructor; [done|].
        apply Forall_app. split; [done|]. by constructor.
Qed.

(** The effect of [insert_timeout] on a sorted list. *)
Lemma exec_insert_timeout_sorted msg m s :
  cell_at s msg = Some (Amsg m) → sorted_timeouts s →
  ∃ l1 l2,
    timeout_list s = l1 ++ l2 ∧
    exec (insert_timeout msg) s [] tt (set_timeout_list (λ _, l1 ++ msg :: l2) s) ∧
    sorted_timeouts (set_timeout_list (λ _, l1 ++ msg :: l2) s) ∧
    Forall (λ p, ∃ a, cell_at s p = Some (Amsg a)
                      ∧ tv_gt (am_expires a) (am_expires m) = false) l1 ∧
    Forall (λ p, ∃ a, cell_at s p = Some (Amsg a)
                      ∧ tv_gt (am_expires a) (am_expires m) = true) l2.
Proof.
  intros Hm (ds & Hds & Hsorted).
  destruct (exec_insert_sorted (am_expires m) msg _ _ _ Hds Hsorted)
    as (l1 & l2 & d1 & d2 & Hl & -> & H1 & H2 & Hex & Hd1 & Hd2 & Hs).
  exists l1, l2. split_and!; [done| | | |].
  - unfold insert_timeout. step. step. step. apply exec_modify. all: traces.
  - exists (d1 ++ am_expires m :: d2). split; [|done].
    cbn. apply Forall2_app; [done|]. constructor; [by exists m|done].
  - clear -H1 Hd1. induction H1 as [|p x l1 d1 (a & Ha & <-) _ IH]; [done|].
    apply Forall_cons in Hd1 as [? ?]. constructor; [by exists a|auto].
  - clear -H2 Hd2. induction H2 as [|p x l2 d2 (a & Ha & <-) _ IH]; [done|].
    apply Forall_cons in Hd2 as [? ?]. constructor; [by exists a|auto].
Qed.

(** *** The sweep of expired timeouts *)

(** What the sweep leaves of a message it fires. *)
Definition fired (a : amsg_t) : amsg_t :=
  set_active true (set_has_timeout false a).

(** The fibrils the sweep makes ready for the messages [l]: those that
    are parked. *)
Definition wakeups (s : store) (l : list Z) : list event :=
  flat_map (λ p, match cell_at s p with
                 | Some (Amsg a) =>
                     if am_active a then [] else [EvAddReady (am_ptid a)]
                 | _ => []
                 end) l.

Definition due (s : store) (now : timeval) (p : Z) : Prop :=
  ∃ a, cell_at s p = Some (Amsg a) ∧ tv_gt (am_expires a) now = false.

Definition not_due (s : store) (now : timeval) (l : list Z) : Prop :=
  match l with
  | [] => True
  | p :: _ => ∃ a, cell_at s p = Some (Amsg a) ∧ tv_gt (am_expires a) now = true
  end.

Lemma set_active_true_id a : am_active a = true → set_active true a = a.
Proof. destruct a. cbn. by intros ->. Qed.

Lemma unlink_notin p l : p ∉ l → unlink p l = l.
Proof.
  unfold unlink. induction l as [|q l IH]; [done|]. intros Hp.
  apply not_elem_of_cons in Hp as [Hne Hp].
  rewrite filter_cons_True by done. by rewrite IH.
Qed.

Lemma unlink_head p l : p ∉ l → unlink p (p :: l) = l.
Proof.
  intros Hp. unfold unlink. rewrite filter_cons_False by (intros ?; done).
  by apply unlink_notin.
Qed.

Lemma wakeups_frame s s' l :
  (∀ p, p ∈ l → cell_at s' p = cell_at s p) → wakeups s' l = wakeups s l.
Proof.
  induction l as [|p l IH]; [done|]. intros Hl. cbn.
  rewrite Hl by set_solver. f_equal. apply IH. intros q Hq. apply Hl. set_solver.
Qed.

Lemma set_heap_insert_twice p c c' (s : store) :
  set_heap <[p := c]> (set_heap <[p := c']> s) = set_heap <[p := c]> s.
Proof. unfold set_heap. cbn. f_equal. apply insert_insert_eq. Qed.

(** One turn of the loop, for a head that is due, and what follows it. *)
Lemma exec_fire_one cur a (k : proc unit) (s : store) t s' :
  cell_at s cur = Some (Amsg a) →
  exec k (set_heap <[cur := Amsg (fired a)]> (set_timeout_list (unlink cur) s))
       t tt s' →
  exec (modify (set_timeout_list (unlink cur));;
        update_amsg cur (set_has_timeout false);;
        amsg ← load_amsg cur;
        (if negb (am_active amsg)
         then update_amsg cur (set_active true);;
              psthread_add_ready (am_ptid amsg)
         else mret tt);;
        k)
       s (wakeups s [cur] ++ t) tt s'.
Proof.
  intros Ha Hk. pose proof (cell_at_not_null _ _ _ Ha) as Hnn.
  unfold wakeups. cbn [flat_map]. rewrite Ha, app_nil_r.
  destruct (am_active a) eqn:Hact.
  - step. eapply exec_bind_eq; [by apply (exec_update_amsg _ _ a)|cbn beta|].
    step. cbn [am_active set_has_timeout]. rewrite Hact. cbn [negb].
    step. unfold fired in Hk.
    rewrite (set_active_true_id (set_has_timeout false a)) in Hk by done.
    exact Hk. all: traces.
  - step. eapply exec_bind_eq; [by apply (exec_update_amsg _ _ a)|cbn beta|].
    step. cbn [am_active set_has_timeout]. rewrite Hact. cbn [negb].
    eapply exec_bind_eq; [|exact Hk|].
    + step. rewrite set_heap_insert_twice. apply exec_emit. traces.
    + traces.
    + traces.
    + traces.
    + traces.
Qed.

Lemma exec_fire_expired now : ∀ gone kept fuel s,
  timeout_list s = gone ++ kept → NoDup (gone ++ kept) →
  Forall (due s now) gone → not_due s now kept →
  (length (gone ++ kept) ≤ fuel)%nat →
  ∃ s',
    exec (fire_expired fuel now) s (wakeups s gone) tt s' ∧
    timeout_list s' = kept ∧
    (∀ p a, p ∈ gone → cell_at s p = Some (Amsg a) →
            cell_at s' p = Some (Amsg (fired a))) ∧
    (∀ p, p ∉ gone → cell_at s' p = cell_at s p) ∧
    released s' = released s ∧ mem_avail s' = mem_avail s ∧
    conn_hash_table s' = conn_hash_table s ∧ clock s' = clock s ∧
    self s' = self s.
Proof.
  induction gone as [|cur gone IH]; intros kept fuel s Hl Hnd Hdue Hkept Hfuel.
  - exists s. split_and!; try done; [|by intros ? ? ?%elem_of_nil].
    cbn in Hl. destruct fuel; cbn [fire_expired].
    + step. rewrite Hl. destruct kept as [|p kept]; [apply exec_ret|cbn in Hfuel; lia].
      traces.
    + step. rewrite Hl. destruct kept as [|p kept]; [apply exec_ret|].
      destruct Hkept as (a & Ha & Hgt). step. rewrite Hgt. apply exec_ret.
      all: traces.
  - destruct fuel as [|fuel]; [cbn in Hfuel; lia|].
    apply Forall_cons in Hdue as [(a & Ha & Hgt) Hdue].
    cbn in Hnd. apply NoDup_cons in Hnd as [Hcur Hnd].
    pose proof (cell_at_not_null _ _ _ Ha) as Hnn.
    set (s1 := set_heap <[cur := Amsg (fired a)]>
                 (set_timeout_list (unlink cur) s)).
    assert (Hframe : ∀ q, q ≠ cur → cell_at s1 q = cell_at s q).
    { intros q Hq. unfold s1. by rewrite cell_at_insert_ne. }
    assert (Hgone : ∀ q, q ∈ gone → q ≠ cur).
    { intros q Hq ->. apply Hcur. set_solver. }
    destruct (IH kept fuel s1)
      as (s' & Hex & Hl' & Hfired & Hrest & Hrel & Hmem & Htab & Hclk & Hself).
    { unfold s1. cbn. rewrite Hl. by apply unlink_head. }
    { done. }
    { apply Forall_forall. intros q Hq. rewrite Forall_forall in Hdue.
      destruct (Hdue q Hq) as (b & Hb & Hbgt). exists b.
      rewrite Hframe by auto. done. }
    { destruct kept as [|q kept]; [done|]. destruct Hkept as (b & Hb & Hbgt).
      exists b. rewrite Hframe; [done|]. intros ->. apply Hcur. set_solver. }
    { cbn in Hfuel. lia. }
    exists s'. split_and!; try done.
    + assert (wakeups s (cur :: gone) = wakeups s [cur] ++ wakeups s gone) as ->
        by (unfold wakeups; cbn [flat_map]; by rewrite app_nil_r).
      rewrite <- (wakeups_frame s s1 gone) by auto.
      cbn [fire_expired]. step. rewrite Hl. cbn [app]. step. rewrite Hgt.
      eapply exec_fire_one; [exact Ha|exact Hex]. all: traces.
    + intros p b [->|Hp]%elem_of_cons Hb.
      * rewrite Hrest by (intros ?; apply Hcur; set_solver).
        unfold s1. rewrite cell_at_insert_eq by done. congruence.
      * apply Hfired; [done|]. rewrite Hframe by auto. done.
    + intros p Hp. apply not_elem_of_cons in Hp as [Hne Hp].
      rewrite Hrest by done. by apply Hframe.
Qed.

Lemma exec_handle_expired_timeouts gone kept s :
  timeout_list s = gone ++ kept → NoDup (timeout_list s) →
  Forall (due s (clock s)) gone → not_due s (clock s) kept →
  ∃ s',
    exec handle_expired_timeouts s (wakeups s gone) tt s' ∧
    timeout_list s' = kept ∧
    (∀ p a, p ∈ gone → cell_at s p = Some (Amsg a) →
            cell_at s' p = Some (Amsg (fired a))) ∧
    (∀ p, p ∉ gone → cell_at s' p = cell_at s p) ∧
    released s' = released s ∧ mem_avail s' = mem_avail s ∧
    conn_hash_table s' = conn_hash_table s ∧ clock s' = clock s ∧
    self s' = self s.
Proof.
  intros Hl Hnd Hdue Hkept. rewrite Hl in Hnd.
  destruct (exec_fire_expired (clock s) gone kept (length (timeout_list s)) s)
    as (s' & Hex & Hrest); [done..|by rewrite Hl|].
  exists s'. split; [|done].
  unfold handle_expired_timeouts. step. step. exact Hex. all: traces.
Qed.

(** *** Waiting with a timeout *)

(** The message as [async_wait_timeout] parks it. *)
Definition parked (ptid : Z) (now : timeval) (timeout : Z) (m : amsg_t) : amsg_t :=
  set_expires (tv_add now timeout)
    (set_expires now (set_has_timeout true (set_active false (set_ptid ptid m)))).

(** [async_wait_timeout] up to its yield, for a message without a reply. *)
Lemma exec_wait_timeout_parks yield amsgid retval timeout m s s2 t r s' :
  cell_at s amsgid = Some (Amsg m) → am_done m = false →
  exec (insert_timeout amsgid)
       (set_heap <[amsgid := Amsg (parked (self s) (clock s) timeout m)]> s)
       [] tt s2 →
  exec (yield;;
        m ← load_amsg amsgid;
        if negb (am_done m) then mret ETIMEOUT
        else at_done amsgid retval;; mret 0) s2 t r s' →
  exec (async_wait_timeout yield amsgid retval timeout) s t r s'.
Proof.
  intros Hm Hd Hins Hrest. pose proof (cell_at_not_null _ _ _ Hm) as Hnn.
  unfold async_wait_timeout. step. rewrite Hd.
  step. step. step. step. step. step. step.
  rewrite !set_heap_insert_twice. cbn [am_expires set_expires].
  eapply exec_bind_eq; [exact Hins|exact Hrest|]. all: traces.
Qed.

Lemma sorted_timeouts_frame s s' :
  timeout_list s' = timeout_list s →
  (∀ p, p ∈ timeout_list s → cell_at s' p = cell_at s p) →
  sorted_timeouts s → sorted_timeouts s'.
Proof.
  intros Hl Hcells (ds & Hds & Hsorted). exists ds. split; [|done].
  rewrite Hl. clear Hl Hsorted. revert Hcells.
  generalize dependent (timeout_list s). intros l Hds.
  induction Hds as [|p d l ds (a & Ha & Hd) _ IH]; intros Hcells; constructor.
  - exists a. rewrite Hcells by set_solver. done.
  - apply IH. intros q Hq. apply Hcells. set_solver.
Qed.

(** A wait whose deadline passes while no other waiter is due: the sweep
    wakes the fibril and the wait returns [ETIMEOUT]. *)
Lemma exec_wait_timeout_expires amsgid retval timeout now m s :
  cell_at s amsgid = Some (Amsg m) → am_done m = false →
  sorted_timeouts s → NoDup (timeout_list s) → amsgid ∉ timeout_list s →
  Forall (λ p, ∃ a, cell_at s p = Some (Amsg a)
                    ∧ tv_gt (am_expires a) now = true) (timeout_list s) →
  tv_gt (tv_add (clock s) timeout) now = false →
  ∃ s',
    exec (async_wait_timeout (modify (set_clock now);; handle_expired_timeouts)
                             amsgid retval timeout)
         s [EvAddReady (self s)] ETIMEOUT s' ∧
    cell_at s' amsgid
      = Some (Amsg (fired (parked (self s) (clock s) timeout m))) ∧
    (∀ q, q ≠ amsgid → cell_at s' q = cell_at s q) ∧
    timeout_list s' = timeout_list s ∧ released s' = released s ∧
    mem_avail s' = mem_avail s.
Proof.
  intros Hm Hd Hsorted Hnd Hnotin Hothers Hpast.
  pose proof (cell_at_not_null _ _ _ Hm) as Hnn.
  set (m1 := parked (self s) (clock s) timeout m).
  set (s1 := set_heap <[amsgid := Amsg m1]> s).
  assert (Hframe : ∀ q, q ≠ amsgid → cell_at s1 q = cell_at s q).
  { intros q Hq. unfold s1. by rewrite cell_at_insert_ne. }
  assert (Hm1 : cell_at s1 amsgid = Some (Amsg m1)).
  { unfold s1. by apply cell_at_insert_eq. }
  assert (Hsorted1 : sorted_timeouts s1).
  { apply (sorted_timeouts_frame s s1); [reflexivity| |exact Hsorted].
    intros p Hp. apply Hframe. by intros ->. }
  destruct (exec_insert_timeout_sorted amsgid m1 s1 Hm1 Hsorted1)
    as (l1 & l2 & Hl & Hins & _ & Hl1 & _).
  destruct l1 as [|p l1].
  2:{ exfalso. apply Forall_cons in Hl1 as [(a & Ha & Hle) _].
      rewrite Forall_forall in Hothers.
      destruct (Hothers p) as (a' & Ha' & Hgt).
      { change (timeout_list s1) with (timeout_list s) in Hl. rewrite Hl. set_solver. }
      rewrite Hframe in Ha.
      2:{ intros ->. apply Hnotin.
          change (timeout_list s1) with (timeout_list s) in Hl. rewrite Hl. set_solver. }
      assert (a' = a) as -> by congruence.
      pose proof (tv_gt_le_trans _ _ _ Hgt Hle) as Hc.
      unfold m1, parked in Hc. cbn in Hc. congruence. }
  cbn [app] in Hl, Hins.
  change (timeout_list s1) with (timeout_list s) in Hl.
  set (s2 := set_clock now (set_timeout_list (λ _, amsgid :: l2) s1)).
  destruct (exec_handle_expired_timeouts [amsgid] l2 s2)
    as (s' & Hex & Hl' & Hfired & Hrest & Hrel & Hmem & _).
  { done. }
  { cbn. rewrite <- Hl. by apply NoDup_cons. }
  { constructor; [|done]. exists m1. split; [done|]. exact Hpast. }
  { destruct l2 as [|q l2]; [done|]. cbn. rewrite Forall_forall in Hothers.
    destruct (Hothers q) as (a & Ha & Hgt); [rewrite Hl; set_solver|].
    exists a. split; [|done]. change (cell_at s2 q) with (cell_at s1 q).
    rewrite Hframe; [done|]. intros ->. apply Hnotin. rewrite Hl. set_solver. }
  assert (Hm' : cell_at s' amsgid = Some (Amsg (fired m1)))
    by (apply Hfired; [set_solver|done]).
  exists s'. split_and!.
  - eapply exec_wait_timeout_parks; [done..|exact Hins|].
    eapply exec_bind_eq.
    + eapply exec_bind_eq; [apply exec_modify|exact Hex|traces].
    + step. unfold m1. cbn [fired parked am_done set_active set_has_timeout
                            set_expires set_ptid].
      rewrite Hd. apply exec_ret. traces.
    + unfold wakeups. cbn [flat_map]. change (cell_at s2 amsgid) with (cell_at s1 amsgid).
      rewrite Hm1. cbn. reflexivity.
  - done.
  - intros q Hq. rewrite Hrest by (by intros ->%list_elem_of_singleton).
    by apply Hframe.
  - by rewrite Hl', Hl.
  - done.
  - done.
Qed.

(** *** The reply and the waiter *)

(** The message once its reply has been taken in. *)
Definition replied (v : Z) (m : amsg_t) : amsg_t :=
  set_active true (set_done true (set_retval v m)).

(** The store as [reply_received] leaves it, for the message [m] at
    [private] and the answer [d]. *)
Definition after_reply (private v : Z) (d : ipc_call_t) (m : amsg_t) (s : store) : store :=
  let s1 := set_heap <[private := Amsg (set_retval v m)]> s in
  let s2 := if am_dataptr m =? NULL then s1
            else set_heap <[am_dataptr m := Call d]> s1 in
  let s3 := if am_has_timeout m then set_timeout_list (unlink private) s2 else s2 in
  set_heap <[private := Amsg (replied v m)]> s3.

(** Where the answer goes is [NULL] or holds a call. *)
Definition data_ok (s : store) (dp : Z) : Prop :=
  dp ≠ NULL → ∃ d0, cell_at s dp = Some (Call d0).

Lemma exec_reply_received private retval data m d s :
  cell_at s private = Some (Amsg m) → cell_at s data = Some (Call d) →
  data_ok s (am_dataptr m) →
  exec (reply_received private retval data) s
       (if am_active m then [] else [EvAddReady (am_ptid m)]) tt
       (after_reply private (ipcarg_of_int retval) d m s).
Proof.
  intros Hm Hdata Hdp. pose proof (cell_at_not_null _ _ _ Hm) as Hnn.
  assert (Hne : private ≠ data) by (intros ->; congruence).
  unfold reply_received, reply_received_stmts, after_reply. cbn [run_stmts].
  set (v := ipcarg_of_int retval).
  set (s1 := set_heap <[private := Amsg (set_retval v m)]> s).
  set (s2 := if am_dataptr m =? NULL then s1
             else set_heap <[am_dataptr m := Call d]> s1).
  set (s3 := if am_has_timeout m then set_timeout_list (unlink private) s2 else s2).
  assert (H1 : cell_at s1 private = Some (Amsg (set_retval v m)))
    by (by apply cell_at_insert_eq).
  assert (H1d : cell_at s1 data = Some (Call d))
    by (unfold s1; by rewrite cell_at_insert_ne).
  assert (E2 : exec (m0 ← load_amsg private;
                     if negb (am_dataptr m0 =? NULL)
                     then d0 ← load_call data; store_cell (am_dataptr m0) (Call d0)
                     else mret tt) s1 [] tt s2).
  { step. cbn [am_dataptr set_retval]. unfold s2.
    destruct (Z.eqb_spec (am_dataptr m) NULL) as [Hnull|Hnull]; cbn [negb].
    - apply exec_ret.
    - destruct (Hdp Hnull) as [d0 Hd0]. step.
      eapply exec_store_cell;
        [unfold s1; rewrite cell_at_insert_ne; [exact Hd0|congruence]
        |reflexivity].
      traces.
    - traces. }
  assert (H2 : cell_at s2 private = Some (Amsg (set_retval v m))).
  { unfold s2. destruct (Z.eqb_spec (am_dataptr m) NULL) as [Hnull|Hnull]; [done|].
    rewrite cell_at_insert_ne; [done|]. intros Heq.
    destruct (Hdp Hnull) as [d0 Hd0]. rewrite Heq in Hd0. congruence. }
  assert (E3 : exec (m0 ← load_amsg private;
                     if am_has_timeout m0
                     then modify (set_timeout_list (unlink private))
                     else mret tt) s2 [] tt s3).
  { step. cbn [am_has_timeout set_retval]. unfold s3.
    destruct (am_has_timeout m); [apply exec_modify|apply exec_ret]. traces. }
  assert (H3 : cell_at s3 private = Some (Amsg (set_retval v m))).
  { unfold s3. by destruct (am_has_timeout m). }
  set (s4 := set_heap <[private := Amsg (set_done true (set_retval v m))]> s3).
  assert (E5 : exec (m0 ← load_amsg private;
                     if negb (am_active m0)
                     then update_amsg private (set_active true);;
                          psthread_add_ready (am_ptid m0)
                     else mret tt) s4
                    (if am_active m then [] else [EvAddReady (am_ptid m)]) tt
                    (set_heap <[private := Amsg (replied v m)]> s3)).
  { assert (H4 : cell_at s4 private
                 = Some (Amsg (set_done true (set_retval v m))))
      by (by apply cell_at_insert_eq).
    destruct (am_active m) eqn:Hact.
    - step. cbn [am_active set_done set_retval]. rewrite Hact. cbn [negb].
      unfold replied.
      rewrite (set_active_true_id (set_done true (set_retval v m))) by done.
      apply exec_ret. traces.
    - step. cbn [am_active set_done set_retval am_ptid]. rewrite Hact. cbn [negb].
      step. unfold s4. rewrite set_heap_insert_twice. apply exec_emit.
      all: traces. }
  eapply exec_bind_eq; [by apply (exec_update_amsg _ _ m)| |].
  eapply exec_bind_eq; [exact E2| |].
  eapply exec_bind_eq; [exact E3| |].
  eapply exec_bind_eq; [by apply (exec_update_amsg _ _ (set_retval v m))| |].
  eapply exec_bind_eq; [exact E5|apply exec_ret|].
  all: traces.
Qed.

Lemma after_reply_private private v d m s :
  private ≠ NULL →
  cell_at (after_reply private v d m s) private = Some (Amsg (replied v m)).
Proof. intros Hnn. unfold after_reply. by apply cell_at_insert_eq. Qed.

Lemma after_reply_frame private v d m s q :
  q ≠ private → q ≠ am_dataptr m →
  cell_at (after_reply private v d m s) q = cell_at s q.
Proof.
  intros Hq Hdp. unfold after_reply. rewrite cell_at_insert_ne by done.
  destruct (am_has_timeout m), (am_dataptr m =? NULL);
    change (cell_at (set_timeout_list ?f ?s) ?q) with (cell_at s q);
    rewrite ?cell_at_insert_ne by done; done.
Qed.

Lemma after_reply_data private v d m s :
  am_dataptr m ≠ NULL → am_dataptr m ≠ private →
  cell_at (after_reply private v d m s) (am_dataptr m) = Some (Call d).
Proof.
  intros Hnull Hne. unfold after_reply. rewrite cell_at_insert_ne by done.
  destruct (Z.eqb_spec (am_dataptr m) NULL); [done|].
  destruct (am_has_timeout m);
    change (cell_at (set_timeout_list ?f ?s) ?q) with (cell_at s q);
    by apply cell_at_insert_eq.
Qed.

Lemma after_reply_timeout_list private v d m s :
  timeout_list (after_reply private v d m s)
  = if am_has_timeout m then unlink private (timeout_list s) else timeout_list s.
Proof.
  unfold after_reply. by destruct (am_has_timeout m), (am_dataptr m =? NULL).
Qed.

Lemma after_reply_rest private v d m s :
  released (after_reply private v d m s) = released s ∧
  mem_avail (after_reply private v d m s) = mem_avail s ∧
  conn_hash_table (after_reply private v d m s) = conn_hash_table s ∧
  self (after_reply private v d m s) = self s.
Proof.
  unfold after_reply. by destruct (am_has_timeout m), (am_dataptr m =? NULL).
Qed.

Lemma unlink_middle p l1 l2 : p ∉ l1 ++ l2 → unlink p (l1 ++ p :: l2) = l1 ++ l2.
Proof.
  intros [H1 H2]%not_elem_of_app. unfold unlink. rewrite filter_app.
  fold (unlink p l1). fold (unlink p (p :: l2)).
  by rewrite unlink_notin, unlink_head.
Qed.

Lemma out_ok_frame s s' retval :
  (∀ w, cell_at s retval = Some (Word w) → cell_at s' retval = Some (Word w)) →
  out_ok s retval → out_ok s' retval.
Proof. intros Hf Hout Hne. destruct (Hout Hne) as [w Hw]. eauto. Qed.

(** *** Sending and waiting *)

Lemma exec_update_amsg_uninit p f s :
  cell_at s p = Some Uninit →
  exec (update_amsg p f) s [] tt (set_heap <[p := Amsg (f indeterminate_amsg)]> s).
Proof.
  intros Hp. unfold update_amsg, load_amsg.
  eapply exec_bind_eq; [|by eapply exec_store_cell|].
  - eapply exec_bind_eq; [by apply exec_deref|apply exec_ret|traces].
  - traces.
Qed.

(** The message as [async_send_2] hands it out; what it does not set is
    what [malloc] left there. *)
Definition sent (dataptr : Z) : amsg_t :=
  set_dataptr dataptr (set_done false (set_active true indeterminate_amsg)).

Lemma exec_async_send_2 phoneid method arg1 arg2 dataptr s n :
  mem_avail s = S n →
  ∃ msg,
    msg ≠ NULL ∧ cell_at s msg = None ∧
    exec (async_send_2 phoneid method arg1 arg2 dataptr) s
         [EvCallAsync phoneid method arg1 arg2 msg] msg
         (set_heap <[msg := Amsg (sent dataptr)]> (set_mem_avail (λ _, n) s)).
Proof.
  intros Hmem. destruct (exec_malloc_some s n Hmem) as (msg & Hnn & Hfresh & Hex).
  exists msg. split_and!; [done..|].
  unfold async_send_2.
  eapply exec_bind_eq; [exact Hex|cbn beta|].
  eapply exec_bind_eq;
    [apply exec_update_amsg_uninit; by apply cell_at_insert_eq|cbn beta|].
  step. step. rewrite !set_heap_insert_twice. step. apply exec_ret.
  all: traces.
Qed.

(** The message as [async_wait_for] parks it. *)
Definition waiting (ptid : Z) (m : amsg_t) : amsg_t :=
  set_has_timeout false (set_active false (set_ptid ptid m)).

Lemma exec_async_wait_for_parks yield msg retval m s t s2 t2 s' :
  cell_at s msg = Some (Amsg m) → am_done m = false →
  exec yield (set_heap <[msg := Amsg (waiting (self s) m)]> s) t tt s2 →
  exec (at_done msg retval) s2 t2 tt s' →
  exec (async_wait_for yield msg retval) s (t ++ t2) tt s'.
Proof.
  intros Hm Hd Hy Hdone. pose proof (cell_at_not_null _ _ _ Hm) as Hnn.
  unfold async_wait_for. step. rewrite Hd. step. step. step. step.
  rewrite !set_heap_insert_twice.
  eapply exec_bind_eq; [exact Hy|exact Hdone|]. all: traces.
Qed.

(** A request sent, waited for and answered while its sender waits. *)
Lemma exec_send_wait_reply phoneid method arg1 arg2 dataptr rp rv data d w s n :
  mem_avail s = S n →
  cell_at s data = Some (Call d) → cell_at s rp = Some (Word w) →
  data_ok s dataptr →
  ∃ msg s',
    cell_at s msg = None ∧
    exec (msg ← async_send_2 phoneid method arg1 arg2 dataptr;
          async_wait_for (reply_received msg rv data) msg rp;;
          mret msg)
         s [EvCallAsync phoneid method arg1 arg2 msg; EvAddReady (self s);
            EvFree msg] msg s' ∧
    cell_at s' rp = Some (Word (ipcarg_of_int rv)) ∧
    (dataptr ≠ NULL → cell_at s' dataptr = Some (Call d)) ∧
    mem_avail s' = mem_avail s ∧ released s' = msg :: released s ∧
    timeout_list s' = timeout_list s.
Proof.
  intros Hmem Hdata Hrp Hdp.
  destruct (exec_async_send_2 phoneid method arg1 arg2 dataptr s n Hmem)
    as (msg & Hnn & Hfresh & Hsend).
  set (s1 := set_heap <[msg := Amsg (sent dataptr)]> (set_mem_avail (λ _, n) s)) in *.
  assert (Hframe1 : ∀ q c, cell_at s q = Some c → cell_at s1 q = Some c).
  { intros q c Hq. unfold s1. rewrite cell_at_insert_ne; [done|]. intros ->.
    congruence. }
  set (m1 := waiting (self s) (sent dataptr)).
  set (s2 := set_heap <[msg := Amsg m1]> s1).
  assert (Hframe2 : ∀ q c, cell_at s q = Some c → cell_at s2 q = Some c).
  { intros q c Hq. unfold s2. rewrite cell_at_insert_ne; [by apply Hframe1|].
    intros ->. congruence. }
  set (v := ipcarg_of_int rv).
  set (s3 := after_reply msg v d m1 s2).
  assert (Hyield : exec (reply_received msg rv data) s2 [EvAddReady (self s)] tt s3).
  { apply (exec_reply_received msg rv data m1 d s2).
    - by apply cell_at_insert_eq.
    - by apply Hframe2.
    - intros Hnull. destruct (Hdp Hnull) as [d0 Hd0]. exists d0. by apply Hframe2. }
  assert (Hrp3 : cell_at s3 rp = Some (Word w)).
  { unfold s3. rewrite after_reply_frame; [by apply Hframe2|congruence|].
    intros Heq. change (rp = dataptr) in Heq. rewrite <- Heq in Hdp.
    destruct Hdp as [d0 Hd0]; [by eapply cell_at_not_null|congruence]. }
  assert (Hrpn : rp ≠ NULL) by (by eapply cell_at_not_null).
  exists msg. eexists. split_and!; [done| | | | | |].
  - eapply exec_bind_eq; [exact Hsend|cbn beta|].
    + eapply exec_bind_eq; [|apply exec_ret|].
      * eapply (exec_async_wait_for_parks _ msg rp (sent dataptr) s1);
          [by apply cell_at_insert_eq|reflexivity|exact Hyield|].
        eapply (exec_at_done msg rp (replied v m1)).
        -- by apply after_reply_private.
        -- intros _. by exists w.
      * traces.
    + traces.
  - rewrite cell_at_freed by congruence. unfold stored_retval.
    destruct (Z.eqb_spec rp NULL); [done|]. by apply cell_at_insert_eq.
  - intros Hnull. destruct (Hdp Hnull) as [d0 Hd0].
    rewrite cell_at_freed by congruence. unfold stored_retval.
    destruct (Z.eqb_spec rp NULL); [done|].
    rewrite cell_at_insert_ne by congruence.
    apply (after_reply_data msg v d m1 s2); [done|]. cbn. congruence.
  - assert (mem_avail s3 = n) as Hn
      by (unfold s3; by rewrite (proj1 (proj2 (after_reply_rest _ _ _ _ _)))).
    unfold stored_retval. destruct (rp =? NULL);
      change (S (mem_avail s3) = mem_avail s); by rewrite Hn, Hmem.
  - assert (released s3 = released s) as Hr
      by (unfold s3; by rewrite (proj1 (after_reply_rest _ _ _ _ _))).
    unfold stored_retval. destruct (rp =? NULL);
      change (msg :: released s3 = msg :: released s); by rewrite Hr.
  - assert (timeout_list s3 = timeout_list s) as Hr
      by (unfold s3; by rewrite after_reply_timeout_list).
    unfold stored_retval. destruct (rp =? NULL);
      change (timeout_list s3 = timeout_list s); by rewrite Hr.
Qed.

(** *** The connection table *)

(** The walk of [hash_table_find] along a chain, as a relation: [p] is
    the first item with the key, or [NULL] when every item is a connection
    with another key. *)
Fixpoint walk (s : store) (key : Z) (items : list Z) (p : Z) : Prop :=
  match items with
  | [] => p = NULL
  | item :: rest =>
      ∃ c, cell_at s item = Some (Conn c) ∧
           if key =? c_in_phone_hash c then p = item else walk s key rest p
  end.

Lemma exec_chain_find key items s p :
  exec (chain_find key items) s [] p s ↔ walk s key items p.
Proof.
  induction items as [|item rest IH]; cbn [chain_find walk].
  - split; [by intros (_ & -> & _)%exec_ret_inv|intros ->; apply exec_ret].
  - split.
    + intros Hex.
      apply exec_bind_inv in Hex as (t1 & b & s1 & t2 & H1 & H2 & Ht).
      unfold conn_compare in H1.
      apply exec_bind_inv in H1 as (t3 & hs & s3 & t4 & H3 & H4 & ->).
      apply exec_load_conn_inv in H3 as (-> & -> & Hc).
      destruct (exec_ret_inv _ _ _ _ _ H4) as (-> & -> & ->).
      exists hs. split; [done|].
      destruct (key =? c_in_phone_hash hs).
      * by destruct (exec_ret_inv _ _ _ _ _ H2) as (_ & -> & _).
      * apply IH. destruct (exec_chain_find_inv _ _ _ _ _ _ H2) as (-> & _).
        exact H2.
    + intros (c & Hc & Hrest). unfold conn_compare.
      eapply exec_bind_eq.
      * eapply exec_bind_eq; [by apply exec_load_conn|apply exec_ret|traces].
      * cbn beta. destruct (key =? c_in_phone_hash c).
        -- subst p. apply exec_ret.
        -- by apply IH.
      * traces.
Qed.

Lemma exec_hash_table_find key s p :
  exec (hash_table_find key) s [] p s
  ↔ walk s key (chain (conn_hash_table s) (conn_hash key)) p.
Proof.
  rewrite <- exec_chain_find. unfold hash_table_find. split.
  - intros Hex. apply exec_bind_inv in Hex as (t1 & s0 & s1 & t2 & H1 & H2 & Ht).
    destruct (exec_ret_inv _ _ _ _ _ H1) as (-> & -> & ->).
    destruct (exec_chain_find_inv _ _ _ _ _ _ H2) as (-> & _). exact H2.
  - intros Hex. eapply exec_bind_eq; [apply exec_get|exact Hex|traces].
Qed.

Lemma routes_to_walk s call p :
  routes_to s call = Some p
  ↔ walk s (in_phone_hash call)
         (chain (conn_hash_table s) (conn_hash (in_phone_hash call))) p.
Proof. by rewrite routes_to_exec, exec_hash_table_find. Qed.

Lemma walk_frame s s' key items p :
  (∀ q c, cell_at s q = Some c → cell_at s' q = Some c) →
  walk s key items p → walk s' key items p.
Proof.
  intros Hf. induction items as [|item rest IH]; [done|].
  cbn [walk]. intros (c & Hc & Hrest). exists c. split; [by apply Hf|].
  destruct (key =? c_in_phone_hash c); auto.
Qed.

Lemma walk_not_null s key items p : walk s key items p → p ≠ NULL → p ∈ items.
Proof.
  induction items as [|item rest IH]; cbn [walk]; [done|].
  intros (c & Hc & Hrest) Hp. destruct (key =? c_in_phone_hash c).
  - subst. left.
  - right. auto.
Qed.

Lemma walk_app_found s key items more p :
  walk s key items p → p ≠ NULL → walk s key (items ++ more) p.
Proof.
  intros Hw Hp. induction items as [|item rest IH]; [done|].
  cbn [walk app] in *. destruct Hw as (c & Hc & Hrest). exists c. split; [done|].
  destruct (key =? c_in_phone_hash c); auto.
Qed.

Lemma walk_app_missing s key items more p :
  walk s key items NULL → walk s key more p → walk s key (items ++ more) p.
Proof.
  intros Hw Hp. induction items as [|item rest IH]; [done|].
  cbn [walk app] in *. destruct Hw as (c & Hc & Hrest). exists c. split; [done|].
  destruct (key =? c_in_phone_hash c); [|auto].
  apply cell_at_not_null in Hc. congruence.
Qed.

Lemma walk_fun s key items p q : walk s key items p → walk s key items q → p = q.
Proof.
  induction items as [|item rest IH]; cbn [walk]; [congruence|].
  intros (c & Hc & Hp) (c' & Hc' & Hq). assert (c' = c) as -> by congruence.
  destruct (key =? c_in_phone_hash c); [congruence|auto].
Qed.

(** *** Routing a call *)

Lemma set_conn_active_true_id c : c_active c = true → set_conn_active true c = c.
Proof. destruct c. cbn. by intros ->. Qed.

(** The connection once [msg] has been queued on it. *)
Definition enqueued (msg : Z) (c : connection_t) : connection_t :=
  set_conn_active true (set_msg_queue (c_msg_queue c ++ [msg]) c).

(** The store once [route_call] has queued the call as [msg] on [conn]. *)
Definition routed (callid : Z) (call : ipc_call_t) (conn msg : Z) (c : connection_t)
    (n : nat) (s : store) : store :=
  set_heap <[conn := Conn (enqueued msg c)]>
    (set_heap <[msg := Msg {| m_callid := callid; m_call := call |}]>
       (set_mem_avail (λ _, n) s)).

Lemma exec_route_call callid call conn c s n :
  routes_to s call = Some conn → conn ≠ NULL →
  cell_at s conn = Some (Conn c) → mem_avail s = S n →
  ∃ msg,
    msg ≠ NULL ∧ cell_at s msg = None ∧
    exec (route_call callid call) s
         (if c_active c then [] else [EvAddReady (c_ptid c)]) 1
         (routed callid call conn msg c n s).
Proof.
  intros Hroute Hnn Hc Hmem. apply routes_to_exec in Hroute.
  destruct (exec_malloc_some s n Hmem) as (msg & Hmn & Hfresh & Hmalloc).
  exists msg. split_and!; [done..|].
  assert (Hne : msg ≠ conn) by congruence.
  set (s1 := set_heap <[msg := Msg {| m_callid := callid; m_call := call |}]>
               (set_mem_avail (λ _, n) s)).
  assert (Hc1 : cell_at s1 conn = Some (Conn c)).
  { unfold s1. by rewrite cell_at_insert_ne. }
  unfold route_call, routed. fold s1.
  destruct (c_active c) eqn:Hact.
  - eapply exec_bind_eq; [exact Hroute|cbn beta|].
    destruct (Z.eqb_spec conn NULL); [done|].
    eapply exec_bind_eq; [exact Hmalloc|cbn beta|].
    eapply exec_bind_eq;
      [eapply exec_store_cell; [by apply cell_at_insert_eq|reflexivity]|cbn beta|].
    rewrite set_heap_insert_twice. fold s1.
    step. step. cbn [c_active set_msg_queue]. rewrite Hact. cbn [negb].
    step. unfold enqueued. rewrite set_conn_active_true_id by done.
    apply exec_ret. all: traces.
  - eapply exec_bind_eq; [exact Hroute|cbn beta|].
    destruct (Z.eqb_spec conn NULL); [done|].
    eapply exec_bind_eq; [exact Hmalloc|cbn beta|].
    eapply exec_bind_eq;
      [eapply exec_store_cell; [by apply cell_at_insert_eq|reflexivity]|cbn beta|].
    rewrite set_heap_insert_twice. fold s1.
    step. step. cbn [c_active set_msg_queue c_ptid]. rewrite Hact. cbn [negb].
    eapply exec_bind_eq; [|apply exec_ret|].
    + step. rewrite set_heap_insert_twice. apply exec_emit. traces.
    + traces.
    + traces.
    + traces.
    + traces.
    + traces.
    + traces.
Qed.

Lemma routed_conn callid call conn msg c n s :
  conn ≠ NULL →
  cell_at (routed callid call conn msg c n s) conn = Some (Conn (enqueued msg c)).
Proof. intros. unfold routed. by apply cell_at_insert_eq. Qed.

Lemma routed_msg callid call conn msg c n s :
  msg ≠ NULL → msg ≠ conn →
  cell_at (routed callid call conn msg c n s) msg
  = Some (Msg {| m_callid := callid; m_call := call |}).
Proof.
  intros. unfold routed. rewrite cell_at_insert_ne by done.
  by apply cell_at_insert_eq.
Qed.

Lemma routed_frame callid call conn msg c n s q :
  q ≠ conn → q ≠ msg → cell_at (routed callid call conn msg c n s) q = cell_at s q.
Proof. intros. unfold routed. by rewrite !cell_at_insert_ne. Qed.

Lemma routed_same_routing callid call conn msg c n s :
  cell_at s conn = Some (Conn c) → cell_at s msg = None →
  conn ≠ NULL → msg ≠ NULL →
  same_routing s (routed callid call conn msg c n s).
Proof.
  intros Hc Hm Hnn Hmn. assert (msg ≠ conn) by congruence.
  split; [done|]. intros p. unfold conn_key.
  destruct (decide (p = conn)) as [->|Hpc].
  - rewrite routed_conn, Hc by done. done.
  - destruct (decide (p = msg)) as [->|Hpm].
    + rewrite routed_msg, Hm by done. done.
    + by rewrite routed_frame.
Qed.

(** The messages [msgs] hold the calls [calls], one each, in order. *)
Definition holds (s : store) (msgs : list Z) (calls : list (Z * ipc_call_t)) : Prop :=
  Forall2 (λ p x, cell_at s p = Some (Msg {| m_callid := x.1; m_call := x.2 |}))
          msgs calls.

Lemma holds_frame s s' msgs calls :
  (∀ q c, cell_at s q = Some c → q ∈ msgs → cell_at s' q = Some c) →
  holds s msgs calls → holds s' msgs calls.
Proof.
  intros Hf Hh. induction Hh as [|p x msgs calls Hp _ IH]; constructor.
  - apply Hf; [done|left].
  - apply IH. intros q c Hq Hin. apply Hf; [done|by right].
Qed.

(** Calls for a connection whose fibril runs or is ready are queued
    without any call to the scheduler. *)
Lemma exec_route_all_active conn : ∀ calls s c,
  cell_at s conn = Some (Conn c) → c_active c = true →
  Forall (λ x, routes_to s x.2 = Some conn) calls →
  (length calls ≤ mem_avail s)%nat →
  ∃ s' msgs,
    exec (route_all calls) s [] tt s' ∧
    cell_at s' conn = Some (Conn (set_msg_queue (c_msg_queue c ++ msgs) c)) ∧
    holds s' msgs calls ∧ same_routing s s' ∧
    (∀ q cq, cell_at s q = Some cq → q ≠ conn → cell_at s' q = Some cq) ∧
    (mem_avail s' + length calls = mem_avail s)%nat.
Proof.
  induction calls as [|[callid call] calls IH]; intros s c Hc Hact Hroutes Hmem.
  - exists s, []. split_and!.
    + apply exec_ret.
    + rewrite app_nil_r. by destruct c.
    + constructor.
    + apply same_routing_refl.
    + done.
    + cbn. lia.
  - apply Forall_cons in Hroutes as [Hroute Hroutes]. cbn [snd] in Hroute.
    pose proof (cell_at_not_null _ _ _ Hc) as Hnn.
    destruct (mem_avail s) as [|n] eqn:Hn; [cbn in Hmem; lia|].
    destruct (exec_route_call callid call conn c s n Hroute Hnn Hc Hn)
      as (msg & Hmn & Hfresh & Hex1).
    rewrite Hact in Hex1.
    set (s1 := routed callid call conn msg c n s) in *.
    assert (Hsame1 : same_routing s s1) by (by apply routed_same_routing).
    assert (Hmc : msg ≠ conn) by congruence.
    destruct (IH s1 (enqueued msg c))
      as (s' & msgs & Hex & Hc' & Hh & Hsame & Hframe & Hmem').
    { by apply routed_conn. }
    { done. }
    { eapply Forall_impl; [exact Hroutes|]. intros x Hx. cbn beta in *.
      by rewrite (routes_to_same _ _ _ Hsame1). }
    { cbn in Hmem. change (mem_avail s1) with n. lia. }
    exists s', (msg :: msgs). split_and!.
    + cbn [route_all]. eapply exec_bind_eq; [exact Hex1|exact Hex|traces].
    + rewrite Hc'. unfold enqueued. cbn [c_msg_queue set_msg_queue set_conn_active].
      rewrite <- app_assoc. cbn [app]. destruct c; cbn in *. by rewrite Hact.
    + constructor; [|done]. apply Hframe; [|done]. by apply routed_msg.
    + by eapply same_routing_trans.
    + intros q cq Hq Hqc. apply Hframe; [|done].
      unfold s1. rewrite routed_frame; [done..|congruence].
    + cbn [length]. change (mem_avail s1) with n in Hmem'. lia.
Qed.

(** However many calls come in for a parked connection, its fibril is
    made ready by the first of them and by no other. *)
Lemma exec_route_all_parked conn callid call calls s c :
  cell_at s conn = Some (Conn c) → c_active c = false →
  Forall (λ x, routes_to s x.2 = Some conn) ((callid, call) :: calls) →
  (S (length calls) ≤ mem_avail s)%nat →
  ∃ s' msgs,
    exec (route_all ((callid, call) :: calls)) s [EvAddReady (c_ptid c)] tt s' ∧
    cell_at s' conn
      = Some (Conn (set_conn_active true (set_msg_queue (c_msg_queue c ++ msgs) c))) ∧
    holds s' msgs ((callid, call) :: calls).
Proof.
  intros Hc Hact Hroutes Hmem.
  apply Forall_cons in Hroutes as [Hroute Hroutes]. cbn [snd] in Hroute.
  pose proof (cell_at_not_null _ _ _ Hc) as Hnn.
  destruct (mem_avail s) as [|n] eqn:Hn; [lia|].
  destruct (exec_route_call callid call conn c s n Hroute Hnn Hc Hn)
    as (msg & Hmn & Hfresh & Hex1).
  rewrite Hact in Hex1.
  set (s1 := routed callid call conn msg c n s) in *.
  assert (Hsame1 : same_routing s s1) by (by apply routed_same_routing).
  assert (Hmc : msg ≠ conn) by congruence.
  destruct (exec_route_all_active conn calls s1 (enqueued msg c))
    as (s' & msgs & Hex & Hc' & Hh & Hsame & Hframe & Hmem').
  { by apply routed_conn. }
  { done. }
  { eapply Forall_impl; [exact Hroutes|]. intros x Hx. cbn beta in *.
    by rewrite (routes_to_same _ _ _ Hsame1). }
  { change (mem_avail s1) with n. lia. }
  exists s', (msg :: msgs). split_and!.
  - cbn [route_all]. eapply exec_bind_eq; [exact Hex1|exact Hex|traces].
  - rewrite Hc'. unfold enqueued. cbn [c_msg_queue set_msg_queue set_conn_active].
    rewrite <- app_assoc. cbn [app]. by destruct c.
  - constructor; [|done]. apply Hframe; [|done]. by apply routed_msg.
Qed.

(** *** Asking for the next call *)

(** [async_get_call] on an empty queue: the fibril parks, and what it
    finds at the head of the queue on resume is what it returns. *)
Lemma exec_async_get_call_parks yield conn c s t s2 c2 msg rest m :
  PS_connection s = conn → cell_at s conn = Some (Conn c) → c_msg_queue c = [] →
  exec yield (set_heap <[conn := Conn (set_conn_active false c)]> s) t tt s2 →
  cell_at s2 conn = Some (Conn c2) → c_msg_queue c2 = msg :: rest →
  cell_at s2 msg = Some (Msg m) →
  exec (async_get_call yield) s (t ++ [EvFree msg]) (m_callid m, m_call m)
       (freed msg (set_heap <[conn := Conn (set_msg_queue rest c2)]> s2)).
Proof.
  intros HPS Hc Hq Hy Hc2 Hq2 Hm. pose proof (cell_at_not_null _ _ _ Hc) as Hnn.
  assert (Hne : msg ≠ conn) by congruence.
  unfold async_get_call. step. rewrite HPS. step. rewrite Hq.
  rewrite bool_decide_eq_true_2 by done.
  eapply exec_bind_eq.
  - eapply exec_bind_eq; [by apply (exec_update_conn _ _ c)|exact Hy|traces].
  - cbn beta. step. rewrite Hq2. step.
    eapply exec_bind_eq;
      [apply (exec_load_msg _ m); by rewrite cell_at_insert_ne|cbn beta|].
    step. apply exec_ret. all: traces.
  - traces.
  - traces.
  - traces.
Qed.

(** A call routed to a connection whose fibril waits in [async_get_call]. *)
Lemma exec_get_call_routed callid call conn c s n :
  PS_connection s = conn → cell_at s conn = Some (Conn c) → c_msg_queue c = [] →
  routes_to s call = Some conn → mem_avail s = S n →
  ∃ msg s' c',
    cell_at s msg = None ∧
    exec (async_get_call (route_call callid call;; mret tt)) s
         [EvAddReady (c_ptid c); EvFree msg] (callid, call) s' ∧
    cell_at s' conn = Some (Conn c') ∧ c_msg_queue c' = [] ∧ c_active c' = true ∧
    mem_avail s' = mem_avail s ∧ released s' = msg :: released s.
Proof.
  intros HPS Hc Hq Hroute Hmem. pose proof (cell_at_not_null _ _ _ Hc) as Hnn.
  set (c1 := set_conn_active false c).
  set (s1 := set_heap <[conn := Conn c1]> s).
  assert (Hc1 : cell_at s1 conn = Some (Conn c1)) by (by apply cell_at_insert_eq).
  assert (Hsame : same_routing s s1).
  { split; [done|]. intros p. unfold conn_key, s1.
    destruct (decide (p = conn)) as [->|Hp].
    - by rewrite cell_at_insert_eq, Hc.
    - by rewrite cell_at_insert_ne. }
  assert (Hroute1 : routes_to s1 call = Some conn)
    by (by rewrite (routes_to_same _ _ _ Hsame)).
  destruct (exec_route_call callid call conn c1 s1 n Hroute1 Hnn Hc1 Hmem)
    as (msg & Hmn & Hfresh & Hex).
  assert (Hfresh0 : cell_at s msg = None).
  { destruct (decide (msg = conn)) as [->|Hne]; [congruence|].
    unfold s1 in Hfresh. by rewrite cell_at_insert_ne in Hfresh. }
  assert (Hmc : msg ≠ conn) by congruence.
  set (s2 := routed callid call conn msg c1 n s1) in *.
  exists msg,
    (freed msg (set_heap <[conn := Conn (set_msg_queue [] (enqueued msg c1))]> s2)),
    (set_msg_queue [] (enqueued msg c1)).
  split_and!; [done| | |done|done| |].
  - apply (exec_async_get_call_parks (route_call callid call;; mret tt) conn c s
             [EvAddReady (c_ptid c)] s2 (enqueued msg c1) msg []
             {| m_callid := callid; m_call := call |}); [done..| | | |].
    + eapply exec_bind_eq; [exact Hex|apply exec_ret|]. cbn. reflexivity.
    + by apply routed_conn.
    + unfold enqueued, c1. cbn. by rewrite Hq.
    + by apply routed_msg.
  - rewrite cell_at_freed by congruence. by apply cell_at_insert_eq.
  - cbn. by rewrite Hmem.
  - reflexivity.
Qed.

(** *** Opening a connection *)

(** The connection as [async_new_connection] sets it up. *)
Definition fresh_conn (callid : Z) (call : ipc_call_t) (cthread ptid : Z) : connection_t :=
  {| c_in_phone_hash := IPC_GET_ARG3 call; c_msg_queue := [];
     c_ptid := ptid; c_active := true; c_callid := callid;
     c_call := call; c_cthread := cthread |}.

(** The store once the connection [conn] has been opened for the fibril
    [ptid]. *)
Definition opened (callid : Z) (call : ipc_call_t) (cthread ptid conn : Z)
    (n : nat) (rest : list Z) (s : store) : store :=
  let key := IPC_GET_ARG3 call in
  set_conn_hash_table
    (λ h, <[conn_hash key := chain h (conn_hash key) ++ [conn]]> h)
    (set_heap <[conn := Conn (fresh_conn callid call cthread ptid)]>
       (set_ptid_supply (λ _, rest) (set_mem_avail (λ _, n) s))).

Lemma opened_eq callid call cthread ptid conn n rest s :
  opened callid call cthread ptid conn n rest s
  = set_conn_hash_table
      (λ h, <[conn_hash (IPC_GET_ARG3 call)
              := chain h (conn_hash (IPC_GET_ARG3 call)) ++ [conn]]> h)
      (set_heap <[conn := Conn (fresh_conn callid call cthread ptid)]>
         (set_ptid_supply (λ _, rest)
            (set_heap <[conn := Uninit]> (set_mem_avail (λ _, n) s)))).
Proof.
  unfold opened, set_conn_hash_table, set_heap, set_ptid_supply, set_mem_avail.
  cbn. by rewrite insert_insert_eq.
Qed.

Lemma exec_async_new_connection callid call cthread s n ptid rest :
  mem_avail s = S n → ptid_supply s = ptid :: rest → ptid ≠ 0 →
  ∃ conn,
    conn ≠ NULL ∧ cell_at s conn = None ∧
    exec (async_new_connection callid call cthread) s
         [EvHashInsert (IPC_GET_ARG3 call) conn; EvAddReady ptid] ptid
         (opened callid call cthread ptid conn n rest s).
Proof.
  intros Hmem Hsupply Hptid.
  destruct (exec_malloc_some s n Hmem) as (conn & Hnn & Hfresh & Hmalloc).
  exists conn. split_and!; [done..|].
  rewrite opened_eq. unfold async_new_connection.
  eapply exec_bind_eq; [exact Hmalloc|cbn beta|].
  destruct (Z.eqb_spec conn NULL); [done|].
  set (s1 := set_heap <[conn := Uninit]> (set_mem_avail (λ _, n) s)).
  assert (Hcreate : exec (psthread_create conn) s1 [] ptid
                         (set_ptid_supply (λ _, rest) s1)).
  { unfold psthread_create. step. change (ptid_supply s1) with (ptid_supply s).
    rewrite Hsupply. step. apply exec_ret. all: traces. }
  eapply exec_bind_eq; [exact Hcreate|cbn beta|].
  eapply exec_bind_eq;
    [eapply exec_store_cell;
       [apply (cell_at_insert_eq (set_mem_avail (λ _, n) s) conn Uninit Hnn)
       |reflexivity]
    |cbn beta|].
  destruct (Z.eqb_spec ptid 0); [done|].
  unfold hash_table_insert.
  eapply exec_bind_eq.
  - eapply exec_bind_eq; [apply exec_emit|apply exec_modify|reflexivity].
  - eapply exec_bind_eq; [apply exec_emit|apply exec_ret|reflexivity].
  - reflexivity.
  - traces.
  - traces.
  - traces.
Qed.

Lemma opened_conn callid call cthread ptid conn n rest s :
  conn ≠ NULL →
  cell_at (opened callid call cthread ptid conn n rest s) conn
  = Some (Conn (fresh_conn callid call cthread ptid)).
Proof. intros. unfold opened. by apply cell_at_insert_eq. Qed.

Lemma opened_frame callid call cthread ptid conn n rest s q :
  q ≠ conn → cell_at (opened callid call cthread ptid conn n rest s) q = cell_at s q.
Proof.
  intros. unfold opened.
  change (cell_at (set_conn_hash_table ?f ?s) ?q) with (cell_at s q).
  by rewrite cell_at_insert_ne.
Qed.

(** Routing once a connection has been opened: a key that found a
    connection before finds it still, and the key of the opening call,
    if it found none, finds the new connection. *)
Lemma opened_routes callid call cthread ptid conn n rest s call' p :
  conn ≠ NULL → cell_at s conn = None →
  routes_to s call' = Some p →
  routes_to (opened callid call cthread ptid conn n rest s) call'
  = Some (if (p =? NULL) && (in_phone_hash call' =? IPC_GET_ARG3 call)
          then conn else p).
Proof.
  intros Hnn Hfresh Hp. set (s' := opened callid call cthread ptid conn n rest s).
  rewrite routes_to_walk in Hp. rewrite routes_to_walk.
  set (key := in_phone_hash call') in *.
  assert (Hf : ∀ q c, cell_at s q = Some c → cell_at s' q = Some c).
  { intros q c Hq. unfold s'. rewrite opened_frame; [done|congruence]. }
  apply (walk_frame s s') in Hp; [|done].
  assert (Hlast : walk s' key [conn]
                       (if key =? IPC_GET_ARG3 call then conn else NULL)).
  { cbn [walk]. exists (fresh_conn callid call cthread ptid).
    split; [by apply opened_conn|]. cbn [c_in_phone_hash fresh_conn].
    by destruct (key =? IPC_GET_ARG3 call). }
  destruct (decide (conn_hash key = conn_hash (IPC_GET_ARG3 call))) as [Heq|Hne].
  - assert (Hchain : chain (conn_hash_table s') (conn_hash key)
                     = chain (conn_hash_table s) (conn_hash key) ++ [conn]).
    { unfold s', opened, chain at 1. cbn. rewrite Heq, lookup_insert_eq. done. }
    rewrite Hchain. destruct (Z.eqb_spec p NULL) as [->|Hpn]; cbn [andb].
    + destruct (key =? IPC_GET_ARG3 call) eqn:Hk.
      * by apply walk_app_missing.
      * by apply walk_app_missing.
    + by apply walk_app_found.
  - assert (Hchain : chain (conn_hash_table s') (conn_hash key)
                     = chain (conn_hash_table s) (conn_hash key)).
    { unfold s', opened, chain. cbn. by rewrite lookup_insert_ne. }
    rewrite Hchain.
    destruct (Z.eqb_spec key (IPC_GET_ARG3 call)) as [Hk|Hk];
      [by rewrite Hk in Hne|].
    by rewrite andb_false_r.
Qed.

(** When no fibril can be created the storage goes back and the table
    stays as it is. *)
Lemma exec_async_new_connection_no_fibril callid call cthread s n :
  mem_avail s = S n → ptid_supply s = [] →
  ∃ conn,
    conn ≠ NULL ∧ cell_at s conn = None ∧
    exec (async_new_connection callid call cthread) s
         [EvFree conn; EvAnswerFast callid ENOMEM 0 0] NULL
         (freed conn
            (set_heap <[conn := Conn (fresh_conn callid call cthread 0)]>
               (set_mem_avail (λ _, n) s))).
Proof.
  intros Hmem Hsupply.
  destruct (exec_malloc_some s n Hmem) as (conn & Hnn & Hfresh & Hmalloc).
  exists conn. split_and!; [done..|].
  unfold async_new_connection.
  eapply exec_bind_eq; [exact Hmalloc|cbn beta|].
  destruct (Z.eqb_spec conn NULL); [done|].
  set (s1 := set_heap <[conn := Uninit]> (set_mem_avail (λ _, n) s)).
  assert (Hcreate : exec (psthread_create conn) s1 [] 0 s1).
  { unfold psthread_create. step. change (ptid_supply s1) with (ptid_supply s).
    rewrite Hsupply. apply exec_ret. traces. }
  eapply exec_bind_eq; [exact Hcreate|cbn beta|].
  eapply exec_bind_eq;
    [eapply exec_store_cell;
       [apply (cell_at_insert_eq (set_mem_avail (λ _, n) s) conn Uninit Hnn)
       |reflexivity]
    |cbn beta|].
  cbn [Z.eqb]. unfold s1. rewrite set_heap_insert_twice.
  step. eapply exec_bind_eq; [apply exec_emit|apply exec_ret|reflexivity].
  all: traces.
Qed.

(** *** Dispatching a call *)

Lemma exec_route_call_unknown callid call s :
  routes_to s call = Some NULL → exec (route_call callid call) s [] 0 s.
Proof.
  intros Hroute. apply routes_to_exec in Hroute. unfold route_call.
  eapply exec_bind_eq; [exact Hroute|apply exec_ret|traces].
Qed.

(** [handle_call] once [route_call] has found no connection for the call. *)
Lemma exec_handle_call_unrouted callid call s t s' :
  routes_to s call = Some NULL →
  exec (if IPC_GET_METHOD call =? IPC_M_INTERRUPT then mret tt
        else if IPC_GET_METHOD call =? IPC_M_CONNECT_ME_TO then
          async_new_connection callid call client_connection_addr;; mret tt
        else ipc_answer_fast callid EHANGUP 0 0) s t tt s' →
  exec (handle_call callid call) s t tt s'.
Proof.
  intros Hroute Hrest. unfold handle_call.
  eapply exec_bind_eq; [by apply exec_route_call_unknown|exact Hrest|traces].
Qed.

(** *** A connection from its opening to its end *)

Lemma walk_null_cells s key items :
  walk s key items NULL → ∀ p, p ∈ items → ∃ c, cell_at s p = Some (Conn c).
Proof.
  induction items as [|item rest IH]; cbn [walk]; [by intros _ p ?%elem_of_nil|].
  intros (c & Hc & Hrest) p [->|Hp]%elem_of_cons; [eauto|].
  destruct (key =? c_in_phone_hash c); [|auto].
  apply cell_at_not_null in Hc. congruence.
Qed.

(** The fibril of a connection that the default handler serves: the
    opening call is answered [ENOENT], the connection leaves the table
    and its storage is freed; the test of the loop that follows reads the
    queue of the freed connection. *)
Lemma faults_connection_thread_default conn c old s :
  cell_at s conn = Some (Conn c) →
  (∀ callid call, code (c_cthread c) callid call = client_connection callid call) →
  chain (conn_hash_table s) (conn_hash (c_in_phone_hash c)) = old ++ [conn] →
  walk s (c_in_phone_hash c) old NULL → conn ∉ old →
  faults (connection_thread conn) s
         [EvAnswerFast (c_callid c) ENOENT 0 0; EvHashRemove (c_in_phone_hash c);
          EvFree conn] UseAfterFree.
Proof.
  intros Hc Hcode Hchain Hold Hnotin.
  pose proof (cell_at_not_null _ _ _ Hc) as Hnn.
  set (key := c_in_phone_hash c) in *.
  set (s1 := set_PS_connection conn s).
  assert (Hc1 : cell_at s1 conn = Some (Conn c)) by done.
  assert (Hfind : exec (hash_table_find key) s1 [] conn s1).
  { apply exec_hash_table_find. change (conn_hash_table s1) with (conn_hash_table s).
    rewrite Hchain.
    apply walk_app_missing; [apply (walk_frame s s1); [by intros|done]|].
    cbn [walk]. exists c. split; [done|]. fold key. by rewrite Z.eqb_refl. }
  set (s2 := set_conn_hash_table (λ h, <[conn_hash key := old]> h) s1).
  assert (Hremove : exec (hash_table_remove key) s1 [EvHashRemove key; EvFree conn] tt
                         (freed conn s2)).
  { unfold hash_table_remove. step.
    eapply exec_bind_eq; [exact Hfind|cbn beta|].
    destruct (Z.eqb_spec conn NULL); [done|].
    eapply exec_bind_eq; [apply exec_modify|cbn beta|].
    assert (set_conn_hash_table
              (λ h, <[conn_hash key := unlink conn (chain h (conn_hash key))]> h) s1
            = s2) as ->.
    { unfold s2, set_conn_hash_table. cbn. rewrite Hchain.
      rewrite unlink_middle by (by rewrite app_nil_r). by rewrite app_nil_r. }
    apply exec_free. all: traces. }
  unfold connection_thread.
  eapply faults_bind_eq; [apply exec_modify|cbn beta|reflexivity].
  eapply faults_bind_eq; [apply exec_get|cbn beta zeta|reflexivity].
  change (PS_connection (set_PS_connection conn s)) with conn.
  eapply faults_bind_eq; [by apply exec_load_conn|cbn beta|reflexivity].
  eapply faults_bind_eq; [rewrite Hcode; apply exec_emit|cbn beta|reflexivity].
  eapply faults_bind_eq; [by apply exec_load_conn|cbn beta|reflexivity].
  fold key.
  eapply faults_bind_eq; [exact Hremove|cbn beta|reflexivity].
  apply faults_bind_l. by apply faults_load_conn_freed.
Qed.

(** *** The properties *)

(** X4.  [insert_timeout] keeps the timeout list in the order of the
    deadlines: the message goes in behind every entry that expires no
    later than it does and before the first that expires later; nothing
    else moves, and no cell of the heap changes. *)
Theorem insert_timeout_keeps_list_sorted (msg : Z) (m : amsg_t) (s : store) :
  cell_at s msg = Some (Amsg m) → sorted_timeouts s →
  ∃ l1 l2,
    timeout_list s = l1 ++ l2 ∧
    insert_timeout msg s
      = ([], Ok tt (set_timeout_list (λ _, l1 ++ msg :: l2) s)) ∧
    sorted_timeouts (set_timeout_list (λ _, l1 ++ msg :: l2) s) ∧
    Forall (λ p, ∃ a, cell_at s p = Some (Amsg a)
                      ∧ tv_gt (am_expires a) (am_expires m) = false) l1 ∧
    Forall (λ p, ∃ a, cell_at s p = Some (Amsg a)
                      ∧ tv_gt (am_expires a) (am_expires m) = true) l2.
Proof.
  intros Hm (ds & Hds & Hsorted).
  destruct (exec_insert_sorted (am_expires m) msg _ _ _ Hds Hsorted)
    as (l1 & l2 & d1 & d2 & Hl & -> & H1 & H2 & Hex & Hd1 & Hd2 & Hs).
  assert (Hcells : ∀ (P : timeval → Prop) l ds,
            Forall2 (expires_at s) l ds → Forall P ds →
            Forall (λ p, ∃ a, cell_at s p = Some (Amsg a) ∧ P (am_expires a)) l).
  { intros P l ds Hl2 Hall. induction Hl2 as [|p x l ds (a & Ha & <-) _ IH]; [done|].
    apply Forall_cons in Hall as [? ?]. constructor; [by exists a|auto]. }
  exists l1, l2. split_and!; [done| | | |].
  - unfold insert_timeout. step. step. step. apply exec_modify. all: traces.
  - exists (d1 ++ am_expires m :: d2). split; [|done].
    cbn. apply Forall2_app; [done|]. constructor; [by exists m|done].
  - by apply (Hcells (λ x, tv_gt x (am_expires m) = false) l1 d1).
  - by apply (Hcells (λ x, tv_gt x (am_expires m) = true) l2 d2).
Qed.

(** X5.  [handle_expired_timeouts] takes off the timeout list exactly the
    entries at its head whose deadline is not later than the clock, and
    stops at the first that is: each entry taken off has [has_timeout]
    cleared and is active afterwards, the fibrils of those that were
    parked are made ready in the order of the list, and nothing is
    released. *)
Theorem handle_expired_timeouts_fires_due_prefix (gone kept : list Z) (s : store) :
  timeout_list s = gone ++ kept → NoDup (timeout_list s) →
  Forall (due s (clock s)) gone → not_due s (clock s) kept →
  ∃ s',
    handle_expired_timeouts s = (wakeups s gone, Ok tt s') ∧
    timeout_list s' = kept ∧
    (∀ p a, p ∈ gone → cell_at s p = Some (Amsg a) →
            cell_at s' p = Some (Amsg (fired a))) ∧
    (∀ p, p ∉ gone → cell_at s' p = cell_at s p) ∧
    released s' = released s.
Proof.
  intros Hl Hnd Hdue Hkept.
  destruct (exec_handle_expired_timeouts gone kept s Hl Hnd Hdue Hkept)
    as (s' & Hex & Hl' & Hfired & Hrest & Hrel & _).
  by exists s'.
Qed.

(** X6.  A wait with a timeout whose deadline has passed when the manager
    sweeps, no other waiter being due: the sweep makes the fibril ready,
    [async_wait_timeout] returns [ETIMEOUT], and the message is still
    allocated, without a reply, active and off the timeout list, which is
    as it was; the same wait can be made again. *)
Theorem wait_timeout_expires_and_can_be_repeated
    (amsgid retval timeout : Z) (now : timeval) (m : amsg_t) (s : store) :
  cell_at s amsgid = Some (Amsg m) → am_done m = false →
  sorted_timeouts s → NoDup (timeout_list s) → amsgid ∉ timeout_list s →
  Forall (λ p, ∃ a, cell_at s p = Some (Amsg a)
                    ∧ tv_gt (am_expires a) now = true) (timeout_list s) →
  tv_gt (tv_add (clock s) timeout) now = false →
  ∃ s' m',
    async_wait_timeout (modify (set_clock now);; handle_expired_timeouts)
                       amsgid retval timeout s
      = ([EvAddReady (self s)], Ok ETIMEOUT s') ∧
    cell_at s' amsgid = Some (Amsg m') ∧ am_done m' = false ∧
    am_active m' = true ∧ am_has_timeout m' = false ∧
    sorted_timeouts s' ∧ timeout_list s' = timeout_list s ∧
    released s' = released s.
Proof.
  intros Hm Hd Hsorted Hnd Hnotin Hothers Hpast.
  destruct (exec_wait_timeout_expires amsgid retval timeout now m s)
    as (s' & Hex & Hm' & Hframe & Hl & Hrel & _); [done..|].
  exists s', (fired (parked (self s) (clock s) timeout m)).
  split_and!; [done|done|done|done|done| |done|done].
  apply (sorted_timeouts_frame s s'); [done| |done].
  intros p Hp. apply Hframe. by intros ->.
Qed.

(** X7.  A wait with a timeout whose reply comes while the fibril is
    parked: the callback makes the fibril ready, [async_wait_timeout]
    returns 0 with the return value and the answer stored, the message is
    released, and the timeout list is as it was before the wait, so no
    released message stays linked in it. *)
Theorem wait_timeout_reply_in_time
    (amsgid retval timeout rv data : Z) (m : amsg_t) (d : ipc_call_t) (s : store) :
  cell_at s amsgid = Some (Amsg m) → am_done m = false →
  sorted_timeouts s → amsgid ∉ timeout_list s →
  cell_at s data = Some (Call d) → out_ok s retval → data_ok s (am_dataptr m) →
  ∃ s',
    async_wait_timeout (reply_received amsgid rv data) amsgid retval timeout s
      = ([EvAddReady (self s); EvFree amsgid], Ok 0 s') ∧
    timeout_list s' = timeout_list s ∧
    released s' = amsgid :: released s ∧
    (retval ≠ NULL → cell_at s' retval = Some (Word (ipcarg_of_int rv))) ∧
    (am_dataptr m ≠ NULL → cell_at s' (am_dataptr m) = Some (Call d)).
Proof.
  intros Hm Hd Hsorted Hnotin Hdata Hout Hdp.
  pose proof (cell_at_not_null _ _ _ Hm) as Hnn.
  set (m1 := parked (self s) (clock s) timeout m).
  set (s1 := set_heap <[amsgid := Amsg m1]> s).
  assert (Hframe : ∀ q, q ≠ amsgid → cell_at s1 q = cell_at s q).
  { intros q Hq. unfold s1. by rewrite cell_at_insert_ne. }
  assert (Hm1 : cell_at s1 amsgid = Some (Amsg m1)).
  { unfold s1. by apply cell_at_insert_eq. }
  assert (Hsorted1 : sorted_timeouts s1).
  { apply (sorted_timeouts_frame s s1); [reflexivity| |exact Hsorted].
    intros p Hp. apply Hframe. by intros ->. }
  destruct (exec_insert_timeout_sorted amsgid m1 s1 Hm1 Hsorted1)
    as (l1 & l2 & Hl & Hins & _).
  change (timeout_list s1) with (timeout_list s) in Hl.
  set (s2 := set_timeout_list (λ _, l1 ++ amsgid :: l2) s1) in *.
  set (v := ipcarg_of_int rv).
  set (s3 := after_reply amsgid v d m1 s2).
  assert (Hda : amsgid ≠ data) by (intros ->; congruence).
  assert (Hdpa : am_dataptr m ≠ NULL → am_dataptr m ≠ amsgid).
  { intros Hnull Heq. destruct (Hdp Hnull) as [d0 Hd0]. rewrite Heq in Hd0.
    congruence. }
  assert (Hyield : exec (reply_received amsgid rv data) s2
                        [EvAddReady (self s)] tt s3).
  { apply (exec_reply_received amsgid rv data m1 d s2); [done| |].
    - change (cell_at s2 data) with (cell_at s1 data). by rewrite Hframe.
    - intros Hnull. destruct (Hdp Hnull) as [d0 Hd0]. exists d0.
      change (cell_at s1 (am_dataptr m) = Some (Call d0)).
      rewrite Hframe by auto. done. }
  assert (Hm3 : cell_at s3 amsgid = Some (Amsg (replied v m1)))
    by (by apply after_reply_private).
  assert (Hout3 : out_ok s3 retval).
  { intros Hne. destruct (Hout Hne) as [w Hw]. exists w.
    unfold s3. rewrite after_reply_frame.
    - change (cell_at s1 retval = Some (Word w)). rewrite Hframe; [done|].
      intros ->. congruence.
    - intros ->. congruence.
    - intros Heq. change (retval = am_dataptr m) in Heq.
      destruct (Hdp) as [d0 Hd0]; [by rewrite <- Heq|]. rewrite <- Heq in Hd0.
      congruence. }
  eexists. split_and!.
  - eapply exec_wait_timeout_parks; [done..|exact Hins|].
    eapply exec_bind_eq; [exact Hyield| |].
    + step. cbn [replied am_done set_active set_done negb].
      step. apply exec_ret. all: traces.
    + traces.
  - cbn [freed]. change (timeout_list (stored_retval retval v s3) = timeout_list s).
    assert (timeout_list (stored_retval retval v s3) = timeout_list s3) as ->
      by (unfold stored_retval; by destruct (retval =? NULL)).
    unfold s3. rewrite after_reply_timeout_list.
    change (unlink amsgid (l1 ++ amsgid :: l2) = timeout_list s).
    rewrite unlink_middle; [done|]. by rewrite <- Hl.
  - change (amsgid :: released (stored_retval retval v s3) = amsgid :: released s).
    f_equal.
    assert (released (stored_retval retval v s3) = released s3) as ->
      by (unfold stored_retval; by destruct (retval =? NULL)).
    unfold s3. by rewrite (proj1 (after_reply_rest _ _ _ _ _)).
  - intros Hne.
    rewrite cell_at_freed
      by (intros ->; destruct (Hout Hne) as [w Hw]; congruence).
    unfold stored_retval.
    destruct (Z.eqb_spec retval NULL); [done|]. by apply cell_at_insert_eq.
  - intros Hnull. rewrite cell_at_freed by (by apply Hdpa).
    assert (Hcell : cell_at s3 (am_dataptr m) = Some (Call d)).
    { apply (after_reply_data amsgid v d m1 s2); [done|]. by apply Hdpa. }
    unfold stored_retval. destruct (Z.eqb_spec retval NULL); [done|].
    rewrite cell_at_insert_ne; [done|]. intros ->.
    destruct (Hout) as [w Hw]; [done|]. destruct (Hdp Hnull) as [d0 Hd0].
    congruence.
Qed.

(** X8.  A request from [async_send_2] to the return of [async_wait_for],
    answered while its sender waits: one kernel call is issued with the
    new message as its cookie, the reply makes the sender ready, the
    return value and the answer arrive where the sender asked for them,
    and the message is released, so that as much can be allocated
    afterwards as before. *)
Theorem send_wait_reply_round_trip
    (phoneid method arg1 arg2 dataptr rp rv data w : Z) (d : ipc_call_t) (s : store) :
  mem_avail s ≠ 0%nat →
  cell_at s data = Some (Call d) → cell_at s rp = Some (Word w) →
  data_ok s dataptr →
  ∃ msg s',
    cell_at s msg = None ∧
    (msg ← async_send_2 phoneid method arg1 arg2 dataptr;
     async_wait_for (reply_received msg rv data) msg rp;;
     mret msg) s
      = ([EvCallAsync phoneid method arg1 arg2 msg; EvAddReady (self s);
          EvFree msg], Ok msg s') ∧
    cell_at s' rp = Some (Word (ipcarg_of_int rv)) ∧
    (dataptr ≠ NULL → cell_at s' dataptr = Some (Call d)) ∧
    mem_avail s' = mem_avail s ∧ released s' = msg :: released s.
Proof.
  intros Hmem Hdata Hrp Hdp. destruct (mem_avail s) as [|n] eqn:Hn; [done|].
  destruct (exec_send_wait_reply phoneid method arg1 arg2 dataptr rp rv data d w s n)
    as (msg & s' & Hfresh & Hex & Hrp' & Hdp' & Hmem' & Hrel & _); [done..|].
  exists msg, s'. split_and!; try done. by rewrite Hmem', Hn.
Qed.

(** X9.  However many calls are routed to a connection whose fibril is
    parked, the fibril is made ready once, by the first of them; the calls
    are queued behind what the queue held, one message each, in the order
    in which they came. *)
Theorem route_all_wakes_parked_fibril_once
    (conn callid : Z) (call : ipc_call_t) (calls : list (Z * ipc_call_t))
    (c : connection_t) (s : store) :
  cell_at s conn = Some (Conn c) → c_active c = false →
  Forall (λ x, routes_to s x.2 = Some conn) ((callid, call) :: calls) →
  (S (length calls) ≤ mem_avail s)%nat →
  ∃ s' msgs c',
    route_all ((callid, call) :: calls) s = ([EvAddReady (c_ptid c)], Ok tt s') ∧
    cell_at s' conn = Some (Conn c') ∧ c_active c' = true ∧
    c_msg_queue c' = c_msg_queue c ++ msgs ∧
    holds s' msgs ((callid, call) :: calls).
Proof.
  intros Hc Hact Hroutes Hmem.
  destruct (exec_route_all_parked conn callid call calls s c)
    as (s' & msgs & Hex & Hc' & Hh); [done..|].
  by exists s', msgs,
    (set_conn_active true (set_msg_queue (c_msg_queue c ++ msgs) c)).
Qed.

(** X10.  A fibril that asks for its next call on an empty queue parks,
    and a call routed to its connection meanwhile makes it ready and is
    what [async_get_call] returns; the message that carried the call is
    released, the queue is empty again and the connection active. *)
Theorem get_call_returns_call_routed_meanwhile
    (callid conn : Z) (call : ipc_call_t) (c : connection_t) (s : store) :
  PS_connection s = conn → cell_at s conn = Some (Conn c) → c_msg_queue c = [] →
  routes_to s call = Some conn → mem_avail s ≠ 0%nat →
  ∃ msg s' c',
    cell_at s msg = None ∧
    async_get_call (route_call callid call;; mret tt) s
      = ([EvAddReady (c_ptid c); EvFree msg], Ok (callid, call) s') ∧
    cell_at s' conn = Some (Conn c') ∧ c_msg_queue c' = [] ∧ c_active c' = true ∧
    mem_avail s' = mem_avail s ∧ released s' = msg :: released s.
Proof.
  intros HPS Hc Hq Hroute Hmem. destruct (mem_avail s) as [|n] eqn:Hn; [done|].
  destruct (exec_get_call_routed callid call conn c s n)
    as (msg & s' & c' & Hfresh & Hex & Hrest); [done..|].
  rewrite Hn in Hrest. by exists msg, s', c'.
Qed.

(** X11.  [async_new_connection] with storage and a fibril to be had:
    it returns the new fibril's identifier, having put one connection into
    the table and made its fibril ready; the connection is born active
    with an empty queue.  Afterwards every key that found a connection
    finds the same one, also the key of the opening call, and that key,
    had it found none, finds the new connection. *)
Theorem new_connection_routes_its_key
    (callid cthread ptid : Z) (call : ipc_call_t) (rest : list Z) (s : store) :
  mem_avail s ≠ 0%nat → ptid_supply s = ptid :: rest → ptid ≠ 0 →
  ∃ conn s',
    async_new_connection callid call cthread s
      = ([EvHashInsert (IPC_GET_ARG3 call) conn; EvAddReady ptid], Ok ptid s') ∧
    cell_at s conn = None ∧
    cell_at s' conn = Some (Conn (fresh_conn callid call cthread ptid)) ∧
    (∀ q, q ≠ conn → cell_at s' q = cell_at s q) ∧
    (∀ call' p, routes_to s call' = Some p →
       routes_to s' call'
       = Some (if (p =? NULL) && (in_phone_hash call' =? IPC_GET_ARG3 call)
               then conn else p)).
Proof.
  intros Hmem Hsupply Hptid. destruct (mem_avail s) as [|n] eqn:Hn; [done|].
  destruct (exec_async_new_connection callid call cthread s n ptid rest)
    as (conn & Hnn & Hfresh & Hex); [done..|].
  exists conn, (opened callid call cthread ptid conn n rest s).
  split_and!; [done|done| | |].
  - by apply opened_conn.
  - intros q Hq. by apply opened_frame.
  - intros call' p Hp. by apply opened_routes.
Qed.

(** X12.  [async_new_connection] with storage but no fibril to be had:
    the opening call is answered [ENOMEM] and [NULL] is returned; the
    storage taken for the connection is released first, the table is as
    it was, and as much can be allocated afterwards as before. *)
Theorem new_connection_without_fibril_gives_storage_back
    (callid cthread : Z) (call : ipc_call_t) (s : store) :
  mem_avail s ≠ 0%nat → ptid_supply s = [] →
  ∃ conn s',
    async_new_connection callid call cthread s
      = ([EvFree conn; EvAnswerFast callid ENOMEM 0 0], Ok NULL s') ∧
    cell_at s conn = None ∧
    conn_hash_table s' = conn_hash_table s ∧
    released s' = conn :: released s ∧ mem_avail s' = mem_avail s ∧
    (∀ q, q ≠ conn → cell_at s' q = cell_at s q).
Proof.
  intros Hmem Hsupply. destruct (mem_avail s) as [|n] eqn:Hn; [done|].
  destruct (exec_async_new_connection_no_fibril callid call cthread s n)
    as (conn & Hnn & Hfresh & Hex); [done..|].
  eexists conn, _. split_and!; [exact Hex|done|done|done|done|].
  intros q Hq. rewrite cell_at_freed by done. by rewrite cell_at_insert_ne.
Qed.

(** X13.  [handle_call] for a call that no connection takes.  An
    interrupt is dropped without an answer.  A request to connect opens a
    connection served by [client_connection] when there is storage and a
    fibril for it, and is answered [ENOMEM] when there is no storage.
    Every other call is answered [EHANGUP].  Only the opening of a
    connection changes the store. *)
Theorem handle_call_unknown_connection (callid : Z) (call : ipc_call_t) (s : store) :
  routes_to s call = Some NULL →
  (IPC_GET_METHOD call = IPC_M_INTERRUPT →
   handle_call callid call s = ([], Ok tt s))
  ∧ (IPC_GET_METHOD call ≠ IPC_M_INTERRUPT →
     IPC_GET_METHOD call = IPC_M_CONNECT_ME_TO →
     (∀ n ptid rest,
        mem_avail s = S n → ptid_supply s = ptid :: rest → ptid ≠ 0 →
        ∃ conn,
          cell_at s conn = None ∧
          handle_call callid call s
            = ([EvHashInsert (IPC_GET_ARG3 call) conn; EvAddReady ptid],
               Ok tt (opened callid call client_connection_addr ptid conn n rest s)))
     ∧ (mem_avail s = 0%nat →
        handle_call callid call s = ([EvAnswerFast callid ENOMEM 0 0], Ok tt s)))
  ∧ (IPC_GET_METHOD call ≠ IPC_M_INTERRUPT →
     IPC_GET_METHOD call ≠ IPC_M_CONNECT_ME_TO →
     handle_call callid call s = ([EvAnswerFast callid EHANGUP 0 0], Ok tt s)).
Proof.
  intros Hroute. split_and!.
  - intros Hm. apply exec_handle_call_unrouted; [done|].
    rewrite Hm, Z.eqb_refl. apply exec_ret.
  - intros Hni Hm. rewrite Hm in Hni. split.
    + intros n ptid rest Hmem Hsupply Hptid.
      destruct (exec_async_new_connection callid call client_connection_addr
                  s n ptid rest) as (conn & Hnn & Hfresh & Hex); [done..|].
      exists conn. split; [done|].
      apply exec_handle_call_unrouted; [done|]. rewrite Hm.
      destruct (Z.eqb_spec IPC_M_CONNECT_ME_TO IPC_M_INTERRUPT); [done|].
      rewrite Z.eqb_refl.
      eapply exec_bind_eq; [exact Hex|apply exec_ret|traces].
    + intros Hmem. apply exec_handle_call_unrouted; [done|]. rewrite Hm.
      destruct (Z.eqb_spec IPC_M_CONNECT_ME_TO IPC_M_INTERRUPT); [done|].
      rewrite Z.eqb_refl.
      eapply exec_bind_eq;
        [by apply async_new_connection_out_of_memory|apply exec_ret|traces].
  - intros Hni Hnc. apply exec_handle_call_unrouted; [done|].
    destruct (Z.eqb_spec (IPC_GET_METHOD call) IPC_M_INTERRUPT); [done|].
    destruct (Z.eqb_spec (IPC_GET_METHOD call) IPC_M_CONNECT_ME_TO); [done|].
    apply exec_emit.
Qed.

(** X14.  A connection from its opening to the end of its fibril.  A
    request to connect for a key that no connection has opens one, with
    nothing queued; its fibril, running the default handler, answers the
    opening call [ENOENT], takes the connection out of the table and frees
    it, and then tests the queue of the connection it has freed.  The
    fibril ends in this read of freed storage also when nothing was
    queued. *)
Theorem opened_connection_is_read_after_its_release
    (callid ptid : Z) (call : ipc_call_t) (rest : list Z) (s : store) :
  (∀ cid cl, code client_connection_addr cid cl = client_connection cid cl) →
  IPC_M_CONNECT_ME_TO ≠ IPC_M_INTERRUPT →
  IPC_GET_METHOD call = IPC_M_CONNECT_ME_TO →
  routes_to s call = Some NULL →
  hash_table_find (IPC_GET_ARG3 call) s = ([], Ok NULL s) →
  mem_avail s ≠ 0%nat → ptid_supply s = ptid :: rest → ptid ≠ 0 →
  ∃ conn s1 c,
    cell_at s conn = None ∧
    handle_call callid call s
      = ([EvHashInsert (IPC_GET_ARG3 call) conn; EvAddReady ptid], Ok tt s1) ∧
    cell_at s1 conn = Some (Conn c) ∧ c_msg_queue c = [] ∧
    connection_thread conn s1
      = ([EvAnswerFast callid ENOENT 0 0; EvHashRemove (IPC_GET_ARG3 call);
          EvFree conn], Fault UseAfterFree).
Proof.
  intros Hcode Hdistinct Hm Hroute Hnone Hmem Hsupply Hptid.
  destruct (mem_avail s) as [|n] eqn:Hn; [done|].
  set (k := IPC_GET_ARG3 call) in *.
  destruct (exec_async_new_connection callid call client_connection_addr
              s n ptid rest) as (conn & Hnn & Hfresh & Hopen); [done..|].
  set (s1 := opened callid call client_connection_addr ptid conn n rest s) in *.
  set (c := fresh_conn callid call client_connection_addr ptid).
  set (old := chain (conn_hash_table s) (conn_hash k)).
  assert (Hold : walk s k old NULL) by (by apply exec_hash_table_find).
  assert (Hnotin : conn ∉ old).
  { intros Hin. destruct (walk_null_cells _ _ _ Hold conn Hin) as [c0 Hc0].
    congruence. }
  assert (Hf1 : ∀ q cq, cell_at s q = Some cq → cell_at s1 q = Some cq).
  { intros q cq Hq. unfold s1. rewrite opened_frame; [done|congruence]. }
  exists conn, s1, c. split_and!; [done| |by apply opened_conn|done|].
  - apply exec_handle_call_unrouted; [done|]. rewrite Hm.
    destruct (Z.eqb_spec IPC_M_CONNECT_ME_TO IPC_M_INTERRUPT); [done|].
    rewrite Z.eqb_refl.
    eapply exec_bind_eq; [exact Hopen|apply exec_ret|traces].
  - apply (faults_connection_thread_default conn c old s1).
    + by apply opened_conn.
    + intros cid cl. apply Hcode.
    + unfold s1, opened, chain at 1. cbn. fold k. by rewrite lookup_insert_eq.
    + by apply (walk_frame s s1).
    + done.
Qed.

(** X25.  A reply that comes before its sender waits is not lost.  The
    message leaves [async_send_2] active, so [reply_received] calls the
    scheduler for nobody, and [async_wait_for] finds the reply and returns
    without yielding: the return value and the answer are where the
    sender asked for them and the message is released.  [async_send_2]
    does not set [has_timeout], which [reply_received] reads; the property
    is for storage in which it reads as no. *)
Theorem reply_before_wait_is_not_lost
    (phoneid method arg1 arg2 dataptr rp rv data w : Z) (d : ipc_call_t)
    (yield : proc unit) (s : store) :
  am_has_timeout indeterminate_amsg = false →
  mem_avail s ≠ 0%nat →
  cell_at s data = Some (Call d) → cell_at s rp = Some (Word w) →
  data_ok s dataptr →
  ∃ msg s',
    cell_at s msg = None ∧
    (msg ← async_send_2 phoneid method arg1 arg2 dataptr;
     reply_received msg rv data;;
     async_wait_for yield msg rp;;
     mret msg) s
      = ([EvCallAsync phoneid method arg1 arg2 msg; EvFree msg], Ok msg s') ∧
    cell_at s' rp = Some (Word (ipcarg_of_int rv)) ∧
    (dataptr ≠ NULL → cell_at s' dataptr = Some (Call d)) ∧
    mem_avail s' = mem_avail s ∧ released s' = msg :: released s ∧
    timeout_list s' = timeout_list s.
Proof.
  intros Hclean Hmem Hdata Hrp Hdp. destruct (mem_avail s) as [|n] eqn:Hn; [done|].
  destruct (exec_async_send_2 phoneid method arg1 arg2 dataptr s n Hn)
    as (msg & Hnn & Hfresh & Hsend).
  set (m0 := sent dataptr).
  set (s1 := set_heap <[msg := Amsg m0]> (set_mem_avail (λ _, n) s)) in *.
  assert (Hframe1 : ∀ q c, cell_at s q = Some c → cell_at s1 q = Some c).
  { intros q c Hq. unfold s1. rewrite cell_at_insert_ne; [done|]. intros ->.
    congruence. }
  set (v := ipcarg_of_int rv).
  set (s2 := after_reply msg v d m0 s1).
  assert (Hreply : exec (reply_received msg rv data) s1 [] tt s2).
  { apply (exec_reply_received msg rv data m0 d s1).
    - by apply cell_at_insert_eq.
    - by apply Hframe1.
    - intros Hnull. destruct (Hdp Hnull) as [d0 Hd0]. exists d0. by apply Hframe1. }
  assert (Hm2 : cell_at s2 msg = Some (Amsg (replied v m0)))
    by (by apply after_reply_private).
  assert (Hrpn : rp ≠ NULL) by (by eapply cell_at_not_null).
  assert (Hrp2 : cell_at s2 rp = Some (Word w)).
  { unfold s2. rewrite after_reply_frame; [by apply Hframe1|congruence|].
    intros Heq. change (rp = dataptr) in Heq. rewrite <- Heq in Hdp.
    destruct Hdp as [d0 Hd0]; [done|congruence]. }
  assert (Hwait : exec (async_wait_for yield msg rp) s2 [EvFree msg] tt
                       (freed msg (stored_retval rp v s2))).
  { unfold async_wait_for. step. cbn [replied am_done set_active set_done].
    apply (exec_at_done msg rp (replied v m0)); [done|]. intros _. by exists w.
    traces. }
  exists msg, (freed msg (stored_retval rp v s2)).
  split_and!; [done| | | | | |].
  - eapply exec_bind_eq; [exact Hsend|cbn beta|reflexivity].
    eapply exec_bind_eq; [exact Hreply|cbn beta|reflexivity].
    eapply exec_bind_eq; [exact Hwait|apply exec_ret|reflexivity].
  - rewrite cell_at_freed by congruence. unfold stored_retval.
    destruct (Z.eqb_spec rp NULL); [done|]. by apply cell_at_insert_eq.
  - intros Hnull. destruct (Hdp Hnull) as [d0 Hd0].
    rewrite cell_at_freed by congruence. unfold stored_retval.
    destruct (Z.eqb_spec rp NULL); [done|].
    rewrite cell_at_insert_ne by congruence.
    apply (after_reply_data msg v d m0 s1); [done|]. cbn. congruence.
  - assert (mem_avail s2 = n) as Hx
      by (unfold s2; by rewrite (proj1 (proj2 (after_reply_rest _ _ _ _ _)))).
    unfold stored_retval. destruct (rp =? NULL);
      change (S (mem_avail s2) = S n); by rewrite Hx.
  - assert (released s2 = released s) as Hx
      by (unfold s2; by rewrite (proj1 (after_reply_rest _ _ _ _ _))).
    unfold stored_retval. destruct (rp =? NULL);
      change (msg :: released s2 = msg :: released s); by rewrite Hx.
  - assert (timeout_list s2 = timeout_list s) as Hx.
    { unfold s2. rewrite after_reply_timeout_list.
      change (am_has_timeout m0) with (am_has_timeout indeterminate_amsg).
      by rewrite Hclean. }
    unfold stored_retval. destruct (rp =? NULL);
      change (timeout_list s2 = timeout_list s); by rewrite Hx.
Qed.

End facts.

(** *** Concrete runs *)

#[local] Existing Instance sample_errno.
#[local] Existing Instance sample_env.
#[local] Existing Instance sample_dispatch.

(** A message parked by the fibril [ptid] until [sec].[usec]. *)
Definition sample_waiter (ptid sec usec : Z) : amsg_t :=
  {| am_ptid := ptid; am_active := false; am_done := false; am_dataptr := NULL;
     am_expires := {| tv_sec := sec; tv_usec := usec |};
     am_has_timeout := true; am_retval := 0 |}.

(** The small world with two fibrils waiting, until 100.5 s and until
    101 s, and a third message [160] with a deadline between the two. *)
Definition sample_timeouts : store :=
  set_timeout_list (λ _, [128; 144])
    (set_heap (λ h, <[128 := Amsg (sample_waiter 5 100 500000)]>
                      (<[144 := Amsg (sample_waiter 6 101 0)]>
                         (<[160 := Amsg (sample_waiter 7 100 750000)]> h)))
       sample_store).

Lemma sample_timeouts_sorted : sorted_timeouts sample_timeouts.
Proof.
  exists [{| tv_sec := 100; tv_usec := 500000 |}; {| tv_sec := 101; tv_usec := 0 |}].
  split.
  - repeat constructor; eexists; split; reflexivity.
  - repeat constructor.
Defined.

Lemma tv_sub_tv_add_witness :
  let tv := {| tv_sec := 1; tv_usec := 999999 |} in
  tv_add tv 1500001 = {| tv_sec := 3; tv_usec := 500000 |} ∧
  tv_sub (tv_add tv 1500001) tv = 1500001 ∧
  tv_gt (tv_add tv 1500001) tv = true.
Proof.
  cbv zeta. split; [reflexivity|].
  destruct (tv_sub_tv_add {| tv_sec := 1; tv_usec := 999999 |} 1500001)
    as [Hsub Hgt]; [unfold in_long; lia|].
  split; [exact Hsub|].
  apply Hgt; unfold in_long; cbn [tv_sec tv_usec];
    change (1500001 ÷ 1000000) with 1; lia.
Defined.

Lemma tv_gt_is_positive_tv_sub_witness :
  tv_gt {| tv_sec := 1; tv_usec := 0 |} {| tv_sec := 0; tv_usec := 999999 |} = true
  ↔ 0 < tv_sub {| tv_sec := 1; tv_usec := 0 |} {| tv_sec := 0; tv_usec := 999999 |}.
Proof.
  apply (tv_gt_is_positive_tv_sub {| tv_sec := 1; tv_usec := 0 |}
           {| tv_sec := 0; tv_usec := 999999 |});
    unfold normalized, in_long; cbn; lia.
Defined.

Lemma insert_timeout_keeps_list_sorted_witness :
  ∃ l1 l2,
    [128; 144] = l1 ++ l2 ∧
    insert_timeout 160 sample_timeouts
      = ([], Ok tt (set_timeout_list (λ _, l1 ++ 160 :: l2) sample_timeouts)) ∧
    sorted_timeouts (set_timeout_list (λ _, l1 ++ 160 :: l2) sample_timeouts) ∧
    Forall (λ p, ∃ a, cell_at sample_timeouts p = Some (Amsg a)
                      ∧ tv_gt (am_expires a) {| tv_sec := 100; tv_usec := 750000 |}
                        = false) l1 ∧
    Forall (λ p, ∃ a, cell_at sample_timeouts p = Some (Amsg a)
                      ∧ tv_gt (am_expires a) {| tv_sec := 100; tv_usec := 750000 |}
                        = true) l2.
Proof.
  apply (insert_timeout_keeps_list_sorted 160 (sample_waiter 7 100 750000)
           sample_timeouts); [reflexivity|apply sample_timeouts_sorted].
Defined.

(** The clock at 100.6 s: the first waiter is due, the second is not. *)
Lemma handle_expired_timeouts_fires_due_prefix_witness :
  let s := set_clock {| tv_sec := 100; tv_usec := 600000 |} sample_timeouts in
  ∃ s',
    handle_expired_timeouts s = ([EvAddReady 5], Ok tt s') ∧
    timeout_list s' = [144] ∧
    (∀ p a, p ∈ [128] → cell_at s p = Some (Amsg a) →
            cell_at s' p = Some (Amsg (fired a))) ∧
    (∀ p, p ∉ [128] → cell_at s' p = cell_at s p) ∧
    released s' = released s.
Proof.
  apply (handle_expired_timeouts_fires_due_prefix [128] [144]
           (set_clock {| tv_sec := 100; tv_usec := 600000 |} sample_timeouts)).
  - reflexivity.
  - compute_done.
  - repeat constructor. eexists. split; reflexivity.
  - eexists. split; reflexivity.
Defined.

(** The clock at 100.3 s when the manager sweeps: a wait of 1 ms that
    began at 100.25 s is over, the two other waiters are not due. *)
Lemma wait_timeout_expires_and_can_be_repeated_witness :
  ∃ s' m',
    async_wait_timeout
      (modify (set_clock {| tv_sec := 100; tv_usec := 300000 |});;
       handle_expired_timeouts) 64 112 1000 sample_timeouts
      = ([EvAddReady 3], Ok ETIMEOUT s') ∧
    cell_at s' 64 = Some (Amsg m') ∧ am_done m' = false ∧
    am_active m' = true ∧ am_has_timeout m' = false ∧
    sorted_timeouts s' ∧ timeout_list s' = [128; 144] ∧
    released s' = [].
Proof.
  apply (wait_timeout_expires_and_can_be_repeated 64 112 1000
           {| tv_sec := 100; tv_usec := 300000 |} sample_amsg sample_timeouts).
  - reflexivity.
  - reflexivity.
  - apply sample_timeouts_sorted.
  - compute_done.
  - compute_done.
  - repeat constructor; eexists; split; reflexivity.
  - reflexivity.
Defined.

Lemma wait_timeout_reply_in_time_witness :
  ∃ s',
    async_wait_timeout (reply_received 64 (-7) 96) 64 112 1000 sample_timeouts
      = ([EvAddReady 3; EvFree 64], Ok 0 s') ∧
    timeout_list s' = [128; 144] ∧
    released s' = [64] ∧
    (112 ≠ NULL → cell_at s' 112 = Some (Word (ipcarg_of_int (-7)))) ∧
    (80 ≠ NULL → cell_at s' 80 = Some (Call sample_answer)).
Proof.
  apply (wait_timeout_reply_in_time 64 112 1000 (-7) 96 sample_amsg sample_answer
           sample_timeouts).
  - reflexivity.
  - reflexivity.
  - apply sample_timeouts_sorted.
  - compute_done.
  - reflexivity.
  - intros _. by exists 0.
  - intros _. by exists sample_call.
Defined.

Lemma send_wait_reply_round_trip_witness :
  ∃ msg s',
    cell_at sample_store msg = None ∧
    (msg ← async_send_2 1 1024 0 0 80;
     async_wait_for (reply_received msg (-7) 96) msg 112;;
     mret msg) sample_store
      = ([EvCallAsync 1 1024 0 0 msg; EvAddReady 3; EvFree msg], Ok msg s') ∧
    cell_at s' 112 = Some (Word (ipcarg_of_int (-7))) ∧
    (80 ≠ NULL → cell_at s' 80 = Some (Call sample_answer)) ∧
    mem_avail s' = 4%nat ∧ released s' = [msg].
Proof.
  apply (send_wait_reply_round_trip 1 1024 0 0 80 112 (-7) 96 0 sample_answer
           sample_store).
  - discriminate.
  - reflexivity.
  - reflexivity.
  - intros _. by exists sample_call.
Defined.

(** The small world with the fibril of the connection parked. *)
Definition sample_parked : store :=
  set_heap <[16 := Conn (set_conn_active false sample_conn)]> sample_store.

Lemma route_all_wakes_parked_fibril_once_witness :
  ∃ s' msgs c',
    route_all [(8, sample_call); (9, sample_call)] sample_parked
      = ([EvAddReady 3], Ok tt s') ∧
    cell_at s' 16 = Some (Conn c') ∧ c_active c' = true ∧
    c_msg_queue c' = [32] ++ msgs ∧
    holds s' msgs [(8, sample_call); (9, sample_call)].
Proof.
  apply (route_all_wakes_parked_fibril_once 16 8 sample_call [(9, sample_call)]
           (set_conn_active false sample_conn) sample_parked).
  - reflexivity.
  - reflexivity.
  - repeat constructor.
  - cbn. lia.
Defined.

(** The small world with nothing queued on the connection. *)
Definition sample_idle : store :=
  set_heap <[16 := Conn (set_msg_queue [] sample_conn)]> sample_store.

Lemma get_call_returns_call_routed_meanwhile_witness :
  ∃ msg s' c',
    cell_at sample_idle msg = None ∧
    async_get_call (route_call 8 sample_call;; mret tt) sample_idle
      = ([EvAddReady 3; EvFree msg], Ok (8, sample_call) s') ∧
    cell_at s' 16 = Some (Conn c') ∧ c_msg_queue c' = [] ∧ c_active c' = true ∧
    mem_avail s' = 4%nat ∧ released s' = [msg].
Proof.
  apply (get_call_returns_call_routed_meanwhile 8 16 sample_call
           (set_msg_queue [] sample_conn) sample_idle).
  - reflexivity.
  - reflexivity.
  - reflexivity.
  - reflexivity.
  - discriminate.
Defined.

Lemma new_connection_routes_its_key_witness :
  ∃ conn s',
    async_new_connection 5 sample_opening 4096 sample_store
      = ([EvHashInsert 48 conn; EvAddReady 9], Ok 9 s') ∧
    cell_at sample_store conn = None ∧
    cell_at s' conn = Some (Conn (fresh_conn 5 sample_opening 4096 9)) ∧
    (∀ q, q ≠ conn → cell_at s' q = cell_at sample_store q) ∧
    (∀ call' p, routes_to sample_store call' = Some p →
       routes_to s' call'
       = Some (if (p =? NULL) && (in_phone_hash call' =? 48) then conn else p)).
Proof.
  apply (new_connection_routes_its_key 5 4096 9 sample_opening [] sample_store).
  - discriminate.
  - reflexivity.
  - discriminate.
Defined.

Lemma new_connection_without_fibril_gives_storage_back_witness :
  let s := set_ptid_supply (λ _, []) sample_store in
  ∃ conn s',
    async_new_connection 5 sample_opening 4096 s
      = ([EvFree conn; EvAnswerFast 5 ENOMEM 0 0], Ok NULL s') ∧
    cell_at s conn = None ∧
    conn_hash_table s' = conn_hash_table s ∧
    released s' = conn :: released s ∧ mem_avail s' = mem_avail s ∧
    (∀ q, q ≠ conn → cell_at s' q = cell_at s q).
Proof.
  apply (new_connection_without_fibril_gives_storage_back 5 4096 sample_opening
           (set_ptid_supply (λ _, []) sample_store)).
  - discriminate.
  - reflexivity.
Defined.

(** A call on a phone that no connection has, asking for a method that
    is neither of the two [handle_call] knows. *)
Definition sample_stray : ipc_call_t :=
  {| in_phone_hash := 1024; method := 1024;
     arg1 := 0; arg2 := 0; arg3 := 0; arg4 := 0; arg5 := 0 |}.

(** The request to connect that opens the connection of that phone. *)
Definition sample_opening_stray : ipc_call_t :=
  {| in_phone_hash := 0; method := 1;
     arg1 := 0; arg2 := 0; arg3 := 1024; arg4 := 0; arg5 := 0 |}.

Lemma handle_call_unknown_connection_witness :
  handle_call 7 sample_stray sample_store
    = ([EvAnswerFast 7 EHANGUP 0 0], Ok tt sample_store).
Proof.
  apply (handle_call_unknown_connection 7 sample_stray sample_store);
    [reflexivity|discriminate|discriminate].
Defined.

Lemma opened_connection_is_read_after_its_release_witness :
  ∃ conn s1 c,
    cell_at sample_store conn = None ∧
    handle_call 5 sample_opening_stray sample_store
      = ([EvHashInsert 1024 conn; EvAddReady 9], Ok tt s1) ∧
    cell_at s1 conn = Some (Conn c) ∧ c_msg_queue c = [] ∧
    connection_thread conn s1
      = ([EvAnswerFast 5 ENOENT 0 0; EvHashRemove 1024; EvFree conn],
         Fault UseAfterFree).
Proof.
  apply (opened_connection_is_read_after_its_release 5 9 sample_opening_stray
           [] sample_store);
    try reflexivity; discriminate.
Defined.

Lemma reply_before_wait_is_not_lost_witness :
  ∃ msg s',
    cell_at sample_store msg = None ∧
    (msg ← async_send_2 1 1024 0 0 80;
     reply_received msg (-7) 96;;
     async_wait_for (mret tt) msg 112;;
     mret msg) sample_store
      = ([EvCallAsync 1 1024 0 0 msg; EvFree msg], Ok msg s') ∧
    cell_at s' 112 = Some (Word (ipcarg_of_int (-7))) ∧
    (80 ≠ NULL → cell_at s' 80 = Some (Call sample_answer)) ∧
    mem_avail s' = 4%nat ∧ released s' = [msg] ∧
    timeout_list s' = [].
Proof.
  apply (reply_before_wait_is_not_lost 1 1024 0 0 80 112 (-7) 96 0 sample_answer
           (mret tt) sample_store).
  - reflexivity.
  - discriminate.
  - reflexivity.
  - reflexivity.
  - intros _. by exists sample_call.
Defined.

End AsyncFacts.

(** * More of the UDP associations

    The life of an association and of its references, the search for the
    association of a datagram, and the receive queue. *)

Module UdpFacts.
Import Udp UdpProps.

Section facts.
Context {errno : Errno} {env : Env}.

(** *** Loads, stores and the library calls *)

Lemma udp_exec_load_rqe p r s :
  cell_at s p = Some (Rqe r) → exec (load_rqe p) s [] r s.
Proof.
  intros Hr. unfold load_rqe.
  eapply (exec_bind _ _ _ []); [by apply udp_exec_deref|]. apply exec_ret.
Qed.

Lemma udp_exec_update_rqe p f r s :
  cell_at s p = Some (Rqe r) →
  exec (update_rqe p f) s [] tt (set_heap <[p := Rqe (f r)]> s).
Proof.
  intros Hr. unfold update_rqe.
  eapply (exec_bind _ _ _ []); [by apply udp_exec_load_rqe|]. apply exec_modify.
Qed.

Lemma udp_set_heap_insert_twice p c c' (s : store) :
  set_heap <[p := c]> (set_heap <[p := c']> s) = set_heap <[p := c]> s.
Proof. unfold set_heap. cbn. f_equal. apply insert_insert_eq. Qed.

Lemma udp_set_heap_insert_id p c (s : store) :
  cell_at s p = Some c → set_heap <[p := c]> s = s.
Proof.
  intros Hc. unfold cell_at in Hc. destruct (p =? NULL); [done|].
  destruct s as [h r m l]. unfold set_heap. cbn in *. f_equal. by apply insert_id.
Qed.

(** What [free] leaves behind. *)
Definition udp_freed (p : Z) (s : store) : store :=
  set_mem_avail S (set_released (cons p) s).

Lemma udp_exec_free p s : exec (free p) s [EvFree p] tt (udp_freed p s).
Proof. reflexivity. Qed.

Lemma udp_exec_calloc_some zero s n :
  mem_avail s = S n →
  ∃ p, p ≠ NULL ∧ cell_at s p = None ∧
       exec (calloc zero) s [] p (set_heap <[p := zero]> (set_mem_avail (λ _, n) s)).
Proof.
  intros Hmem. set (p := fresh ({[NULL]} ∪ dom (heap s))).
  assert (Hp : p ∉ ({[NULL]} ∪ dom (heap s) : gset Z)) by apply is_fresh.
  apply not_elem_of_union in Hp as [Hp1 Hp2].
  assert (Hnn : p ≠ NULL) by (by intros ?; apply Hp1, elem_of_singleton).
  exists p. split_and!; [done| |].
  - unfold cell_at. destruct (Z.eqb_spec p NULL); [done|].
    by apply not_elem_of_dom.
  - unfold exec, calloc. by rewrite Hmem.
Qed.

Lemma udp_exec_calloc_exhausted zero s :
  mem_avail s = 0%nat → exec (calloc zero) s [] NULL s.
Proof. intros Hmem. unfold exec, calloc. by rewrite Hmem. Qed.

#[local] Hint Resolve exec_ret exec_get exec_modify exec_emit udp_exec_load_assoc
  udp_exec_update_assoc udp_exec_load_rqe udp_exec_update_rqe udp_exec_free
  udp_cell_at_insert_eq udp_cell_at_not_null : heap.

Lemma exec_atomic_set assoc v a s :
  cell_at s assoc = Some (Assoc a) →
  exec (atomic_set assoc v) s [EvAtomicSet assoc v] tt
       (set_heap <[assoc := Assoc (set_refcnt v a)]> s).
Proof. intros Ha. unfold atomic_set. step. by apply udp_exec_update_assoc. traces. Qed.

Lemma exec_atomic_inc assoc a s :
  cell_at s assoc = Some (Assoc a) →
  exec (atomic_inc assoc) s [EvAtomicInc assoc] tt
       (set_heap <[assoc := Assoc (set_refcnt (refcnt a + 1) a)]> s).
Proof.
  intros Ha. unfold atomic_inc. step.
  apply (udp_exec_update_assoc assoc (λ a, set_refcnt (refcnt a + 1) a) a s Ha).
  traces.
Qed.

Lemma exec_atomic_predec assoc a s :
  cell_at s assoc = Some (Assoc a) →
  exec (atomic_predec assoc) s [EvAtomicPredec assoc] (refcnt a - 1)
       (set_heap <[assoc := Assoc (set_refcnt (refcnt a - 1) a)]> s).
Proof.
  intros Ha. pose proof (udp_cell_at_not_null _ _ _ Ha) as Hnn.
  unfold atomic_predec. step.
  eapply exec_bind_eq;
    [apply (udp_exec_update_assoc assoc (λ a, set_refcnt (refcnt a - 1) a) a s Ha)
    |cbn beta|].
  step. apply exec_ret. all: traces.
Qed.

(** *** Creating an association *)

(** The association as [udp_assoc_new] hands it out. *)
Definition new_assoc (epp : option inet_ep2_t) (cb cb_arg : Z) : udp_assoc_t :=
  {| ident := default zero_ep2 epp; rcv_queue := []; refcnt := 1;
     deleted := false; reset := false; cb := cb; cb_arg := cb_arg |}.

Lemma exec_udp_assoc_new epp cb cb_arg s n :
  mem_avail s = S n →
  ∃ assoc,
    assoc ≠ NULL ∧ cell_at s assoc = None ∧
    exec (udp_assoc_new epp cb cb_arg) s [EvAtomicSet assoc 1] assoc
         (set_heap <[assoc := Assoc (new_assoc epp cb cb_arg)]>
            (set_mem_avail (λ _, n) s)).
Proof.
  intros Hmem.
  destruct (udp_exec_calloc_some (Assoc zero_assoc) s n Hmem)
    as (assoc & Hnn & Hfresh & Hcalloc).
  exists assoc. split_and!; [done..|].
  assert (Hset : exec (atomic_set assoc 1)
                   (set_heap <[assoc := Assoc zero_assoc]> (set_mem_avail (λ _, n) s))
                   [EvAtomicSet assoc 1] tt
                   (set_heap <[assoc := Assoc (set_refcnt 1 zero_assoc)]>
                      (set_mem_avail (λ _, n) s))).
  { pose proof (exec_atomic_set assoc 1 zero_assoc
                  (set_heap <[assoc := Assoc zero_assoc]> (set_mem_avail (λ _, n) s))
                  (udp_cell_at_insert_eq _ _ _ Hnn)) as Hx.
    by rewrite udp_set_heap_insert_twice in Hx. }
  unfold udp_assoc_new. destruct epp as [e|]; cbn [default].
  - eapply exec_bind_eq; [exact Hcalloc|cbn beta|].
    destruct (Z.eqb_spec assoc NULL); [done|].
    eapply exec_bind_eq; [exact Hset|cbn beta|].
    step. rewrite udp_set_heap_insert_twice.
    step. rewrite udp_set_heap_insert_twice. step.
    rewrite udp_set_heap_insert_twice. apply exec_ret. all: traces.
  - eapply exec_bind_eq; [exact Hcalloc|cbn beta|].
    destruct (Z.eqb_spec assoc NULL); [done|].
    eapply exec_bind_eq; [exact Hset|cbn beta|].
    step. rewrite udp_set_heap_insert_twice.
    step. step. rewrite udp_set_heap_insert_twice. apply exec_ret. all: traces.
Qed.

(** *** Reference counting *)

(** The entries [q] of a receive queue hold [rs], one each. *)
Definition udp_queued (s : store) (q : list Z) (rs : list udp_rcv_queue_entry_t) : Prop :=
  Forall2 (λ p r, cell_at s p = Some (Rqe r)) q rs.

(** What [udp_assoc_free] does with a queue: every message is deleted
    and its entry released, the oldest first. *)
Definition flushed (q : list Z) (rs : list udp_rcv_queue_entry_t) : list event :=
  flat_map (λ pr, [EvMsgDelete (rqe_msg pr.2); EvFree pr.1]) (zip q rs).

Lemma udp_queued_frame s s' q rs :
  (∀ p r, cell_at s p = Some (Rqe r) → cell_at s' p = Some (Rqe r)) →
  udp_queued s q rs → udp_queued s' q rs.
Proof. intros Hf Hq. eapply Forall2_impl; [exact Hq|]. auto. Qed.

Lemma exec_flush_rcv_queue assoc : ∀ q rs fuel s a,
  cell_at s assoc = Some (Assoc a) → rcv_queue a = q → udp_queued s q rs →
  (length q ≤ fuel)%nat →
  ∃ s',
    exec (flush_rcv_queue fuel assoc) s (flushed q rs) tt s' ∧
    cell_at s' assoc = Some (Assoc (set_rcv_queue [] a)) ∧
    (∀ p, p ≠ assoc → cell_at s' p = cell_at s p) ∧
    released s' = rev q ++ released s ∧
    mem_avail s' = (mem_avail s + length q)%nat ∧
    assoc_list s' = assoc_list s.
Proof.
  induction q as [|link rest IH]; intros rs fuel s a Ha Hq Hrs Hfuel.
  - exists s. inversion Hrs; subst. split_and!; try done.
    + destruct fuel; cbn [flush_rcv_queue];
        (step; [rewrite Hq; apply exec_ret|traces]).
    + rewrite Ha. destruct a; cbn in *. by rewrite Hq.
  - inversion Hrs as [|? r ? rs' Hlink Hrest]; subst rs.
    destruct fuel as [|fuel]; [cbn in Hfuel; lia|].
    pose proof (udp_cell_at_not_null _ _ _ Ha) as Hnn.
    assert (Hne : link ≠ assoc) by congruence.
    set (s1 := set_heap <[assoc := Assoc (set_rcv_queue rest a)]> s).
    assert (Hframe : ∀ p, p ≠ assoc → cell_at s1 p = cell_at s p).
    { intros p Hp. unfold s1. by rewrite udp_cell_at_insert_ne. }
    destruct (IH rs' fuel (udp_freed link s1) (set_rcv_queue rest a))
      as (s' & Hex & Ha' & Hf' & Hrel & Hmem & Hlist).
    { by apply udp_cell_at_insert_eq. }
    { done. }
    { eapply udp_queued_frame; [|exact Hrest]. intros p r0 Hp.
      change (cell_at s1 p = Some (Rqe r0)). rewrite Hframe; [done|congruence]. }
    { cbn in Hfuel. lia. }
    exists s'. split_and!.
    + cbn [flush_rcv_queue]. step. rewrite Hq. step.
      eapply exec_bind_eq;
        [apply (udp_exec_load_rqe link r); fold s1; by rewrite Hframe|cbn beta|].
      step. step. exact Hex. all: traces.
    + rewrite Ha'. by destruct a.
    + intros p Hp. rewrite Hf' by done. change (cell_at s1 p = cell_at s p). auto.
    + rewrite Hrel. cbn [rev]. rewrite <- app_assoc. reflexivity.
    + rewrite Hmem. cbn. lia.
    + by rewrite Hlist.
Qed.

Lemma exec_udp_assoc_free assoc a rs s :
  cell_at s assoc = Some (Assoc a) → udp_queued s (rcv_queue a) rs →
  ∃ s',
    exec (udp_assoc_free assoc) s (flushed (rcv_queue a) rs ++ [EvFree assoc]) tt s' ∧
    cell_at s' assoc = Some (Assoc (set_rcv_queue [] a)) ∧
    (∀ p, p ≠ assoc → cell_at s' p = cell_at s p) ∧
    released s' = assoc :: rev (rcv_queue a) ++ released s ∧
    mem_avail s' = S (mem_avail s + length (rcv_queue a)) ∧
    assoc_list s' = assoc_list s.
Proof.
  intros Ha Hrs.
  destruct (exec_flush_rcv_queue assoc (rcv_queue a) rs (length (rcv_queue a)) s a)
    as (s1 & Hex & Ha1 & Hf & Hrel & Hmem & Hlist); [done..|].
  exists (udp_freed assoc s1). split_and!.
  - unfold udp_assoc_free. step.
    eapply exec_bind_eq; [exact Hex|apply udp_exec_free|reflexivity]. traces.
  - done.
  - done.
  - cbn. by rewrite Hrel.
  - cbn. by rewrite Hmem.
  - done.
Qed.

(** [udp_assoc_delref] when other references remain. *)
Lemma exec_udp_assoc_delref_held assoc a s :
  cell_at s assoc = Some (Assoc a) → refcnt a ≠ 1 →
  exec (udp_assoc_delref assoc) s [EvAtomicPredec assoc] tt
       (set_heap <[assoc := Assoc (set_refcnt (refcnt a - 1) a)]> s).
Proof.
  intros Ha Hcnt. unfold udp_assoc_delref.
  eapply exec_bind_eq; [by apply exec_atomic_predec|cbn beta|].
  - destruct (Z.eqb_spec (refcnt a - 1) 0); [lia|]. apply exec_ret.
  - traces.
Qed.

(** [udp_assoc_delref] of the last reference. *)
Lemma exec_udp_assoc_delref_last assoc a rs s :
  cell_at s assoc = Some (Assoc a) → refcnt a = 1 →
  udp_queued s (rcv_queue a) rs →
  ∃ s',
    exec (udp_assoc_delref assoc) s
         (EvAtomicPredec assoc :: flushed (rcv_queue a) rs ++ [EvFree assoc]) tt s' ∧
    cell_at s' assoc = Some (Assoc (set_rcv_queue [] (set_refcnt 0 a))) ∧
    (∀ p, p ≠ assoc → cell_at s' p = cell_at s p) ∧
    released s' = assoc :: rev (rcv_queue a) ++ released s ∧
    mem_avail s' = S (mem_avail s + length (rcv_queue a)) ∧
    assoc_list s' = assoc_list s.
Proof.
  intros Ha Hcnt Hrs. pose proof (udp_cell_at_not_null _ _ _ Ha) as Hnn.
  set (s1 := set_heap <[assoc := Assoc (set_refcnt (refcnt a - 1) a)]> s).
  destruct (exec_udp_assoc_free assoc (set_refcnt (refcnt a - 1) a) rs s1)
    as (s' & Hex & Ha' & Hf & Hrel & Hmem & Hlist).
  { by apply udp_cell_at_insert_eq. }
  { eapply udp_queued_frame; [|exact Hrs]. intros p r Hp. unfold s1.
    rewrite udp_cell_at_insert_ne; [done|congruence]. }
  exists s'. split_and!.
  - unfold udp_assoc_delref.
    eapply exec_bind_eq; [by apply exec_atomic_predec|cbn beta|].
    + destruct (Z.eqb_spec (refcnt a - 1) 0); [exact Hex|lia].
    + reflexivity.
  - rewrite Ha'. by rewrite Hcnt.
  - intros p Hp. rewrite Hf by done. unfold s1. by rewrite udp_cell_at_insert_ne.
  - done.
  - done.
  - done.
Qed.

Lemma set_refcnt_back a : set_refcnt (refcnt a + 1 - 1) a = a.
Proof. destruct a. unfold set_refcnt. cbn. f_equal. lia. Qed.

(** A reference taken and given back. *)
Lemma exec_addref_delref assoc a s :
  cell_at s assoc = Some (Assoc a) → refcnt a ≠ 0 →
  exec (udp_assoc_addref assoc;; udp_assoc_delref assoc) s
       [EvAtomicInc assoc; EvAtomicPredec assoc] tt s.
Proof.
  intros Ha Hcnt. pose proof (udp_cell_at_not_null _ _ _ Ha) as Hnn.
  eapply exec_bind_eq; [by apply exec_atomic_inc| |reflexivity].
  pose proof (exec_udp_assoc_delref_held assoc (set_refcnt (refcnt a + 1) a)
                (set_heap <[assoc := Assoc (set_refcnt (refcnt a + 1) a)]> s)
                (udp_cell_at_insert_eq _ _ _ Hnn)) as Hx.
  rewrite udp_set_heap_insert_twice in Hx. cbn [refcnt set_refcnt] in Hx.
  change (set_refcnt (refcnt a + 1 - 1) (set_refcnt (refcnt a + 1) a))
    with (set_refcnt (refcnt a + 1 - 1) a) in Hx.
  rewrite set_refcnt_back, (udp_set_heap_insert_id _ _ _ Ha) in Hx.
  apply Hx. lia.
Qed.

Lemma filter_ne_snoc (p : Z) (l : list Z) :
  p ∉ l → filter (λ q, q ≠ p) (l ++ [p]) = l.
Proof.
  intros Hp. rewrite filter_app.
  rewrite (filter_cons_False _ p []) by (intros ?; done).
  rewrite filter_nil, app_nil_r.
  induction l as [|q l IH]; [done|].
  apply not_elem_of_cons in Hp as [Hne Hp].
  rewrite filter_cons_True by done. by rewrite IH.
Qed.

(** *** Deleting an association *)

Lemma exec_udp_assoc_delete_held assoc a s :
  cell_at s assoc = Some (Assoc a) → deleted a = false → refcnt a ≠ 1 →
  exec (udp_assoc_delete assoc) s [EvAtomicPredec assoc] tt
       (set_heap <[assoc := Assoc (set_deleted true (set_refcnt (refcnt a - 1) a))]> s).
Proof.
  intros Ha Hdel Hcnt. pose proof (udp_cell_at_not_null _ _ _ Ha) as Hnn.
  unfold udp_assoc_delete. step. rewrite Hdel.
  eapply exec_bind_eq; [by apply exec_udp_assoc_delref_held|cbn beta|].
  - pose proof (udp_exec_update_assoc assoc (set_deleted true)
                  (set_refcnt (refcnt a - 1) a)
                  (set_heap <[assoc := Assoc (set_refcnt (refcnt a - 1) a)]> s)
                  (udp_cell_at_insert_eq _ _ _ Hnn)) as Hx.
    rewrite udp_set_heap_insert_twice in Hx. exact Hx.
  - traces.
  - traces.
Qed.

Lemma exec_udp_assoc_delete_last assoc a rs s :
  cell_at s assoc = Some (Assoc a) → deleted a = false → refcnt a = 1 →
  udp_queued s (rcv_queue a) rs →
  ∃ s',
    exec (udp_assoc_delete assoc) s
         (EvAtomicPredec assoc :: flushed (rcv_queue a) rs ++ [EvFree assoc]) tt s' ∧
    released s' = assoc :: rev (rcv_queue a) ++ released s ∧
    cell_at s' assoc
      = Some (Assoc (set_deleted true (set_rcv_queue [] (set_refcnt 0 a)))).
Proof.
  intros Ha Hdel Hcnt Hrs. pose proof (udp_cell_at_not_null _ _ _ Ha) as Hnn.
  destruct (exec_udp_assoc_delref_last assoc a rs s Ha Hcnt Hrs)
    as (s1 & Hex & Ha1 & Hf & Hrel & Hmem & Hlist).
  eexists. split_and!.
  - unfold udp_assoc_delete. step. rewrite Hdel.
    eapply exec_bind_eq; [exact Hex|by apply udp_exec_update_assoc|traces]. traces.
  - done.
  - by apply udp_cell_at_insert_eq.
Qed.

Lemma faults_udp_assoc_delete_again assoc a s :
  cell_at s assoc = Some (Assoc a) → deleted a = true →
  faults (udp_assoc_delete assoc) s [] AssertFailed.
Proof.
  intros Ha Hdel. unfold udp_assoc_delete.
  eapply faults_bind_eq; [by apply udp_exec_load_assoc| |reflexivity].
  by rewrite Hdel.
Qed.

(** *** Finding the association of a datagram *)

(** The association is bound to a local port and its identity takes the
    endpoints [epp] of a datagram. *)
Definition takes (epp : inet_ep2_t) (a : udp_assoc_t) : bool :=
  negb (port (local (ident a)) =? inet_port_any) && udp_ep2_match epp (ident a).

(** The search goes past [p]. *)
Definition passed (s : store) (epp : inet_ep2_t) (p : Z) : Prop :=
  ∃ a, cell_at s p = Some (Assoc a) ∧ takes epp a = false.

Lemma exec_find_in_none epp l s :
  Forall (passed s epp) l → exec (find_in epp l) s [] NULL s.
Proof.
  induction 1 as [|p l (a & Ha & Htakes) _ IH]; cbn [find_in]; [apply exec_ret|].
  step; [|traces]. unfold takes in Htakes.
  destruct (port (local (ident a)) =? inet_port_any); [exact IH|].
  cbn [negb andb] in Htakes. rewrite Htakes. exact IH.
Qed.

Lemma exec_find_in_first epp l1 p l2 a s :
  Forall (passed s epp) l1 → cell_at s p = Some (Assoc a) → takes epp a = true →
  exec (find_in epp (l1 ++ p :: l2)) s [EvAtomicInc p; EvUnlock assoc_list_lock] p
       (set_heap <[p := Assoc (set_refcnt (refcnt a + 1) a)]> s).
Proof.
  intros Hl1 Ha Htakes. unfold takes in Htakes.
  apply andb_true_iff in Htakes as [Hport Hmatch].
  induction Hl1 as [|q l1 (b & Hb & Hq) _ IH]; cbn [find_in app].
  - step; [|traces]. apply negb_true_iff in Hport. rewrite Hport, Hmatch.
    unfold udp_assoc_addref.
    eapply exec_bind_eq; [by apply exec_atomic_inc|cbn beta|reflexivity].
    eapply exec_bind_eq; [apply exec_emit|apply exec_ret|reflexivity].
  - step; [|traces]. unfold takes in Hq.
    destruct (port (local (ident b)) =? inet_port_any); [exact IH|].
    cbn [negb andb] in Hq. rewrite Hq. exact IH.
Qed.

Lemma exec_find_ref_none epp s :
  Forall (passed s epp) (assoc_list s) →
  exec (udp_assoc_find_ref epp) s
       [EvLock assoc_list_lock; EvUnlock assoc_list_lock] NULL s.
Proof.
  intros Hl. unfold udp_assoc_find_ref.
  eapply exec_bind_eq; [apply exec_emit|cbn beta|reflexivity].
  eapply exec_bind_eq; [apply exec_get|cbn beta|reflexivity].
  eapply exec_bind_eq; [by apply exec_find_in_none|cbn beta|reflexivity].
  cbn [Z.eqb NULL].
  eapply exec_bind_eq; [apply exec_emit|apply exec_ret|reflexivity].
Qed.

Lemma exec_find_ref_first epp l1 p l2 a s :
  assoc_list s = l1 ++ p :: l2 →
  Forall (passed s epp) l1 → cell_at s p = Some (Assoc a) → takes epp a = true →
  exec (udp_assoc_find_ref epp) s
       [EvLock assoc_list_lock; EvAtomicInc p; EvUnlock assoc_list_lock] p
       (set_heap <[p := Assoc (set_refcnt (refcnt a + 1) a)]> s).
Proof.
  intros Hlist Hl1 Ha Htakes. pose proof (udp_cell_at_not_null _ _ _ Ha) as Hnn.
  unfold udp_assoc_find_ref.
  eapply exec_bind_eq; [apply exec_emit|cbn beta|reflexivity].
  eapply exec_bind_eq; [apply exec_get|cbn beta|reflexivity].
  rewrite Hlist.
  eapply exec_bind_eq; [by apply exec_find_in_first|cbn beta|reflexivity].
  destruct (Z.eqb_spec p NULL); [done|]. apply exec_ret.
Qed.

(** *** Delivering a datagram *)

Lemma exec_received_none repp msg s :
  Forall (passed s repp) (assoc_list s) →
  exec (udp_assoc_received repp msg) s
       [EvLock assoc_list_lock; EvUnlock assoc_list_lock; EvMsgDelete msg] tt s.
Proof.
  intros Hl. unfold udp_assoc_received.
  eapply exec_bind_eq; [by apply exec_find_ref_none|cbn beta|reflexivity].
  cbn [Z.eqb NULL]. apply exec_emit.
Qed.

Lemma exec_received_first repp msg l1 p l2 a t2 s :
  assoc_list s = l1 ++ p :: l2 →
  Forall (passed s repp) l1 → cell_at s p = Some (Assoc a) → takes repp a = true →
  refcnt a ≠ 0 →
  exec (recv_msg_code (cb a) (cb_arg a) repp msg)
       (set_heap <[p := Assoc (set_refcnt (refcnt a + 1) a)]> s) t2 tt
       (set_heap <[p := Assoc (set_refcnt (refcnt a + 1) a)]> s) →
  exec (udp_assoc_received repp msg) s
       ([EvLock assoc_list_lock; EvAtomicInc p; EvUnlock assoc_list_lock;
         EvRecvMsg (cb a) (cb_arg a) repp msg] ++ t2 ++ [EvAtomicPredec p]) tt s.
Proof.
  intros Hlist Hl1 Ha Htakes Hcnt Hcb.
  pose proof (udp_cell_at_not_null _ _ _ Ha) as Hnn.
  set (a1 := set_refcnt (refcnt a + 1) a) in *.
  set (s1 := set_heap <[p := Assoc a1]> s) in *.
  assert (Ha1 : cell_at s1 p = Some (Assoc a1)) by (by apply udp_cell_at_insert_eq).
  assert (Hdel : exec (udp_assoc_delref p) s1 [EvAtomicPredec p] tt s).
  { pose proof (exec_udp_assoc_delref_held p a1 s1 Ha1) as Hx.
    unfold s1 in Hx. rewrite udp_set_heap_insert_twice in Hx.
    change (set_refcnt (refcnt a1 - 1) a1) with (set_refcnt (refcnt a + 1 - 1) a) in Hx.
    rewrite set_refcnt_back, (udp_set_heap_insert_id _ _ _ Ha) in Hx.
    apply Hx. cbn. lia. }
  unfold udp_assoc_received.
  eapply exec_bind_eq; [by eapply exec_find_ref_first|cbn beta|reflexivity].
  destruct (Z.eqb_spec p NULL); [done|].
  eapply exec_bind_eq; [by apply udp_exec_load_assoc|cbn beta|reflexivity].
  eapply exec_bind_eq; [apply exec_emit|cbn beta|reflexivity].
  eapply exec_bind_eq; [exact Hcb|exact Hdel|reflexivity].
Qed.

(** *** Sending *)

(** The destination [udp_assoc_send] accepts. *)
Definition valid_destination (epp : inet_ep2_t) : Prop :=
  inet_addr_is_any (ep_addr (remote epp)) = false ∧
  port (remote epp) ≠ inet_port_any ∧
  version (ep_addr (remote epp)) = version (ep_addr (local epp)).

(** The calls [udp_assoc_send] makes for the endpoints [epp] and the code
    it returns. *)
Definition send_outcome (epp : inet_ep2_t) (msg : Z) : list event * Z :=
  if inet_addr_is_any (ep_addr (remote epp)) || (port (remote epp) =? inet_port_any)
  then ([], EINVAL)
  else if negb (bool_decide (version (ep_addr (remote epp))
                             = version (ep_addr (local epp))))
  then ([], EINVAL)
  else
    let '(rc, pdu) := pdu_encode_result epp msg in
    if negb (rc =? EOK) then ([EvPduEncode epp msg], ENOMEM)
    else ([EvPduEncode epp msg; EvTransmit pdu; EvPduDelete pdu],
          if negb (transmit_result pdu =? EOK) then EIO else EOK).

Lemma exec_udp_assoc_send assoc remote msg a s :
  cell_at s assoc = Some (Assoc a) →
  exec (udp_assoc_send assoc remote msg) s
       (send_outcome (effective a remote) msg).1
       (send_outcome (effective a remote) msg).2 s.
Proof.
  intros Ha. unfold udp_assoc_send, send_outcome.
  eapply exec_bind_eq; [by apply udp_exec_load_assoc| |traces].
  cbn zeta. fold (effective a remote).
  destruct (inet_addr_is_any _ || _); [apply exec_ret|].
  destruct (negb (bool_decide _)); [apply exec_ret|].
  unfold udp_pdu_encode.
  destruct (pdu_encode_result (effective a remote) msg) as [rc pdu] eqn:Henc.
  destruct (negb (rc =? EOK)) eqn:Hrc; cbn [fst snd].
  - eapply exec_bind_eq.
    + eapply exec_bind_eq; [apply exec_emit|apply exec_ret|reflexivity].
    + cbn beta iota. rewrite Hrc. apply exec_ret.
    + reflexivity.
  - eapply exec_bind_eq.
    + eapply exec_bind_eq; [apply exec_emit|apply exec_ret|reflexivity].
    + cbn beta iota. rewrite Hrc. unfold udp_transmit_pdu.
      eapply exec_bind_eq.
      * eapply exec_bind_eq; [apply exec_emit|apply exec_ret|reflexivity].
      * cbn beta. eapply exec_bind_eq; [apply exec_emit| |reflexivity].
        destruct (negb (transmit_result pdu =? EOK)); apply exec_ret.
      * reflexivity.
    + reflexivity.
Qed.

(** *** The receive queue *)

(** What a receiver is handed for the entry [r]. *)
Definition handed (r : udp_rcv_queue_entry_t) : Z * inet_ep_t :=
  (rqe_msg r, remote (rqe_epp r)).

(** The store once [udp_assoc_queue_msg] has queued the entry [rqe]. *)
Definition queued_on (assoc rqe : Z) (epp : inet_ep2_t) (msg : Z) (a : udp_assoc_t)
    (n : nat) (s : store) : store :=
  set_heap <[assoc := Assoc (set_rcv_queue (rcv_queue a ++ [rqe]) a)]>
    (set_heap <[rqe := Rqe {| rqe_epp := epp; rqe_msg := msg |}]>
       (set_mem_avail (λ _, n) s)).

Lemma exec_udp_assoc_queue_msg assoc epp msg a s n :
  cell_at s assoc = Some (Assoc a) → mem_avail s = S n →
  ∃ rqe,
    rqe ≠ NULL ∧ cell_at s rqe = None ∧
    exec (udp_assoc_queue_msg assoc epp msg) s
         [EvLock (assoc_lock assoc); EvUnlock (assoc_lock assoc);
          EvCondBroadcast assoc] EOK
         (queued_on assoc rqe epp msg a n s).
Proof.
  intros Ha Hmem.
  destruct (udp_exec_calloc_some (Rqe zero_rqe) s n Hmem)
    as (rqe & Hnn & Hfresh & Hcalloc).
  exists rqe. split_and!; [done..|].
  assert (Hne : rqe ≠ assoc) by congruence.
  unfold udp_assoc_queue_msg, queued_on.
  eapply exec_bind_eq; [exact Hcalloc|cbn beta|].
  destruct (Z.eqb_spec rqe NULL); [done|].
  step. rewrite udp_set_heap_insert_twice.
  step. rewrite udp_set_heap_insert_twice. cbn [rqe_epp rqe_msg zero_rqe].
  step.
  eapply exec_bind_eq;
    [apply (udp_exec_update_assoc assoc
              (λ a, set_rcv_queue (rcv_queue a ++ [rqe]) a) a);
     by rewrite udp_cell_at_insert_ne
    |cbn beta|].
  step. step. apply exec_ret. all: traces.
Qed.

(** [udp_assoc_recv] on a queue that holds something. *)
Lemma exec_udp_assoc_recv_ready sched assoc a link rest r s :
  cell_at s assoc = Some (Assoc a) → reset a = false →
  rcv_queue a = link :: rest → cell_at s link = Some (Rqe r) →
  exec (udp_assoc_recv sched assoc) s
       [EvLock (assoc_lock assoc); EvUnlock (assoc_lock assoc); EvFree link]
       (Returned EOK (Some (handed r)))
       (udp_freed link (set_heap <[assoc := Assoc (set_rcv_queue rest a)]> s)).
Proof.
  intros Ha Hreset Hq Hlink. pose proof (udp_cell_at_not_null _ _ _ Ha) as Hnn.
  assert (Hne : link ≠ assoc) by congruence.
  assert (Hwait : exec (wait_for_message false sched assoc) s [] true s).
  { destruct sched; cbn [wait_for_message];
      (step; [rewrite Hq, Hreset; apply exec_ret|traces]). }
  unfold udp_assoc_recv. step.
  eapply exec_bind_eq; [exact Hwait|cbn beta iota|]. cbn [negb].
  step. rewrite Hreset, Hq. step. step.
  eapply exec_bind_eq;
    [apply (udp_exec_load_rqe link r); by rewrite udp_cell_at_insert_ne|cbn beta|].
  step. apply exec_ret. all: traces.
Qed.

(** [udp_assoc_recv] on an empty queue, woken by a broadcast of another
    fibril during its first wait. *)
Lemma exec_udp_assoc_recv_woken others sched assoc a t1 s1 a1 link rest r s :
  cell_at s assoc = Some (Assoc a) → reset a = false → rcv_queue a = [] →
  exec others s t1 tt s1 → broadcasts assoc t1 = true →
  cell_at s1 assoc = Some (Assoc a1) → reset a1 = false →
  rcv_queue a1 = link :: rest → cell_at s1 link = Some (Rqe r) →
  exec (udp_assoc_recv (others :: sched) assoc) s
       (EvLock (assoc_lock assoc) :: EvCondWait assoc :: t1
          ++ [EvUnlock (assoc_lock assoc); EvFree link])
       (Returned EOK (Some (handed r)))
       (udp_freed link (set_heap <[assoc := Assoc (set_rcv_queue rest a1)]> s1)).
Proof.
  intros Ha Hreset Hq Hothers Hwoken Ha1 Hreset1 Hq1 Hlink.
  pose proof (udp_cell_at_not_null _ _ _ Ha) as Hnn.
  assert (Hne : link ≠ assoc) by congruence.
  assert (Hwait : exec (wait_for_message false (others :: sched) assoc) s
                       (EvCondWait assoc :: t1) true s1).
  { cbn [wait_for_message]. step. rewrite Hq, Hreset. cbn [negb andb].
    rewrite bool_decide_eq_true_2 by done.
    step. eapply exec_bind_eq; [apply exec_woken_by; exact Hothers|cbn beta|].
    - rewrite Hwoken. cbn [negb].
      destruct sched; cbn [wait_for_message];
        (step; [rewrite Hq1, Hreset1; apply exec_ret|traces]).
    - traces.
    - traces.
    - traces. }
  unfold udp_assoc_recv. step.
  eapply exec_bind_eq; [exact Hwait|cbn beta iota|]. cbn [negb].
  step. rewrite Hreset1, Hq1. step. step.
  eapply exec_bind_eq;
    [apply (udp_exec_load_rqe link r); by rewrite udp_cell_at_insert_ne|cbn beta|].
  step. apply exec_ret. all: traces.
Qed.

(** [udp_assoc_recv] with nothing queued, no reset and nobody else
    running: the fibril waits. *)
Lemma exec_udp_assoc_recv_waits assoc a s :
  cell_at s assoc = Some (Assoc a) → reset a = false → rcv_queue a = [] →
  exec (udp_assoc_recv [] assoc) s [EvLock (assoc_lock assoc)] Waiting s.
Proof.
  intros Ha Hreset Hq. unfold udp_assoc_recv. step.
  eapply exec_bind_eq.
  - cbn [wait_for_message]. step. rewrite Hq, Hreset.
    rewrite bool_decide_eq_true_2 by done. apply exec_ret. traces.
  - cbn beta iota. cbn [negb]. apply exec_ret.
  - traces.
  - traces.
Qed.

(** *** The properties *)

(** X15.  [udp_assoc_new] returns [NULL] and leaves the store as it is
    when nothing can be allocated; else it returns an association at an
    address that designated nothing before, with one reference (the
    user's), an empty receive queue, the identity it was given (the zero
    identity for [NULL]) and the callbacks, neither deleted nor reset; the
    association is not put on the association list. *)
Theorem udp_assoc_new_outcomes (epp : option inet_ep2_t) (cb cb_arg : Z) (s : store) :
  (∀ n, mem_avail s = S n →
     ∃ assoc,
       assoc ≠ NULL ∧ cell_at s assoc = None ∧
       udp_assoc_new epp cb cb_arg s
         = ([EvAtomicSet assoc 1],
            Ok assoc (set_heap <[assoc := Assoc (new_assoc epp cb cb_arg)]>
                        (set_mem_avail (λ _, n) s))))
  ∧ (mem_avail s = 0%nat → udp_assoc_new epp cb cb_arg s = ([], Ok NULL s)).
Proof.
  split.
  - intros n Hmem. by apply exec_udp_assoc_new.
  - intros Hmem. unfold udp_assoc_new.
    eapply exec_bind_eq; [by apply udp_exec_calloc_exhausted| |reflexivity].
    cbn [Z.eqb NULL]. apply exec_ret.
Qed.

(** X16.  [udp_assoc_delref] releases the association exactly when it
    takes the count from one to zero.  Then every entry of the receive
    queue goes first, the oldest first: its message is deleted and the
    entry released, and the association is released last.  The
    association list is not touched either way. *)
Theorem udp_assoc_delref_frees_at_zero
    (assoc : Z) (a : udp_assoc_t) (rs : list udp_rcv_queue_entry_t) (s : store) :
  cell_at s assoc = Some (Assoc a) → udp_queued s (rcv_queue a) rs →
  (refcnt a ≠ 1 →
   udp_assoc_delref assoc s
     = ([EvAtomicPredec assoc],
        Ok tt (set_heap <[assoc := Assoc (set_refcnt (refcnt a - 1) a)]> s)))
  ∧ (refcnt a = 1 →
     ∃ s',
       udp_assoc_delref assoc s
         = (EvAtomicPredec assoc :: flushed (rcv_queue a) rs ++ [EvFree assoc],
            Ok tt s') ∧
       released s' = assoc :: rev (rcv_queue a) ++ released s ∧
       mem_avail s' = S (mem_avail s + length (rcv_queue a)) ∧
       assoc_list s' = assoc_list s).
Proof.
  intros Ha Hrs. split.
  - intros Hcnt. by apply exec_udp_assoc_delref_held.
  - intros Hcnt.
    destruct (exec_udp_assoc_delref_last assoc a rs s Ha Hcnt Hrs)
      as (s' & Hex & _ & _ & Hrel & Hmem & Hlist).
    by exists s'.
Qed.

(** X17.  [udp_assoc_add] followed by [udp_assoc_remove] leaves the store
    as it was, for an association that is referenced and not on the list:
    the reference the list holds is taken and given back, and the list
    lock is taken and released by each of the two. *)
Theorem udp_assoc_add_remove_round_trip (assoc : Z) (a : udp_assoc_t) (s : store) :
  cell_at s assoc = Some (Assoc a) → refcnt a ≠ 0 → assoc ∉ assoc_list s →
  (udp_assoc_add assoc;; udp_assoc_remove assoc) s
    = ([EvAtomicInc assoc; EvLock assoc_list_lock; EvUnlock assoc_list_lock;
        EvLock assoc_list_lock; EvUnlock assoc_list_lock; EvAtomicPredec assoc],
       Ok tt s).
Proof.
  intros Ha Hcnt Hnotin. pose proof (udp_cell_at_not_null _ _ _ Ha) as Hnn.
  set (a1 := set_refcnt (refcnt a + 1) a).
  set (s1 := set_heap <[assoc := Assoc a1]> s).
  set (s2 := set_assoc_list (λ l, l ++ [assoc]) s1).
  set (s3 := set_assoc_list (filter (λ q, q ≠ assoc)) s2).
  assert (Hs3 : s3 = s1).
  { unfold s3, s2, set_assoc_list. cbn. rewrite filter_ne_snoc by done.
    unfold s1, set_heap. by destruct s. }
  assert (Hdel : exec (udp_assoc_delref assoc) s3 [EvAtomicPredec assoc] tt s).
  { rewrite Hs3.
    pose proof (exec_udp_assoc_delref_held assoc a1 s1
                  (udp_cell_at_insert_eq _ _ _ Hnn)) as Hx.
    unfold s1 in Hx. rewrite udp_set_heap_insert_twice in Hx.
    change (set_refcnt (refcnt a1 - 1) a1) with (set_refcnt (refcnt a + 1 - 1) a) in Hx.
    rewrite set_refcnt_back, (udp_set_heap_insert_id _ _ _ Ha) in Hx.
    apply Hx. cbn. lia. }
  eapply exec_bind_eq.
  - unfold udp_assoc_add, udp_assoc_addref.
    eapply exec_bind_eq; [by apply exec_atomic_inc|cbn beta|reflexivity].
    eapply exec_bind_eq; [apply exec_emit|cbn beta|reflexivity].
    eapply exec_bind_eq; [apply exec_modify|apply exec_emit|reflexivity].
  - unfold udp_assoc_remove.
    eapply exec_bind_eq; [apply exec_emit|cbn beta|reflexivity].
    eapply exec_bind_eq; [apply exec_modify|cbn beta|reflexivity].
    eapply exec_bind_eq; [apply exec_emit|exact Hdel|reflexivity].
  - reflexivity.
Qed.


(** X19.  [udp_assoc_find_ref] returns the first association of the list
    that is bound to a local port and whose identity takes the endpoints,
    with one reference added to it; when the list holds none it returns
    [NULL] and changes nothing.  An association whose local port is the
    wildcard is never returned.  Either way the list lock is taken once
    and released once. *)
Theorem udp_assoc_find_ref_first_bound_match (epp : inet_ep2_t) (s : store) :
  (Forall (passed s epp) (assoc_list s) →
   udp_assoc_find_ref epp s
     = ([EvLock assoc_list_lock; EvUnlock assoc_list_lock], Ok NULL s))
  ∧ (∀ l1 p l2 a,
       assoc_list s = l1 ++ p :: l2 → Forall (passed s epp) l1 →
       cell_at s p = Some (Assoc a) → takes epp a = true →
       port (local (ident a)) ≠ inet_port_any ∧
       udp_assoc_find_ref epp s
         = ([EvLock assoc_list_lock; EvAtomicInc p; EvUnlock assoc_list_lock],
            Ok p (set_heap <[p := Assoc (set_refcnt (refcnt a + 1) a)]> s))).
Proof.
  split.
  - intros Hl. by apply exec_find_ref_none.
  - intros l1 p l2 a Hlist Hl1 Ha Htakes. split.
    + unfold takes in Htakes. apply andb_true_iff in Htakes as [Hport _].
      apply negb_true_iff in Hport. by apply Z.eqb_neq.
    + by eapply exec_find_ref_first.
Qed.

(** X20.  [udp_assoc_received] deletes a datagram that no association
    takes, and calls no callback for it.  A datagram that an association
    takes goes to that association's callback and to nothing else: it is
    not put on the receive queue, and when the callback leaves the store
    alone [udp_assoc_received] returns with the store as it found it, the
    reference it took given back. *)
Theorem udp_assoc_received_leaves_store (repp : inet_ep2_t) (msg : Z) (s : store) :
  (Forall (passed s repp) (assoc_list s) →
   udp_assoc_received repp msg s
     = ([EvLock assoc_list_lock; EvUnlock assoc_list_lock; EvMsgDelete msg],
        Ok tt s))
  ∧ (∀ l1 p l2 a t2,
       assoc_list s = l1 ++ p :: l2 → Forall (passed s repp) l1 →
       cell_at s p = Some (Assoc a) → takes repp a = true → refcnt a ≠ 0 →
       recv_msg_code (cb a) (cb_arg a) repp msg
         (set_heap <[p := Assoc (set_refcnt (refcnt a + 1) a)]> s)
         = (t2, Ok tt (set_heap <[p := Assoc (set_refcnt (refcnt a + 1) a)]> s)) →
       udp_assoc_received repp msg s
         = ([EvLock assoc_list_lock; EvAtomicInc p; EvUnlock assoc_list_lock;
             EvRecvMsg (cb a) (cb_arg a) repp msg] ++ t2 ++ [EvAtomicPredec p],
            Ok tt s)).
Proof.
  split.
  - intros Hl. by apply exec_received_none.
  - intros l1 p l2 a t2 Hlist Hl1 Ha Htakes Hcnt Hcb.
    by eapply exec_received_first.
Qed.

(** X21.  [udp_assoc_send] to a destination it accepts.  When the PDU
    cannot be encoded it returns [ENOMEM], and nothing is transmitted or
    deleted.  Else the PDU is transmitted once and deleted once, also when
    transmitting fails; the code is [EIO] then and [EOK] otherwise. *)
Theorem udp_assoc_send_deletes_what_it_encodes
    (assoc : Z) (remote : option inet_ep_t) (msg rc pdu : Z)
    (a : udp_assoc_t) (s : store) :
  cell_at s assoc = Some (Assoc a) →
  valid_destination (effective a remote) →
  pdu_encode_result (effective a remote) msg = (rc, pdu) →
  (rc ≠ EOK →
   udp_assoc_send assoc remote msg s
     = ([EvPduEncode (effective a remote) msg], Ok ENOMEM s))
  ∧ (rc = EOK →
     udp_assoc_send assoc remote msg s
       = ([EvPduEncode (effective a remote) msg; EvTransmit pdu; EvPduDelete pdu],
          Ok (if transmit_result pdu =? EOK then EOK else EIO) s)).
Proof.
  intros Ha (Hany & Hport & Hver) Henc.
  pose proof (exec_udp_assoc_send assoc remote msg a s Ha) as Hex.
  unfold send_outcome in Hex. rewrite Hany, Henc in Hex.
  destruct (Z.eqb_spec (port (Udp.remote (effective a remote))) inet_port_any);
    [done|].
  rewrite bool_decide_eq_true_2 in Hex by done. cbn [orb negb] in Hex.
  split.
  - intros Hrc. destruct (Z.eqb_spec rc EOK); [done|]. exact Hex.
  - intros Hrc. destruct (Z.eqb_spec rc EOK); [|done]. cbn [negb fst snd] in Hex.
    by destruct (transmit_result pdu =? EOK).
Qed.

(** X22.  Sending with a remote endpoint given is sending without one
    after [udp_assoc_set_remote] has stored that endpoint: the same calls
    are made and the same code is returned.  The difference is in the
    store, where only the second changes the association. *)
Theorem udp_assoc_set_remote_then_send
    (assoc : Z) (r : inet_ep_t) (msg : Z) (a : udp_assoc_t) (s : store) :
  cell_at s assoc = Some (Assoc a) →
  ∃ t rc,
    udp_assoc_send assoc (Some r) msg s = (t, Ok rc s) ∧
    (udp_assoc_set_remote assoc r;; udp_assoc_send assoc None msg) s
      = (EvLock (assoc_lock assoc) :: EvUnlock (assoc_lock assoc) :: t,
         Ok rc (set_heap <[assoc := Assoc (set_ident (set_remote r (ident a)) a)]> s)).
Proof.
  intros Ha. pose proof (udp_cell_at_not_null _ _ _ Ha) as Hnn.
  set (a1 := set_ident (set_remote r (ident a)) a).
  set (s1 := set_heap <[assoc := Assoc a1]> s).
  exists (send_outcome (effective a (Some r)) msg).1,
         (send_outcome (effective a (Some r)) msg).2.
  split; [by apply exec_udp_assoc_send|].
  eapply exec_bind_eq.
  - unfold udp_assoc_set_remote.
    eapply exec_bind_eq; [apply exec_emit|cbn beta|reflexivity].
    eapply exec_bind_eq;
      [apply (udp_exec_update_assoc assoc
                (λ a, set_ident (set_remote r (ident a)) a) a s Ha)
      |apply exec_emit|reflexivity].
  - apply (exec_udp_assoc_send assoc None msg a1 s1).
    by apply udp_cell_at_insert_eq.
  - reflexivity.
Qed.

(** X23.  The receive queue is first in, first out.
    [udp_assoc_queue_msg] puts the datagram behind what the queue holds,
    and the [udp_assoc_recv] that follows hands out the oldest datagram
    with the remote endpoint it came from: the one just queued only when
    the queue was empty.  The entry handed out is released, so that as much
    can be allocated afterwards as before, and the others stay queued in
    their order.  With nothing to allocate [udp_assoc_queue_msg] returns
    [ENOMEM], takes no lock, wakes nobody and queues nothing. *)
Theorem udp_assoc_queue_msg_then_recv_is_fifo
    (assoc : Z) (epp : inet_ep2_t) (msg : Z) (a : udp_assoc_t)
    (rs : list udp_rcv_queue_entry_t) (s : store) :
  cell_at s assoc = Some (Assoc a) → reset a = false →
  udp_queued s (rcv_queue a) rs →
  (mem_avail s ≠ 0%nat →
   ∃ rqe s' a',
     cell_at s rqe = None ∧
     (udp_assoc_queue_msg assoc epp msg;; udp_assoc_recv [] assoc) s
       = ([EvLock (assoc_lock assoc); EvUnlock (assoc_lock assoc);
           EvCondBroadcast assoc;
           EvLock (assoc_lock assoc); EvUnlock (assoc_lock assoc);
           EvFree (default rqe (head (rcv_queue a)))],
          Ok (Returned EOK
                (Some (default (msg, remote epp) (head (map handed rs))))) s') ∧
     cell_at s' assoc = Some (Assoc a') ∧
     udp_queued s' (rcv_queue a')
                (tail (rs ++ [{| rqe_epp := epp; rqe_msg := msg |}])) ∧
     mem_avail s' = mem_avail s)
  ∧ (mem_avail s = 0%nat →
     udp_assoc_queue_msg assoc epp msg s = ([], Ok ENOMEM s)).
Proof.
  intros Ha Hreset Hrs. pose proof (udp_cell_at_not_null _ _ _ Ha) as Hnn. split.
  - intros Hmem. destruct (mem_avail s) as [|n] eqn:Hn; [done|].
    destruct (exec_udp_assoc_queue_msg assoc epp msg a s n Ha Hn)
      as (rqe & Hrn & Hfresh & Hex).
    assert (Hne : rqe ≠ assoc) by congruence.
    set (new := {| rqe_epp := epp; rqe_msg := msg |}).
    set (s1 := queued_on assoc rqe epp msg a n s) in *.
    set (a1 := set_rcv_queue (rcv_queue a ++ [rqe]) a).
    assert (Ha1 : cell_at s1 assoc = Some (Assoc a1))
      by (by apply udp_cell_at_insert_eq).
    assert (Hnew : cell_at s1 rqe = Some (Rqe new)).
    { unfold s1, queued_on. rewrite udp_cell_at_insert_ne by done.
      by apply udp_cell_at_insert_eq. }
    assert (Hrs1 : udp_queued s1 (rcv_queue a ++ [rqe]) (rs ++ [new])).
    { apply Forall2_app; [|by repeat constructor].
      eapply udp_queued_frame; [|exact Hrs]. intros p r Hp.
      unfold s1, queued_on. rewrite !udp_cell_at_insert_ne; [done|congruence..]. }
    destruct (rcv_queue a ++ [rqe]) as [|link rest] eqn:Hq1;
      [by destruct (rcv_queue a)|].
    destruct (rs ++ [new]) as [|r rs1] eqn:Hrs1'; [by inversion Hrs1|].
    inversion Hrs1 as [|? ? ? ? Hlink Hrest]; subst.
    assert (Hlink' : link = default rqe (head (rcv_queue a))).
    { destruct (rcv_queue a); cbn in *; congruence. }
    assert (Hr' : handed r = default (msg, remote epp) (head (map handed rs))).
    { destruct rs; cbn in *; by injection Hrs1' as <- _. }
    exists rqe. eexists. exists (set_rcv_queue rest a1). split_and!; [done| | | |].
    + eapply exec_bind_eq; [exact Hex| |reflexivity].
      rewrite <- Hlink', <- Hr'.
      by apply (exec_udp_assoc_recv_ready [] assoc a1 link rest r s1).
    + by apply udp_cell_at_insert_eq.
    + cbn [tail rcv_queue set_rcv_queue].
      eapply udp_queued_frame; [|exact Hrest]. intros p r0 Hp.
      change (cell_at (set_heap <[assoc := Assoc (set_rcv_queue rest a1)]> s1) p
              = Some (Rqe r0)).
      rewrite udp_cell_at_insert_ne; [done|congruence].
    + reflexivity.
  - intros Hmem. unfold udp_assoc_queue_msg.
    eapply exec_bind_eq; [by apply udp_exec_calloc_exhausted| |reflexivity].
    cbn [Z.eqb NULL]. apply exec_ret.
Qed.

(** X24.  [udp_assoc_recv] on an association with nothing queued and no
    reset waits on the condition variable, holding nothing but its place
    in the wait.  When another fibril queues a datagram meanwhile, the
    receiver is handed that datagram and its remote endpoint; the entry
    that carried it is released and the queue is empty again. *)
Theorem udp_assoc_recv_waits_for_queue_msg
    (assoc : Z) (epp : inet_ep2_t) (msg : Z) (a : udp_assoc_t) (s : store) :
  cell_at s assoc = Some (Assoc a) → reset a = false → rcv_queue a = [] →
  mem_avail s ≠ 0%nat →
  udp_assoc_recv [] assoc s = ([EvLock (assoc_lock assoc)], Ok Waiting s)
  ∧ ∃ rqe s' a',
      cell_at s rqe = None ∧
      udp_assoc_recv [udp_assoc_queue_msg assoc epp msg;; mret tt] assoc s
        = ([EvLock (assoc_lock assoc); EvCondWait assoc;
            EvLock (assoc_lock assoc); EvUnlock (assoc_lock assoc);
            EvCondBroadcast assoc;
            EvUnlock (assoc_lock assoc); EvFree rqe],
           Ok (Returned EOK (Some (msg, remote epp))) s') ∧
      cell_at s' assoc = Some (Assoc a') ∧ rcv_queue a' = [] ∧
      mem_avail s' = mem_avail s.
Proof.
  intros Ha Hreset Hq Hmem. pose proof (udp_cell_at_not_null _ _ _ Ha) as Hnn.
  split; [by apply (exec_udp_assoc_recv_waits assoc a)|].
  destruct (mem_avail s) as [|n] eqn:Hn; [done|].
  destruct (exec_udp_assoc_queue_msg assoc epp msg a s n Ha Hn)
    as (rqe & Hrn & Hfresh & Hex).
  assert (Hne : rqe ≠ assoc) by congruence.
  set (s1 := queued_on assoc rqe epp msg a n s) in *.
  set (a1 := set_rcv_queue (rcv_queue a ++ [rqe]) a).
  exists rqe. eexists. exists (set_rcv_queue [] a1). split_and!; [done| | |done|].
  - apply (exec_udp_assoc_recv_woken (udp_assoc_queue_msg assoc epp msg;; mret tt)
             [] assoc a
             [EvLock (assoc_lock assoc); EvUnlock (assoc_lock assoc);
              EvCondBroadcast assoc]
             s1 a1 rqe [] {| rqe_epp := epp; rqe_msg := msg |} s); try done.
    + eapply exec_bind_eq; [exact Hex|apply exec_ret|reflexivity].
    + cbn. by rewrite Z.eqb_refl.
    + by apply udp_cell_at_insert_eq.
    + unfold a1. cbn. by rewrite Hq.
    + unfold s1, queued_on. rewrite udp_cell_at_insert_ne by done.
      by apply udp_cell_at_insert_eq.
  - by apply udp_cell_at_insert_eq.
  - reflexivity.
Qed.

(** X26.  An association receives nothing until it is bound to a local
    port.  While its local port is the wildcard [udp_assoc_find_ref] goes
    past it, whatever the datagram; once [udp_assoc_set_local_port] has
    given it a port, the datagrams that its identity takes find it. *)
Theorem udp_assoc_set_local_port_makes_findable
    (assoc lport : Z) (epp : inet_ep2_t) (a : udp_assoc_t) (l1 l2 : list Z)
    (s : store) :
  cell_at s assoc = Some (Assoc a) →
  port (local (ident a)) = inet_port_any →
  assoc_list s = l1 ++ assoc :: l2 → assoc ∉ l1 →
  Forall (passed s epp) l1 → Forall (passed s epp) l2 →
  lport ≠ inet_port_any →
  udp_ep2_match epp (set_local (set_port lport (local (ident a))) (ident a)) = true →
  udp_assoc_find_ref epp s
    = ([EvLock assoc_list_lock; EvUnlock assoc_list_lock], Ok NULL s)
  ∧ (udp_assoc_set_local_port assoc lport;; udp_assoc_find_ref epp) s
    = ([EvLock (assoc_lock assoc); EvUnlock (assoc_lock assoc);
        EvLock assoc_list_lock; EvAtomicInc assoc; EvUnlock assoc_list_lock],
       Ok assoc
          (set_heap
             <[assoc := Assoc (set_refcnt (refcnt a + 1)
                                 (set_ident
                                    (set_local (set_port lport (local (ident a)))
                                               (ident a)) a))]> s)).
Proof.
  intros Ha Hunbound Hlist Hnotin Hl1 Hl2 Hlport Hmatch.
  pose proof (udp_cell_at_not_null _ _ _ Ha) as Hnn. split.
  - apply exec_find_ref_none. rewrite Hlist.
    apply Forall_app. split; [done|]. constructor; [|done].
    exists a. split; [done|]. unfold takes. rewrite Hunbound, Z.eqb_refl. done.
  - set (a1 := set_ident (set_local (set_port lport (local (ident a))) (ident a)) a).
    set (s1 := set_heap <[assoc := Assoc a1]> s).
    assert (Hfind : exec (udp_assoc_find_ref epp) s1
                      [EvLock assoc_list_lock; EvAtomicInc assoc;
                       EvUnlock assoc_list_lock] assoc
                      (set_heap <[assoc := Assoc (set_refcnt (refcnt a1 + 1) a1)]> s1)).
    { apply (exec_find_ref_first epp l1 assoc l2 a1 s1).
      - exact Hlist.
      - apply Forall_forall. intros q Hq. rewrite Forall_forall in Hl1.
        destruct (Hl1 q Hq) as (b & Hb & Hpass). exists b. split; [|done].
        unfold s1. rewrite udp_cell_at_insert_ne; [done|]. by intros ->.
      - by apply udp_cell_at_insert_eq.
      - unfold takes, a1. cbn [ident set_ident local set_local port set_port].
        destruct (Z.eqb_spec lport inet_port_any); [done|]. exact Hmatch. }
    unfold s1 in Hfind. rewrite udp_set_heap_insert_twice in Hfind.
    assert (Hset : exec (udp_assoc_set_local_port assoc lport) s
                     [EvLock (assoc_lock assoc); EvUnlock (assoc_lock assoc)] tt
                     (set_heap <[assoc := Assoc a1]> s)).
    { unfold udp_assoc_set_local_port.
      eapply exec_bind_eq; [apply exec_emit|cbn beta|reflexivity].
      eapply exec_bind_eq;
        [apply (udp_exec_update_assoc assoc
                  (λ a, set_ident (set_local (set_port lport (local (ident a)))
                                             (ident a)) a) a s Ha)
        |apply exec_emit|reflexivity]. }
    eapply exec_bind_eq; [exact Hset|exact Hfind|reflexivity].
Qed.

End facts.

(** *** Concrete runs *)

#[local] Existing Instance sample_errno.
#[local] Existing Instance sample_udp_env.

(** The small world with one datagram queued on the association, which
    only its user holds. *)
Definition sample_rqe : udp_rcv_queue_entry_t :=
  {| rqe_epp := sample_repp; rqe_msg := 900 |}.

Definition sample_udp_queued : store :=
  set_heap (λ h, <[16 := Assoc (set_refcnt 1 (set_rcv_queue [32] sample_assoc))]>
                   (<[32 := Rqe sample_rqe]> h))
    sample_udp_store.

Lemma udp_assoc_delref_frees_at_zero_witness :
  (1 ≠ 1 →
   udp_assoc_delref 16 sample_udp_queued
     = ([EvAtomicPredec 16],
        Ok tt (set_heap
                 <[16 := Assoc (set_refcnt (1 - 1)
                                  (set_refcnt 1 (set_rcv_queue [32] sample_assoc)))]>
                 sample_udp_queued)))
  ∧ (1 = 1 →
     ∃ s',
       udp_assoc_delref 16 sample_udp_queued
         = (EvAtomicPredec 16 :: flushed [32] [sample_rqe] ++ [EvFree 16],
            Ok tt s') ∧
       released s' = 16 :: rev [32] ++ [] ∧
       mem_avail s' = S (4 + 1) ∧
       assoc_list s' = [16]).
Proof.
  apply (udp_assoc_delref_frees_at_zero 16
           (set_refcnt 1 (set_rcv_queue [32] sample_assoc)) [sample_rqe]
           sample_udp_queued).
  - reflexivity.
  - repeat constructor.
Defined.

Lemma udp_assoc_add_remove_round_trip_witness :
  let s := set_assoc_list (λ _, []) sample_udp_store in
  (udp_assoc_add 16;; udp_assoc_remove 16) s
    = ([EvAtomicInc 16; EvLock assoc_list_lock; EvUnlock assoc_list_lock;
        EvLock assoc_list_lock; EvUnlock assoc_list_lock; EvAtomicPredec 16],
       Ok tt s).
Proof.
  apply (udp_assoc_add_remove_round_trip 16 sample_assoc
           (set_assoc_list (λ _, []) sample_udp_store)).
  - reflexivity.
  - discriminate.
  - apply not_elem_of_nil.
Defined.


Lemma udp_assoc_send_deletes_what_it_encodes_witness :
  udp_assoc_send 16 (Some sample_peer) 900 sample_udp_store
    = ([EvPduEncode sample_repp 900; EvTransmit 901; EvPduDelete 901],
       Ok EOK sample_udp_store).
Proof.
  destruct (udp_assoc_send_deletes_what_it_encodes 16 (Some sample_peer) 900 0 901
              sample_assoc sample_udp_store) as [_ Hsent].
  - reflexivity.
  - split_and!; [reflexivity|discriminate|reflexivity].
  - reflexivity.
  - exact (Hsent eq_refl).
Defined.

Lemma udp_assoc_set_remote_then_send_witness :
  ∃ t rc,
    udp_assoc_send 16 (Some sample_peer) 900 sample_udp_store
      = (t, Ok rc sample_udp_store) ∧
    (udp_assoc_set_remote 16 sample_peer;; udp_assoc_send 16 None 900)
      sample_udp_store
      = (EvLock (assoc_lock 16) :: EvUnlock (assoc_lock 16) :: t,
         Ok rc (set_heap
                  <[16 := Assoc (set_ident (set_remote sample_peer (ident sample_assoc))
                                   sample_assoc)]>
                  sample_udp_store)).
Proof.
  apply (udp_assoc_set_remote_then_send 16 sample_peer 900 sample_assoc
           sample_udp_store).
  reflexivity.
Defined.

Lemma udp_assoc_queue_msg_then_recv_is_fifo_witness :
  ∃ rqe s' a',
    cell_at sample_udp_queued rqe = None ∧
    (udp_assoc_queue_msg 16 sample_repp 901;; udp_assoc_recv [] 16) sample_udp_queued
      = ([EvLock (assoc_lock 16); EvUnlock (assoc_lock 16); EvCondBroadcast 16;
          EvLock (assoc_lock 16); EvUnlock (assoc_lock 16); EvFree 32],
         Ok (Returned EOK (Some (900, sample_peer))) s') ∧
    cell_at s' 16 = Some (Assoc a') ∧
    udp_queued s' (rcv_queue a') [{| rqe_epp := sample_repp; rqe_msg := 901 |}] ∧
    mem_avail s' = 4%nat.
Proof.
  apply (udp_assoc_queue_msg_then_recv_is_fifo 16 sample_repp 901
           (set_refcnt 1 (set_rcv_queue [32] sample_assoc)) [sample_rqe]
           sample_udp_queued).
  - reflexivity.
  - reflexivity.
  - repeat constructor.
  - discriminate.
Defined.

Lemma udp_assoc_recv_waits_for_queue_msg_witness :
  udp_assoc_recv [] 16 sample_udp_store
    = ([EvLock (assoc_lock 16)], Ok Waiting sample_udp_store)
  ∧ ∃ rqe s' a',
      cell_at sample_udp_store rqe = None ∧
      udp_assoc_recv [udp_assoc_queue_msg 16 sample_repp 900;; mret tt] 16
        sample_udp_store
        = ([EvLock (assoc_lock 16); EvCondWait 16;
            EvLock (assoc_lock 16); EvUnlock (assoc_lock 16); EvCondBroadcast 16;
            EvUnlock (assoc_lock 16); EvFree rqe],
           Ok (Returned EOK (Some (900, sample_peer))) s') ∧
      cell_at s' 16 = Some (Assoc a') ∧ rcv_queue a' = [] ∧
      mem_avail s' = 4%nat.
Proof.
  apply (udp_assoc_recv_waits_for_queue_msg 16 sample_repp 900 sample_assoc
           sample_udp_store).
  - reflexivity.
  - reflexivity.
  - reflexivity.
  - discriminate.
Defined.

(** The small world before the association has been bound to its port. *)
Definition sample_unbound : udp_assoc_t :=
  set_ident {| local_link := 0; local := set_port 0 sample_local; remote := zero_ep |}
            sample_assoc.

Definition sample_udp_unbound : store :=
  set_heap <[16 := Assoc sample_unbound]> sample_udp_store.

Lemma udp_assoc_set_local_port_makes_findable_witness :
  udp_assoc_find_ref sample_repp sample_udp_unbound
    = ([EvLock assoc_list_lock; EvUnlock assoc_list_lock],
       Ok NULL sample_udp_unbound)
  ∧ (udp_assoc_set_local_port 16 53;; udp_assoc_find_ref sample_repp)
      sample_udp_unbound
    = ([EvLock (assoc_lock 16); EvUnlock (assoc_lock 16);
        EvLock assoc_list_lock; EvAtomicInc 16; EvUnlock assoc_list_lock],
       Ok 16
          (set_heap
             <[16 := Assoc (set_refcnt (2 + 1)
                              (set_ident
                                 (set_local (set_port 53 (local (ident sample_unbound)))
                                            (ident sample_unbound))
                                 sample_unbound))]> sample_udp_unbound)).
Proof.
  apply (udp_assoc_set_local_port_makes_findable 16 53 sample_repp sample_unbound
           [] [] sample_udp_unbound).
  - reflexivity.
  - reflexivity.
  - reflexivity.
  - apply not_elem_of_nil.
  - constructor.
  - constructor.
  - discriminate.
  - reflexivity.
Defined.

End UdpFacts.
